(** * Variational quantum search (QAOA-style ansatz): the notebooks' code

    The development embeds the code cells of the two notebooks of the
    repository:

    - the numpy/scipy notebook ([plus_state], [H_operator], [B_operator],
      [qaoa_step], [cost_function], [get_params], [overlap] and the
      top-level depth loop), at the top level of this file, and once more
      over a store of objects in module [Store];
    - the qit notebook of Lecture 3 ([initial_state], [C_operator],
      [B_operator], [qaoa_step], [F_function], [get_params], [calc_n_p]),
      in module [Qit], over an interface for the qit library.

    Numbers.  Python's [float] and [complex] are read as the exact real and
    complex numbers: every statement below is about exact arithmetic, and
    says nothing about rounding.  Python's [int] is [Z].

    Arrays.  A one-dimensional numpy array is the list of its entries, a
    two-dimensional one the list of its rows.  Entries are complex numbers;
    a real array is one whose entries have imaginary part zero.

    Exceptions.  A call either returns a value or raises; the exceptions the
    code can meet are [TypeError] (a list repeated a non-integer number of
    times), [IndexError] (an angle index out of range), [ValueError]
    (shapes that do not fit in [dot], a matrix that is not square in
    [expm]), and [OverflowError] and [MemoryError] (a list too long for the
    interpreter or for the machine).

    Sizes.  The functions at the top level of this file are embedded for a
    machine that holds the arrays they build.  Module [Sized] embeds
    [plus_state] with the limits of the interpreter and of the machine, for
    the statement of when it fails.

    Libraries.  [scipy.linalg.expm] is the matrix exponential, defined here
    as the entrywise sum of the exponential series (which converges for
    every matrix, [la_expm_is_series_sum]).  The optimizer
    [scipy.optimize.basinhopping] is a parameter of which nothing is
    assumed, except where a statement names what it assumes. *)

From Stdlib Require Import Reals Lra Lia ZArith List Bool Arith.
From Stdlib Require Import ClassicalEpsilon.
Import ListNotations.

Open Scope R_scope.

(** ** Complex numbers *)

Record complex : Type := Cpx { re : R; im : R }.

Declare Scope cpx_scope.
Delimit Scope cpx_scope with cpx.
Bind Scope cpx_scope with complex.

Definition RtoC (x : R) : complex := Cpx x 0.

Definition c0 : complex := RtoC 0.
Definition c1 : complex := RtoC 1.

(** Python's [1j]. *)
Definition cj : complex := Cpx 0 1.

Definition cadd (z w : complex) : complex :=
  Cpx (re z + re w) (im z + im w).

Definition cneg (z : complex) : complex :=
  Cpx (- re z) (- im z).

Definition csub (z w : complex) : complex :=
  Cpx (re z - re w) (im z - im w).

Definition cmul (z w : complex) : complex :=
  Cpx (re z * re w - im z * im w) (re z * im w + im z * re w).

Definition cconj (z : complex) : complex :=
  Cpx (re z) (- im z).

(** Squared modulus. *)
Definition cabs2 (z : complex) : R :=
  re z * re z + im z * im z.

(** A complex number times a real one. *)
Definition cscale (r : R) (z : complex) : complex :=
  Cpx (r * re z) (r * im z).

(** [cos x + 1j * sin x]. *)
Definition cis (x : R) : complex := Cpx (cos x) (sin x).

Notation "z + w" := (cadd z w) : cpx_scope.
Notation "z - w" := (csub z w) : cpx_scope.
Notation "z * w" := (cmul z w) : cpx_scope.
Notation "- z" := (cneg z) : cpx_scope.

Fixpoint cpow (z : complex) (k : nat) : complex :=
  match k with
  | O => c1
  | S k' => (z * cpow z k')%cpx
  end.

(** ** Exceptions *)

Inductive exn : Type :=
| TypeError
| IndexError
| ValueError
| OverflowError
| MemoryError.

Inductive result (A : Type) : Type :=
| Ok (a : A)
| Raise (e : exn).

Arguments Ok {A} a.
Arguments Raise {A} e.

Definition bind {A B : Type} (m : result A) (k : A -> result B) : result B :=
  match m with
  | Ok a => k a
  | Raise e => Raise e
  end.

Notation "x <- m ;; k" := (bind m (fun x => k))
  (at level 61, m at next level, right associativity).

Notation "' p <- m ;; k" := (bind m (fun p => k))
  (at level 61, p pattern, m at next level, right associativity).

(** [for i in l: s = body(i, s)]. *)
Fixpoint for_each {S : Type} (l : list nat) (body : nat -> S -> result S)
  (s : S) : result S :=
  match l with
  | [] => Ok s
  | i :: rest => s' <- body i s ;; for_each rest body s'
  end.

(** [range(p)] for a Python int [p]: empty when [p <= 0]. *)
Definition range (p : Z) : list nat := seq 0 (Z.to_nat p).

(** [range(a, b)]. *)
Definition range_from (a b : Z) : list nat :=
  seq (Z.to_nat a) (Z.to_nat (b - a)).

(** [l[i]] for a list or array of numbers and an index [i >= 0]. *)
Definition getitem {A : Type} (l : list A) (i : nat) : result A :=
  match nth_error l i with
  | Some x => Ok x
  | None => Raise IndexError
  end.

(** ** Arrays and the numpy operations the notebooks use *)

Definition vec : Type := list complex.
Definition mat : Type := list (list complex).

Definition lsum (l : list complex) : complex :=
  fold_right cadd c0 l.

Definition rsum (l : list R) : R :=
  fold_right Rplus 0 l.

(** Sum of the products of the entries of two arrays of one length. *)
Definition dotsum (a b : vec) : complex :=
  lsum (map (fun xy => (fst xy * snd xy)%cpx) (combine a b)).

(** [a.dot(b)] for two one-dimensional arrays: no conjugation. *)
Definition np_dot_vv (a b : vec) : result complex :=
  if (length a =? length b)%nat then Ok (dotsum a b)
  else Raise ValueError.

(** [M.dot(v)] for a two-dimensional [M] and a one-dimensional [v].  A
    matrix without rows has no row length to compare with [v]: it is read
    as an array of shape [(0, k)] for the length [k] of [v], and the
    product is the empty array. *)
Definition np_dot_mv (M : mat) (v : vec) : result vec :=
  if forallb (fun row => (length row =? length v)%nat) M
  then Ok (map (fun row => dotsum row v) M)
  else Raise ValueError.

(** [np.outer(a, b)]: entry [(i, k)] is [a[i] * b[k]], nothing is
    conjugated. *)
Definition np_outer (a b : vec) : mat :=
  map (fun x => map (fun y => (x * y)%cpx) b) a.

(** Unary minus on a two-dimensional array. *)
Definition mat_neg (M : mat) : mat := map (map cneg) M.

(** [z * M] for a scalar [z]. *)
Definition scal_mat (z : complex) (M : mat) : mat := map (map (cmul z)) M.

(** [v.conjugate()]. *)
Definition vconj (v : vec) : vec := map cconj v.

(** Squared Euclidean norm and Euclidean norm of a state. *)
Definition norm2 (v : vec) : R := rsum (map cabs2 v).

Definition norm (v : vec) : R := sqrt (norm2 v).

(** *** The matrix exponential [scipy.linalg.expm]

    [expm] is the sum of the series of the powers of the matrix over the
    factorials, entry by entry. *)

Definition entry (A : mat) (i k : nat) : complex := nth k (nth i A []) c0.

Fixpoint csum (n : nat) (f : nat -> complex) : complex :=
  match n with
  | O => c0
  | S m => (csum m f + f m)%cpx
  end.

(** Entry [(i, l)] of the [k]-th power of the [N] x [N] matrix [A]. *)
Fixpoint mat_pow (N : nat) (A : nat -> nat -> complex) (k : nat)
  (i l : nat) : complex :=
  match k with
  | O => if (i =? l)%nat then c1 else c0
  | S k' => csum N (fun m => (mat_pow N A k' i m * A m l)%cpx)
  end.

(** Entry [(i, l)] of the sum of the terms [A^k / k!] for [k <= n]. *)
Definition exp_partial (N : nat) (A : nat -> nat -> complex) (n : nat)
  (i l : nat) : complex :=
  csum (S n) (fun k => cscale (/ INR (fact k)) (mat_pow N A k i l)).

(** The limit of a sequence of reals. *)
Definition Rlim (u : nat -> R) : R :=
  epsilon (inhabits 0) (fun l => Un_cv u l).

Definition exp_entry (N : nat) (A : nat -> nat -> complex) (i l : nat)
  : complex :=
  Cpx (Rlim (fun n => re (exp_partial N A n i l)))
      (Rlim (fun n => im (exp_partial N A n i l))).

Definition tabulate (N : nat) (f : nat -> nat -> complex) : mat :=
  map (fun i => map (fun l => f i l) (seq 0 N)) (seq 0 N).

Definition is_square (A : mat) : bool :=
  forallb (fun row => (length row =? length A)%nat) A.

Definition la_expm (A : mat) : result mat :=
  if is_square A
  then Ok (tabulate (length A) (exp_entry (length A) (entry A)))
  else Raise ValueError.

(** ** The numpy/scipy notebook *)

(** [[
def plus_state(n_qubits):
    return np.array([1]*(2**n_qubits))/np.sqrt(2**n_qubits)
]]
    For a negative [n_qubits] the power [2**n_qubits] is a float, and a list
    cannot be repeated a float number of times.  The list of [2**n_qubits]
    entries is taken to fit the machine; [Sized.plus_state] below has the
    limits. *)
Definition plus_state (n_qubits : Z) : result vec :=
  if (n_qubits <? 0)%Z then Raise TypeError
  else Ok (map (fun x => RtoC (x / sqrt (IZR (2 ^ n_qubits))))
             (repeat 1 (Z.to_nat (2 ^ n_qubits)))).

(** [[
def H_operator(target_state):
       return -np.outer(target_state, target_state)
]] *)
Definition H_operator (target_state : vec) : mat :=
  mat_neg (np_outer target_state target_state).

(** [[
def B_operator(n_qubits):
    return -np.outer(plus_state(n_qubits),plus_state(n_qubits))
]] *)
Definition B_operator (n_qubits : Z) : result mat :=
  u <- plus_state n_qubits ;;
  v <- plus_state n_qubits ;;
  Ok (mat_neg (np_outer u v)).

(** [[
def qaoa_step(state, H, n_qubits, params):
    B=B_operator(n_qubits)
    state=(la.expm(-1j*params[0]*H)).dot(state)
    return (la.expm(-1j*params[1]*B)).dot(state)
]] *)
Definition qaoa_step (state : vec) (H : mat) (n_qubits : Z)
  (params : list R) : result vec :=
  B <- B_operator n_qubits ;;
  a <- getitem params 0 ;;
  U <- la_expm (scal_mat (- cj * RtoC a)%cpx H) ;;
  state' <- np_dot_mv U state ;;
  b <- getitem params 1 ;;
  V <- la_expm (scal_mat (- cj * RtoC b)%cpx B) ;;
  np_dot_mv V state'.

(** [[
def cost_function(H, n_qubits, p, params):
    ini_state=plus_state(n_qubits)
    for i in range(p):
        ini_state=qaoa_step(ini_state,H,n_qubits,params=[params[2*i],params[2*i+1]])
    return ((ini_state.conjugate().T).dot(H.dot(ini_state))).real, ini_state
]] *)
Definition cost_function (H : mat) (n_qubits : Z) (p : Z) (params : list R)
  : result (R * vec) :=
  ini_state <- plus_state n_qubits ;;
  ini_state <- for_each (range p)
      (fun i ini_state =>
         a <- getitem params (2 * i) ;;
         b <- getitem params (2 * i + 1) ;;
         qaoa_step ini_state H n_qubits [a; b])
      ini_state ;;
  Hs <- np_dot_mv H ini_state ;;
  e <- np_dot_vv (vconj ini_state) Hs ;;
  Ok (re e, ini_state).

(** [[
def overlap(target_state,state):
    projector=np.outer(target_state, target_state)
    return np.real((state.conj().T).dot(projector.dot(state)))
]] *)
Definition overlap (target_state state : vec) : result R :=
  let projector := np_outer target_state target_state in
  Ps <- np_dot_mv projector state ;;
  e <- np_dot_vv (vconj state) Ps ;;
  Ok (re e).

(** [[x for i in l]] where evaluating [x] may raise. *)
Fixpoint map_m {A B : Type} (f : A -> result B) (l : list A)
  : result (list B) :=
  match l with
  | [] => Ok []
  | x :: rest => y <- f x ;; ys <- map_m f rest ;; Ok (y :: ys)
  end.

(** [np.kron] of two column vectors. *)
Definition np_kron (a b : vec) : vec :=
  flat_map (fun x => map (cmul x) b) a.

(** The bounds of the angles: [(0, 2 pi)] at even indices, [(0, pi)] at
    odd ones.
[[
    params_min=[0 for i in range(2*p)]
    params_max=[2*np.pi if i%2==0 else np.pi for i in range(2*p)]
    bounds = [(low, high) for low, high in zip(params_min, params_max)]
]] *)
Definition angle_bounds (p : Z) : list (R * R) :=
  let params_min := map (fun _ => 0) (range (2 * p)) in
  let params_max :=
    map (fun i => if Nat.even i then 2 * PI else PI) (range (2 * p)) in
  combine params_min params_max.

Section Optimizer.

(** [scipy.optimize.basinhopping(fun, x0, minimizer_kwargs=dict(method=
    "L-BFGS-B", bounds=bounds)).x]: a randomised global search, of which
    nothing is assumed.  It is given the objective, the starting point and
    the bounds, and returns a point or raises.  One function stands for the
    outcomes of the calls of one run: the calls of a depth sweep differ in
    their bounds, so every run is the run of some such function. *)
Variable basinhopping :
  (list R -> result R) -> list R -> list (R * R) -> result (list R).

(** [[
def get_params(H, n_qubits, p):
    def fun(x):
        return cost_function(H, n_qubits, p, params=x)[0]
    params_0=[0.25*np.pi for i in range(2*p)]
    params_min=[0 for i in range(2*p)]
    params_max=[2*np.pi if i%2==0 else np.pi for i in range(2*p)]
    bounds = [(low, high) for low, high in zip(params_min, params_max)]
    minimizer_kwargs = dict(method="L-BFGS-B", bounds=bounds)
    result = optimize.basinhopping(fun, params_0, minimizer_kwargs=minimizer_kwargs)
    return [result.x[i] for i in range(2*p)]
]] *)
Definition get_params (H : mat) (n_qubits p : Z) : result (list R) :=
  let fun_ := fun x =>
    cs <- cost_function H n_qubits p x ;; Ok (fst cs) in
  let params_0 := map (fun _ => 0.25 * PI) (range (2 * p)) in
  let bounds := angle_bounds p in
  x <- basinhopping fun_ params_0 bounds ;;
  map_m (fun i => getitem x i) (range (2 * p)).

(** The target of the notebook, [|0101>]:
[[
zero_state=np.array([[1],[0]])
one_state=np.array([[0],[1]])
s=np.kron(zero_state,np.kron(one_state,np.kron(zero_state,one_state)))
]] *)
Definition zero_state : vec := [c1; c0].
Definition one_state : vec := [c0; c1].
Definition s_0101 : vec :=
  np_kron zero_state (np_kron one_state (np_kron zero_state one_state)).

(** The top-level loop of the notebook, for the depths [1 .. 5]; its state
    is the pair [(overlap_array, p_array)].
[[
overlap_array=[]
p_array=[]
for i in range(1,6):
    st=cost_function(H_operator(s),4,i,get_params(H_operator(s), 4, i))[1]
    p_array.append(i)
    overlap_array.append(overlap(s,st))
]] *)
Definition depth_loop : result (list R * list Z) :=
  for_each (range_from 1 6)
    (fun i '(overlap_array, p_array) =>
       let i := Z.of_nat i in
       params <- get_params (H_operator s_0101) 4 i ;;
       cs <- cost_function (H_operator s_0101) 4 i params ;;
       let st := snd cs in
       let p_array := p_array ++ [i] in
       o <- overlap s_0101 st ;;
       Ok (overlap_array ++ [o], p_array))
    ([], []).

End Optimizer.

(** ** [plus_state] on a machine of bounded size

    [[1]*(2**n_qubits)] builds a Python list.  The interpreter refuses a
    length above [sys.maxsize] with [OverflowError], and the machine refuses
    with [MemoryError] a list it cannot allocate.  [capacity] is the largest
    number of entries for which the allocations of [plus_state] succeed on
    the machine at hand. *)
Module Sized.

(** [sys.maxsize] of a 64-bit interpreter. *)
Definition maxsize : Z := 2 ^ 63 - 1.

(** [[
def plus_state(n_qubits):
    return np.array([1]*(2**n_qubits))/np.sqrt(2**n_qubits)
]] *)
Definition plus_state (capacity : Z) (n_qubits : Z) : result vec :=
  if (n_qubits <? 0)%Z then Raise TypeError
  else if (maxsize <? 2 ^ n_qubits)%Z then Raise OverflowError
  else if (capacity <? 2 ^ n_qubits)%Z then Raise MemoryError
  else Ok (map (fun x => RtoC (x / sqrt (IZR (2 ^ n_qubits))))
             (repeat 1 (Z.to_nat (2 ^ n_qubits)))).

End Sized.

(** ** The qit notebook (Lecture 3) *)

Module Qit.

(** What the notebook uses of the qit library: states, operators
    ([lmap]) and the operations on them.  The library is not part of the
    repository; the notebook's functions are embedded over any
    implementation of this interface. *)
Class Library : Type := {
  state : Type;
  lmap : Type;
  (** [qit.state(s)] for a string [s] of ['0'] and ['1'], given by its
      bits. *)
  ket : list bool -> state;
  (** [s + t] *)
  add : state -> state -> result state;
  (** [s / x] *)
  div : state -> R -> state;
  (** [qit.state.tensor(s, t)] *)
  tensor : state -> state -> state;
  (** [qit.state.projector(s)] *)
  projector : state -> lmap;
  (** [x * op] *)
  rmul : R -> lmap -> lmap;
  (** [op.data] *)
  data : lmap -> mat;
  (** [s.propagate(H, t)] *)
  propagate : state -> mat -> R -> result state;
  (** [s.ev(A)] *)
  ev : state -> mat -> result R;
  (** [qit.state.fidelity(s, t)] *)
  fidelity : state -> state -> result R
}.

Section Notebook.

Context {L : Library}.

(** [[
def initial_state(n_qubits):
    plus_state=(qit.state('0')+qit.state('1'))/np.sqrt(2)
    state=(qit.state('0')+qit.state('1'))/np.sqrt(2)
    for i in range(1,n_qubits):
        state=qit.state.tensor(state,plus_state)
    return state
]] *)
Definition initial_state (n_qubits : Z) : result state :=
  s01 <- add (ket [false]) (ket [true]) ;;
  let plus_state := div s01 (sqrt 2) in
  s01 <- add (ket [false]) (ket [true]) ;;
  let state := div s01 (sqrt 2) in
  for_each (range_from 1 n_qubits)
    (fun _ state => Ok (tensor state plus_state)) state.

(** [[
def C_operator(target_state, n_qubits):
       return -1*qit.state.projector(target_state)
]] *)
Definition C_operator (target_state : state) (n_qubits : Z) : lmap :=
  rmul (-1) (projector target_state).

(** [[
def B_operator(n_qubits):
    return -1*qit.state.projector(initial_state(n_qubits))
]] *)
Definition B_operator (n_qubits : Z) : result lmap :=
  s <- initial_state n_qubits ;;
  Ok (rmul (-1) (projector s)).

(** [[
def qaoa_step(state, target_state, n_qubits, params):
    state=state.propagate(C_operator(target_state,n_qubits).data,params[0])
    return state.propagate(B_operator(n_qubits).data,params[1])
]] *)
Definition qaoa_step (st target_state : state) (n_qubits : Z)
  (params : list R) : result state :=
  let C := C_operator target_state n_qubits in
  a <- getitem params 0 ;;
  st <- propagate st (data C) a ;;
  B <- B_operator n_qubits ;;
  b <- getitem params 1 ;;
  propagate st (data B) b.

(** [[
def F_function(target_state, n_qubits, p, params):
    ini_state=initial_state(n_qubits)
    for i in range(p):
        ini_state=qaoa_step(ini_state,target_state,n_qubits,params=[params[2*i],params[2*i+1]])
    return ini_state.ev(C_operator(target_state,n_qubits).data), ini_state
]] *)
Definition F_function (target_state : state) (n_qubits p : Z)
  (params : list R) : result (R * state) :=
  ini_state <- initial_state n_qubits ;;
  ini_state <- for_each (range p)
      (fun i ini_state =>
         a <- getitem params (2 * i) ;;
         b <- getitem params (2 * i + 1) ;;
         qaoa_step ini_state target_state n_qubits [a; b])
      ini_state ;;
  e <- ev ini_state (data (C_operator target_state n_qubits)) ;;
  Ok (e, ini_state).

Variable basinhopping :
  (list R -> result R) -> list R -> list (R * R) -> result (list R).

(** [[
def get_params(target_state, n_qubits, p, params_0):
    def fun(x):
        return F_function(target_state, n_qubits, p, params=x)[0]
    params_min=[0 for i in range(2*p)]
    params_max=[2*np.pi if i%2==0 else np.pi for i in range(2*p)]
    bounds = [(low, high) for low, high in zip(params_min, params_max)]
    minimizer_kwargs = dict(method="L-BFGS-B", bounds=bounds)
    result = scipy.optimize.basinhopping(fun, params_0, minimizer_kwargs=minimizer_kwargs)
    return [result.x[i] for i in range(2*p)]
]] *)
Definition get_params (target_state : state) (n_qubits p : Z)
  (params_0 : list R) : result (list R) :=
  let fun_ := fun x =>
    fs <- F_function target_state n_qubits p x ;; Ok (fst fs) in
  let bounds := angle_bounds p in
  x <- basinhopping fun_ params_0 bounds ;;
  map_m (fun i => getitem x i) (range (2 * p)).

(** One round of the loop of [calc_n_p]; the loop state is
    [(params, qaoa_approximation, p_array)]. *)
Definition calc_round (target_state : state) (n : Z) (i : nat)
  (st : list R * list R * list Z) : result (list R * list R * list Z) :=
  let '(params, qaoa_approximation, p_array) := st in
  let i := Z.of_nat i in
  params <- get_params target_state n i params ;;
  fs <- F_function target_state n i params ;;
  let state_2 := snd fs in
  f <- fidelity target_state state_2 ;;
  let qaoa_approximation := qaoa_approximation ++ [f ^ 2] in
  let p_array := p_array ++ [i] in
  let params := params ++ [0; 0] in
  Ok (params, qaoa_approximation, p_array).

(** [[
def calc_n_p(target_state,n_qbits,p_steps):
    n = n_qbits
    qaoa_approximation = []
    p_array = []
    params=[0.5*np.pi,0.5*np.pi]
    for i in range(1,p_steps+1):
        params=get_params(target_state=target_state,p=i,n_qubits=n,params_0=params)
        f_value, state_2=F_function(target_state=target_state,params=params,p=i,n_qubits=n)
        qaoa_approximation.append(qit.state.fidelity(target_state,state_2)**2)
        p_array.append(i)
        print('Iteration ', i)
        print('Cost function value ', f_value)
        params.extend([0,0])
    return qaoa_approximation, p_array
]] *)
Definition calc_n_p (target_state : state) (n_qbits p_steps : Z)
  : result (list R * list Z) :=
  let n := n_qbits in
  let params := [0.5 * PI; 0.5 * PI] in
  st <- for_each (range_from 1 (p_steps + 1))
          (calc_round target_state n) (params, [], []) ;;
  let '(_, qaoa_approximation, p_array) := st in
  Ok (qaoa_approximation, p_array).

(** *** The depth sweep as the specification words it

    Keep a running angle vector.  For [p = first, first + 1, ...]
    ([count] depths): call the optimizer with the running vector as warm
    start; evaluate the final state at the optimized angles; record
    [(p, fidelity)]; extend the optimized angles by two zero angles to
    seed depth [p + 1]. *)
Fixpoint sweep_spec (target_state : state) (n : Z) (first count : nat)
  (running : list R) : result (list (Z * R)) :=
  match count with
  | O => Ok []
  | S count' =>
      let p := Z.of_nat first in
      angles <- get_params target_state n p running ;;
      fs <- F_function target_state n p angles ;;
      f <- fidelity target_state (snd fs) ;;
      rest <- sweep_spec target_state n (S first) count'
                (angles ++ [0; 0]) ;;
      Ok ((p, f ^ 2) :: rest)
  end.

(** The running angle vector after [k] rounds that start at depth [first]
    with the vector [w0]: the vector that enters depth [first + k]. *)
Fixpoint running_from (target_state : state) (n : Z) (first : nat)
  (w0 : list R) (k : nat) : result (list R) :=
  match k with
  | O => Ok w0
  | S k' =>
      w <- running_from target_state n first w0 k' ;;
      angles <- get_params target_state n (Z.of_nat (first + k')) w ;;
      Ok (angles ++ [0; 0])
  end.

(** The running angle vector that enters depth [k + 1] of [calc_n_p]. *)
Definition running_angles (target_state : state) (n : Z) (k : nat)
  : result (list R) :=
  running_from target_state n 1 [0.5 * PI; 0.5 * PI] k.

End Notebook.

End Qit.

(** *** qit on kets

    An implementation of the interface on pure states, following qit's
    documentation: a state is the vector of its amplitudes, an operator is
    its matrix, [propagate(H, t)] applies [expm(-1j * t * H)],
    [ev(A)] is the real part of [<s|A|s>], [fidelity(s, t)] is [|<s|t>|],
    [projector(s)] is [|s><s|] and [tensor] is the Kronecker product.
    The implementation is meant for states and Hamiltonians of one
    dimension, as the notebook has them; the exception that qit raises on
    other dimensions is not the one raised here, and the statements about
    kets keep to matching dimensions. *)

Definition one_hot (N k : nat) : vec :=
  map (fun i => if (i =? k)%nat then c1 else c0) (seq 0 N).

(** The index of the basis state of a bit string, first bit most
    significant. *)
Definition bits_index (bits : list bool) : nat :=
  fold_left (fun acc (b : bool) => (2 * acc + if b then 1 else 0)%nat) bits O.

Definition basis_ket (bits : list bool) : vec :=
  one_hot (2 ^ length bits) (bits_index bits).

Definition ket_add (a b : vec) : result vec :=
  if (length a =? length b)%nat
  then Ok (map (fun xy => (fst xy + snd xy)%cpx) (combine a b))
  else Raise ValueError.

Definition ket_propagate (s : vec) (H : mat) (t : R) : result vec :=
  U <- la_expm (scal_mat (- cj * RtoC t)%cpx H) ;;
  np_dot_mv U s.

Definition ket_ev (s : vec) (A : mat) : result R :=
  As <- np_dot_mv A s ;;
  e <- np_dot_vv (vconj s) As ;;
  Ok (re e).

Definition ket_fidelity (s t : vec) : result R :=
  e <- np_dot_vv (vconj s) t ;;
  Ok (sqrt (cabs2 e)).

Definition kets : Qit.Library :=
  {| Qit.state := vec;
     Qit.lmap := mat;
     Qit.ket := basis_ket;
     Qit.add := ket_add;
     Qit.div := fun s x => map (cscale (/ x)) s;
     Qit.tensor := np_kron;
     Qit.projector := fun s => np_outer s (vconj s);
     Qit.rmul := fun x M => scal_mat (RtoC x) M;
     Qit.data := fun M => M;
     Qit.propagate := ket_propagate;
     Qit.ev := ket_ev;
     Qit.fidelity := ket_fidelity |}.

(** ** The numpy/scipy notebook over a store of objects

    Python names hold references.  Here the arrays and lists live in a
    store, a location is a position in it, and a call is given the
    references of its arguments.  Every numpy operation the notebook uses
    ([np.outer], unary minus, scalar times array, [la.expm], [dot],
    [conjugate], array over scalar) returns a new array; [.T] of a
    one-dimensional array is a view of the same data.  [write] is the
    in-place update; [py_extend] is [list.extend], which uses it. *)

Module Store.

Inductive object : Type :=
| Arr1 (v : vec)
| Arr2 (M : mat)
| PyList (l : list R).

Definition loc : Type := nat.
Definition heap : Type := list object.

(** A computation: from a store to a value or an exception, and a store. *)
Definition prog (A : Type) : Type := heap -> result A * heap.

Definition ret {A : Type} (a : A) : prog A := fun h => (Ok a, h).

Definition raise {A : Type} (e : exn) : prog A := fun h => (Raise e, h).

Definition bind {A B : Type} (m : prog A) (k : A -> prog B) : prog B :=
  fun h =>
    match m h with
    | (Ok a, h') => k a h'
    | (Raise e, h') => (Raise e, h')
    end.

Notation "x <~ m ;; k" := (bind m (fun x => k))
  (at level 61, m at next level, right associativity).

(** A computation without effect on the store. *)
Definition lift {A : Type} (r : result A) : prog A := fun h => (r, h).

Definition alloc (o : object) : prog loc :=
  fun h => (Ok (length h), h ++ [o]).

Definition read (l : loc) : prog object :=
  fun h =>
    match nth_error h l with
    | Some o => (Ok o, h)
    | None => (Raise TypeError, h)
    end.

(** The object at [l] is replaced, in place. *)
Fixpoint update (h : heap) (l : loc) (o : object) : heap :=
  match h, l with
  | [], _ => []
  | _ :: rest, O => o :: rest
  | x :: rest, S l' => x :: update rest l' o
  end.

Definition write (l : loc) (o : object) : prog unit :=
  fun h => (Ok tt, update h l o).

Definition read_vec (l : loc) : prog vec :=
  o <~ read l ;;
  match o with
  | Arr1 v => ret v
  | _ => raise TypeError
  end.

Definition read_mat (l : loc) : prog mat :=
  o <~ read l ;;
  match o with
  | Arr2 M => ret M
  | _ => raise TypeError
  end.

Definition read_list (l : loc) : prog (list R) :=
  o <~ read l ;;
  match o with
  | PyList xs => ret xs
  | _ => raise TypeError
  end.

Fixpoint for_each {S : Type} (l : list nat) (body : nat -> S -> prog S)
  (s : S) : prog S :=
  match l with
  | [] => ret s
  | i :: rest => s' <~ body i s ;; for_each rest body s'
  end.

(** [l.extend(xs)]: the list object at [l] grows in place. *)
Definition py_extend (l : loc) (xs : list R) : prog unit :=
  old <~ read_list l ;;
  write l (PyList (old ++ xs)).

(** [l[i]] *)
Definition py_getitem (l : loc) (i : nat) : prog R :=
  xs <~ read_list l ;;
  lift (getitem xs i).

(** [np.outer(a, b)] *)
Definition outer (a b : loc) : prog loc :=
  u <~ read_vec a ;;
  v <~ read_vec b ;;
  alloc (Arr2 (np_outer u v)).

(** [-M] *)
Definition neg (m : loc) : prog loc :=
  M <~ read_mat m ;;
  alloc (Arr2 (mat_neg M)).

(** [z * M] *)
Definition scal (z : complex) (m : loc) : prog loc :=
  M <~ read_mat m ;;
  alloc (Arr2 (scal_mat z M)).

(** [la.expm(M)] *)
Definition expm (m : loc) : prog loc :=
  M <~ read_mat m ;;
  E <~ lift (la_expm M) ;;
  alloc (Arr2 E).

(** [M.dot(v)] *)
Definition dot_mv (m v : loc) : prog loc :=
  M <~ read_mat m ;;
  s <~ read_vec v ;;
  r <~ lift (np_dot_mv M s) ;;
  alloc (Arr1 r).

(** [a.dot(b)] for one-dimensional arrays: a scalar. *)
Definition dot_vv (a b : loc) : prog complex :=
  u <~ read_vec a ;;
  v <~ read_vec b ;;
  lift (np_dot_vv u v).

(** [v.conjugate()] *)
Definition conjugate (v : loc) : prog loc :=
  s <~ read_vec v ;;
  alloc (Arr1 (vconj s)).

(** [v.T] for a one-dimensional array: the same data. *)
Definition transpose (v : loc) : prog loc :=
  _ <~ read_vec v ;;
  ret v.

(** [[
def plus_state(n_qubits):
    return np.array([1]*(2**n_qubits))/np.sqrt(2**n_qubits)
]] *)
Definition plus_state (n_qubits : Z) : prog loc :=
  if (n_qubits <? 0)%Z then raise TypeError
  else
    ones <~ alloc (PyList (repeat 1 (Z.to_nat (2 ^ n_qubits)))) ;;
    xs <~ read_list ones ;;
    arr <~ alloc (Arr1 (map RtoC xs)) ;;
    a <~ read_vec arr ;;
    alloc (Arr1 (map (cscale (/ sqrt (IZR (2 ^ n_qubits)))) a)).

(** [[
def B_operator(n_qubits):
    return -np.outer(plus_state(n_qubits),plus_state(n_qubits))
]] *)
Definition B_operator (n_qubits : Z) : prog loc :=
  u <~ plus_state n_qubits ;;
  v <~ plus_state n_qubits ;;
  o <~ outer u v ;;
  neg o.

(** [[
def qaoa_step(state, H, n_qubits, params):
    B=B_operator(n_qubits)
    state=(la.expm(-1j*params[0]*H)).dot(state)
    return (la.expm(-1j*params[1]*B)).dot(state)
]]
    The assignment to [state] binds the local name to the new array. *)
Definition qaoa_step (state H : loc) (n_qubits : Z) (params : loc)
  : prog loc :=
  B <~ B_operator n_qubits ;;
  a <~ py_getitem params 0 ;;
  A <~ scal (- cj * RtoC a)%cpx H ;;
  U <~ expm A ;;
  state <~ dot_mv U state ;;
  b <~ py_getitem params 1 ;;
  A <~ scal (- cj * RtoC b)%cpx B ;;
  V <~ expm A ;;
  dot_mv V state.

(** [[
def cost_function(H, n_qubits, p, params):
    ini_state=plus_state(n_qubits)
    for i in range(p):
        ini_state=qaoa_step(ini_state,H,n_qubits,params=[params[2*i],params[2*i+1]])
    return ((ini_state.conjugate().T).dot(H.dot(ini_state))).real, ini_state
]] *)
Definition cost_function (H : loc) (n_qubits p : Z) (params : loc)
  : prog (R * loc) :=
  ini_state <~ plus_state n_qubits ;;
  ini_state <~ for_each (range p)
      (fun i ini_state =>
         a <~ py_getitem params (2 * i) ;;
         b <~ py_getitem params (2 * i + 1) ;;
         ab <~ alloc (PyList [a; b]) ;;
         qaoa_step ini_state H n_qubits ab)
      ini_state ;;
  c <~ conjugate ini_state ;;
  ct <~ transpose c ;;
  Hs <~ dot_mv H ini_state ;;
  e <~ dot_vv ct Hs ;;
  ret (re e, ini_state).

(** [[
def H_operator(target_state):
       return -np.outer(target_state, target_state)
]] *)
Definition H_operator (target_state : loc) : prog loc :=
  o <~ outer target_state target_state ;;
  neg o.

(** [[
def overlap(target_state,state):
    projector=np.outer(target_state, target_state)
    return np.real((state.conj().T).dot(projector.dot(state)))
]] *)
Definition overlap (target_state state : loc) : prog R :=
  projector <~ outer target_state target_state ;;
  c <~ conjugate state ;;
  ct <~ transpose c ;;
  Ps <~ dot_mv projector state ;;
  e <~ dot_vv ct Ps ;;
  ret (re e).

(** Every object of [h] is in [h'], at its place and unchanged. *)
Definition preserved (h h' : heap) : Prop :=
  forall l o, nth_error h l = Some o -> nth_error h' l = Some o.

(** [m] changes no object that exists when it starts. *)
Definition pure_of_store {A : Type} (m : prog A) : Prop :=
  forall h, preserved h (snd (m h)).

(** When [m] returns a reference, it is one of a one-dimensional array
    that did not exist when [m] started. *)
Definition returns_new_array (m : prog loc) : Prop :=
  forall h r,
    fst (m h) = Ok r ->
    nth_error h r = None
    /\ exists v, nth_error (snd (m h)) r = Some (Arr1 v).

(** The reference [l] is one of the array (list) with the given value. *)
Definition is_vec (h : heap) (l : loc) (v : vec) : Prop :=
  nth_error h l = Some (Arr1 v).

Definition is_mat (h : heap) (l : loc) (M : mat) : Prop :=
  nth_error h l = Some (Arr2 M).

Definition is_list (h : heap) (l : loc) (xs : list R) : Prop :=
  nth_error h l = Some (PyList xs).

Definition same_value {A : Type} (h : heap) (a b : A) : Prop := a = b.

(** A cost and a reference stand for a cost and a state. *)
Definition is_cost_state (h : heap) (cl : R * loc) (cv : R * vec) : Prop :=
  fst cl = fst cv /\ is_vec h (snd cl) (snd cv).

(** Run on [h], [m] does what the computation on values [r] does: it raises
    when [r] raises, the same exception; when it returns [a], [r] returns a
    value that [a] stands for in the final store; and no object of [h] is
    changed. *)
Definition simulates {A B : Type} (R : heap -> A -> B -> Prop)
  (m : prog A) (r : result B) (h : heap) : Prop :=
  match m h with
  | (Ok a, h') => preserved h h' /\ exists b, r = Ok b /\ R h' a b
  | (Raise e, h') => preserved h h' /\ r = Raise e
  end.

End Store.

Notation "x <~ m ;; k" := (Store.bind m (fun x => k))
  (at level 61, m at next level, right associativity).

(** [|re z| + |im z|], a norm on the complex numbers. *)
Definition cnorm1 (z : complex) : R := Rabs (re z) + Rabs (im z).

Fixpoint rsum_n (n : nat) (f : nat -> R) : R :=
  match n with
  | O => 0
  | S m => rsum_n m f + f m
  end.

(** The sum of the norms of the entries of an [N] x [N] matrix. *)
Definition total_norm (N : nat) (A : nat -> nat -> complex) : R :=
  rsum_n N (fun i => rsum_n N (fun l => cnorm1 (A i l))).

(** ** Auxiliary notions used in the statements *)

(** Partial sums of the exponential series of a complex number. *)
Definition exp_sum (z : complex) (n : nat) : complex :=
  csum (S n) (fun k => cscale (/ INR (fact k)) (cpow z k)).

(** The real array with the entries of [r]. *)
Definition real_vec (r : list R) : vec := map RtoC r.

(** [r] has unit Euclidean norm. *)
Definition unit_real (r : list R) : Prop := rsum (map (fun x => x * x) r) = 1.

(** [s + k * u], entry by entry. *)
Definition axpy (k : complex) (u s : vec) : vec :=
  map (fun su => (fst su + k * snd su)%cpx) (combine s u).

(** [I + (cis x - 1) * r r^T], the closed form of [expm (1j * x * r r^T)]
    for a real unit vector [r]. *)
Definition rank1_rot (r : list R) (x : R) : mat :=
  tabulate (length r)
    (fun i l => ((if (i =? l)%nat then c1 else c0)
                 + (cis x - c1) * (RtoC (nth i r 0) * RtoC (nth l r 0)))%cpx).

(** The entries of the uniform superposition on [n] qubits. *)
Definition plus_amplitudes (n : Z) : list R :=
  repeat (1 / sqrt (IZR (2 ^ n))) (Z.to_nat (2 ^ n)).

(** [expm(1j * x * r r^T)] applied to [s], in closed form. *)
Definition rotate (r : list R) (x : R) (s : vec) : vec :=
  axpy ((cis x - c1) * dotsum (real_vec r) s)%cpx (real_vec r) s.

(** The inner product of two states, [<u|v>]: the left one is conjugated. *)
Definition inner (u v : vec) : complex := dotsum (vconj u) v.

(** Inverse of a non-zero complex number. *)
Definition cinv (z : complex) : complex := cscale (/ cabs2 z) (cconj z).

(** *** The generator as the specification words it

    [- v v^H]: the outer product of [v] with its own conjugate, negated. *)
Definition neg_outer_conj (v : vec) : mat :=
  map (fun x => map (fun y => (- (x * cconj y))%cpx) v) v.

Definition is_hermitian (M : mat) : Prop :=
  forall i k, entry M i k = cconj (entry M k i).

(** [w] is an eigenvector of [M] for the eigenvalue [lam]. *)
Definition eigenpair (M : mat) (lam : complex) (w : vec) : Prop :=
  norm2 w <> 0 /\ np_dot_mv M w = Ok (map (cmul lam) w).

(** [G] is the generator of the unit vector [v]: square of the size of [v],
    equal to [- v v^H], Hermitian, with [v] an eigenvector for [-1], the
    eigenvalue [-1] carried by the multiples of [v] only, and nothing but
    [0] beside it: whatever is orthogonal to [v] is sent to zero. *)
Definition projector_generator (G : mat) (v : vec) : Prop :=
  length G = length v
  /\ is_square G = true
  /\ G = neg_outer_conj v
  /\ is_hermitian G
  /\ eigenpair G (- c1)%cpx v
  /\ (forall lam w, eigenpair G lam w ->
        lam = c0 \/ (lam = (- c1)%cpx /\ exists k, w = map (cmul k) v))
  /\ (forall w, length w = length v -> inner v w = c0 ->
        np_dot_mv G w = Ok (map (fun _ => c0) w)).

(** *** The propagator as the specification words it

    [s' = exp(-i a G1) s; s'' = exp(-i b G2) s'], with both generators
    supplied by the caller. *)
Definition propagate_spec (s : vec) (G1 G2 : mat) (a b : R) : result vec :=
  U <- la_expm (scal_mat (- cj * RtoC a)%cpx G1) ;;
  s' <- np_dot_mv U s ;;
  V <- la_expm (scal_mat (- cj * RtoC b)%cpx G2) ;;
  np_dot_mv V s'.

(** The amplitudes of the basis state number [k] among [N]. *)
Definition basis_amplitudes (N k : nat) : list R :=
  map (fun i => if (i =? k)%nat then 1 else 0) (seq 0 N).

(** The [N] x [N] identity matrix. *)
Definition identity (N : nat) : mat :=
  tabulate N (fun i l => if (i =? l)%nat then c1 else c0).

(** [x] lies in the box [b], coordinate by coordinate. *)
Definition in_box (x : list R) (b : list (R * R)) : Prop :=
  Forall2 (fun v lh => fst lh <= v <= snd lh) x b.

(** An optimizer whose answers lie in the box it is given, as those of
    L-BFGS-B do, when no lower bound exceeds its upper bound. *)
Definition stays_in_box
  (basinhopping :
     (list R -> result R) -> list R -> list (R * R) -> result (list R))
  : Prop :=
  forall f x0 b x,
    Forall (fun lh => fst lh <= snd lh) b ->
    basinhopping f x0 b = Ok x -> in_box x b.

(** A run of the optimizer that returns the lower corner of its box. *)
Definition corner_optimizer (f : list R -> result R) (x0 : list R)
  (bounds : list (R * R)) : result (list R) :=
  Ok (map fst bounds).

(** A run of the optimizer that returns its starting point. *)
Definition idle_optimizer (f : list R -> result R) (x0 : list R)
  (bounds : list (R * R)) : result (list R) :=
  Ok x0.

(** [a + b] for two arrays of one length. *)
Definition vadd (a b : vec) : vec :=
  map (fun xy => (fst xy + snd xy)%cpx) (combine a b).

(** A run of the optimizer that, started from two angles, answers
    [(pi, pi)] when that costs no more than its starting point, and that
    otherwise, and at every other depth, does not get away from its
    starting point. *)
Definition stuck_after_first (f : list R -> result R) (x0 : list R)
  (bounds : list (R * R)) : result (list R) :=
  if (length x0 =? 2)%nat then
    match f [PI; PI], f x0 with
    | Ok c, Ok c0 => if Rle_dec c c0 then Ok [PI; PI] else Ok x0
    | _, _ => Ok x0
    end
  else Ok x0.

(** An optimizer whose answer never costs more than the point it is started
    from, as that of [basinhopping] does: it returns the lowest minimum it
    found, the one of the first minimisation from the starting point
    included. *)
Definition never_worse_than_start
  (basinhopping :
     (list R -> result R) -> list R -> list (R * R) -> result (list R))
  : Prop :=
  forall f x0 b x c0,
    basinhopping f x0 b = Ok x -> f x0 = Ok c0 ->
    exists c, f x = Ok c /\ c <= c0.

(** *** The depth sweep of the specification, read on the numpy/scipy
    notebook

    The warm start (section 4.6): at the depth after one at which
    [get_params] returned the angles [prev], the optimizer is started from
    [prev] extended by two zero angles. *)
Definition depth_loop_warm_started
  (basinhopping :
     (list R -> result R) -> list R -> list (R * R) -> result (list R))
  : Prop :=
  forall (i : nat) (prev : list R),
    (1 <= i < 5)%nat ->
    get_params basinhopping (H_operator s_0101) 4 (Z.of_nat i) = Ok prev ->
    get_params basinhopping (H_operator s_0101) 4 (Z.of_nat (S i))
    = (x <- basinhopping
              (fun x =>
                 cs <- cost_function (H_operator s_0101) 4
                         (Z.of_nat (S i)) x ;;
                 Ok (fst cs))
              (prev ++ [0; 0]) (angle_bounds (Z.of_nat (S i))) ;;
       map_m (fun k => getitem x k) (range (2 * Z.of_nat (S i)))).

(** The fall-back (section 7): a result worse than that of the depth before
    is never recorded, so that the recorded overlaps (minus the costs) do
    not decrease from one depth to the next. *)
Definition records_no_worse (os : list R) : Prop :=
  forall j, (S j < length os)%nat -> nth j os 0 <= nth (S j) os 0.

Definition depth_loop_falls_back
  (basinhopping :
     (list R -> result R) -> list R -> list (R * R) -> result (list R))
  : Prop :=
  forall os ps,
    depth_loop basinhopping = Ok (os, ps) -> records_no_worse os.

(* ================================================================== *)
(** * Properties *)

(** ** Complex arithmetic *)

Lemma complex_eq (z w : complex) :
  re z = re w -> im z = im w -> z = w.
Proof.
  destruct z, w; simpl; intros -> ->; reflexivity.
Qed.

Ltac cpx_crush :=
  intros;
  repeat match goal with z : complex |- _ => destruct z end;
  apply complex_eq; simpl; try ring.

Lemma complex_ring_theory :
  ring_theory c0 c1 cadd cmul csub cneg (@eq complex).
Proof.
  constructor; unfold c0, c1, RtoC; cpx_crush.
Qed.

Add Ring complex_ring : complex_ring_theory.

Lemma RtoC_add (x y : R) : RtoC (x + y) = (RtoC x + RtoC y)%cpx.
Proof. apply complex_eq; simpl; ring. Qed.

Lemma RtoC_mul (x y : R) : RtoC (x * y) = (RtoC x * RtoC y)%cpx.
Proof. apply complex_eq; simpl; ring. Qed.

Lemma cscale_RtoC (r : R) (z : complex) : cscale r z = (RtoC r * z)%cpx.
Proof. apply complex_eq; simpl; ring. Qed.

Lemma cabs2_nonneg (z : complex) : 0 <= cabs2 z.
Proof. unfold cabs2; nra. Qed.

Lemma cabs2_mul (z w : complex) : cabs2 (z * w) = cabs2 z * cabs2 w.
Proof. unfold cabs2; simpl; ring. Qed.

Lemma cabs2_zero (z : complex) : cabs2 z = 0 -> z = c0.
Proof.
  unfold cabs2; intros E.
  apply complex_eq; simpl; nra.
Qed.

Lemma cis_unit (x : R) : cabs2 (cis x) = 1.
Proof.
  unfold cabs2, cis; simpl.
  pose proof (sin2_cos2 x) as E; unfold Rsqr in E; lra.
Qed.

(** ** Limits and the exponential series on the imaginary axis *)

Lemma Rlim_eq (u : nat -> R) (l : R) : Un_cv u l -> Rlim u = l.
Proof.
  intros H; unfold Rlim.
  apply UL_sequence with u; [ | exact H ].
  apply epsilon_spec; exists l; exact H.
Qed.

Lemma cpow_imag_even (x : R) (m : nat) :
  cpow (Cpx 0 x) (2 * m) = RtoC ((-1) ^ m * (x * x) ^ m).
Proof.
  induction m as [ | m IH ].
  - apply complex_eq; simpl; ring.
  - replace (2 * S m)%nat with (S (S (2 * m))) by lia.
    cbn [cpow]; rewrite IH.
    apply complex_eq; simpl; ring.
Qed.

Lemma cpow_imag_odd (x : R) (m : nat) :
  cpow (Cpx 0 x) (S (2 * m)) = Cpx 0 (x * ((-1) ^ m * (x * x) ^ m)).
Proof.
  cbn [cpow]; rewrite cpow_imag_even.
  apply complex_eq; simpl; ring.
Qed.

Lemma exp_sum_succ (z : complex) (n : nat) :
  exp_sum z (S n)
  = (exp_sum z n + cscale (/ INR (fact (S n))) (cpow z (S n)))%cpx.
Proof. reflexivity. Qed.

Lemma exp_sum_imag_parts (x : R) (m : nat) :
  re (exp_sum (Cpx 0 x) (2 * m))
    = sum_f_R0 (fun i => cos_n i * (x * x) ^ i) m
  /\ re (exp_sum (Cpx 0 x) (S (2 * m)))
    = sum_f_R0 (fun i => cos_n i * (x * x) ^ i) m
  /\ im (exp_sum (Cpx 0 x) (S (2 * m)))
    = x * sum_f_R0 (fun i => sin_n i * (x * x) ^ i) m
  /\ im (exp_sum (Cpx 0 x) (S (S (2 * m))))
    = x * sum_f_R0 (fun i => sin_n i * (x * x) ^ i) m.
Proof.
  induction m as [ | m (IH1 & IH2 & IH3 & IH4) ].
  - unfold exp_sum, cos_n, sin_n; simpl.
    repeat split; field.
  - replace (2 * S m)%nat with (S (S (2 * m))) by lia.
    assert (E1 : re (exp_sum (Cpx 0 x) (S (S (2 * m))))
                 = sum_f_R0 (fun i => cos_n i * (x * x) ^ i) (S m)).
    { rewrite exp_sum_succ.
      replace (S (S (2 * m))) with (2 * S m)%nat at 1 2 by lia.
      rewrite cpow_imag_even.
      cbn [re cadd cscale RtoC sum_f_R0]; rewrite IH2.
      unfold cos_n. unfold Rdiv. ring. }
    assert (E2 : im (exp_sum (Cpx 0 x) (S (S (S (2 * m)))))
                 = x * sum_f_R0 (fun i => sin_n i * (x * x) ^ i) (S m)).
    { rewrite exp_sum_succ.
      replace (S (S (S (2 * m)))) with (S (2 * S m)) at 1 2 by lia.
      rewrite cpow_imag_odd.
      cbn [im cadd cscale sum_f_R0]; rewrite IH4.
      unfold sin_n.
      replace (2 * S m + 1)%nat with (S (2 * S m)) by lia.
      unfold Rdiv. ring. }
    repeat split.
    + exact E1.
    + rewrite exp_sum_succ.
      replace (S (S (S (2 * m)))) with (S (2 * S m)) by lia.
      rewrite cpow_imag_odd.
      cbn [re cadd cscale]; rewrite E1; ring.
    + exact E2.
    + rewrite exp_sum_succ.
      replace (S (S (S (S (2 * m))))) with (2 * S (S m))%nat at 1 2 by lia.
      rewrite cpow_imag_even.
      cbn [im cadd cscale RtoC]; rewrite E2; ring.
Qed.

Lemma exp_sum_imag_re_cv (x : R) :
  Un_cv (fun n => re (exp_sum (Cpx 0 x) n)) (cos x).
Proof.
  unfold cos; destruct (exist_cos (Rsqr x)) as [l Hl].
  unfold cos_in, infinite_sum, Rsqr in Hl.
  intros eps Heps; destruct (Hl eps Heps) as [N HN].
  exists (2 * N)%nat; intros n Hn.
  destruct (Nat.Even_or_Odd n) as [[m ->] | [m ->]].
  - destruct (exp_sum_imag_parts x m) as (-> & _).
    apply HN; lia.
  - replace (2 * m + 1)%nat with (S (2 * m)) by lia.
    destruct (exp_sum_imag_parts x m) as (_ & -> & _).
    apply HN; lia.
Qed.

Lemma exp_sum_imag_im_cv (x : R) :
  Un_cv (fun n => im (exp_sum (Cpx 0 x) n)) (sin x).
Proof.
  unfold sin; destruct (exist_sin (Rsqr x)) as [l Hl].
  unfold sin_in, infinite_sum, Rsqr in Hl.
  intros eps Heps.
  assert (Hscale : exists N, forall m, (m >= N)%nat ->
            Rdist (x * sum_f_R0 (fun i => sin_n i * (x * x) ^ i) m) (x * l)
            < eps).
  { destruct (Req_dec x 0) as [-> | Hx].
    - exists 0%nat; intros m _.
      unfold Rdist; rewrite !Rmult_0_l, Rminus_diag, Rabs_R0; lra.
    - assert (Hpos : 0 < Rabs x) by (apply Rabs_pos_lt; exact Hx).
      destruct (Hl (eps / Rabs x)) as [N HN].
      { apply Rdiv_lt_0_compat; lra. }
      exists N; intros m Hm.
      specialize (HN m Hm); unfold Rdist in *.
      rewrite <- Rmult_minus_distr_l, Rabs_mult.
      apply Rmult_lt_compat_l with (r := Rabs x) in HN; [ | exact Hpos ].
      replace (Rabs x * (eps / Rabs x)) with eps in HN by (field; lra).
      exact HN. }
  destruct Hscale as [N HN].
  exists (2 * N + 2)%nat; intros n Hn.
  destruct (Nat.Even_or_Odd n) as [[m ->] | [m ->]].
  - destruct m as [ | m ]; [ lia | ].
    replace (2 * S m)%nat with (S (S (2 * m))) by lia.
    destruct (exp_sum_imag_parts x m) as (_ & _ & _ & ->).
    apply HN; lia.
  - replace (2 * m + 1)%nat with (S (2 * m)) by lia.
    destruct (exp_sum_imag_parts x m) as (_ & _ & -> & _).
    apply HN; lia.
Qed.

(** ** Finite sums *)

Lemma csum_ext (n : nat) (f g : nat -> complex) :
  (forall i, (i < n)%nat -> f i = g i) -> csum n f = csum n g.
Proof.
  induction n as [ | n IH ]; intros E; simpl.
  - reflexivity.
  - rewrite IH, E by (intros; try apply E; lia); reflexivity.
Qed.

Lemma csum_zero (n : nat) : csum n (fun _ => c0) = c0.
Proof.
  induction n as [ | n IH ]; simpl; [ | rewrite IH; ring ]; reflexivity.
Qed.

Lemma csum_add (n : nat) (f g : nat -> complex) :
  csum n (fun i => (f i + g i)%cpx) = (csum n f + csum n g)%cpx.
Proof.
  induction n as [ | n IH ]; simpl; [ | rewrite IH ]; ring.
Qed.

Lemma csum_mul_l (n : nat) (z : complex) (f : nat -> complex) :
  csum n (fun i => (z * f i)%cpx) = (z * csum n f)%cpx.
Proof.
  induction n as [ | n IH ]; simpl; [ | rewrite IH ]; ring.
Qed.

Lemma csum_mul_r (n : nat) (z : complex) (f : nat -> complex) :
  csum n (fun i => (f i * z)%cpx) = (csum n f * z)%cpx.
Proof.
  induction n as [ | n IH ]; simpl; [ | rewrite IH ]; ring.
Qed.

Lemma csum_shift (n : nat) (f : nat -> complex) :
  csum (S n) f = (f O + csum n (fun i => f (S i)))%cpx.
Proof.
  induction n as [ | n IH ].
  - simpl; ring.
  - change (csum (S (S n)) f) with (csum (S n) f + f (S n))%cpx.
    rewrite IH; simpl; ring.
Qed.

(** A sum against the Kronecker delta picks one term. *)
Lemma csum_delta (n i : nat) (f : nat -> complex) :
  csum n (fun m => ((if (i =? m)%nat then c1 else c0) * f m)%cpx)
  = if (i <? n)%nat then f i else c0.
Proof.
  induction n as [ | n IH ]; simpl.
  - reflexivity.
  - rewrite IH.
    destruct (Nat.eqb_spec i n) as [-> | Hne].
    + rewrite Nat.ltb_irrefl.
      replace (n <? S n)%nat with true by (symmetry; apply Nat.ltb_lt; lia).
      ring.
    + destruct (Nat.ltb_spec i n) as [Hlt | Hge].
      * replace (i <? S n)%nat with true by (symmetry; apply Nat.ltb_lt; lia).
        ring.
      * replace (i <? S n)%nat with false
          by (symmetry; apply Nat.ltb_ge; lia).
        ring.
Qed.

Lemma lsum_app (l k : list complex) :
  lsum (l ++ k) = (lsum l + lsum k)%cpx.
Proof.
  induction l as [ | x l IH ]; simpl.
  - ring.
  - rewrite IH; ring.
Qed.

Lemma lsum_map_seq (n : nat) (f : nat -> complex) :
  lsum (map f (seq 0 n)) = csum n f.
Proof.
  induction n as [ | n IH ].
  - reflexivity.
  - rewrite seq_S, map_app, lsum_app, IH.
    change (lsum (map f [(0 + n)%nat])) with (f n + c0)%cpx.
    cbn [csum]; ring.
Qed.

Lemma dotsum_cons (x y : complex) (a b : vec) :
  dotsum (x :: a) (y :: b) = (x * y + dotsum a b)%cpx.
Proof. reflexivity. Qed.

(** The dot product as a sum over indices. *)
Lemma dotsum_csum (a b : vec) :
  dotsum a b = csum (length a) (fun i => (nth i a c0 * nth i b c0)%cpx).
Proof.
  revert b; induction a as [ | x a IH ]; intros b.
  - reflexivity.
  - destruct b as [ | y b ].
    + change (dotsum (x :: a) []) with c0.
      rewrite (csum_ext _ _ (fun _ => c0)).
      * rewrite csum_zero; reflexivity.
      * intros i _; destruct i; cbn [nth]; ring.
    + rewrite dotsum_cons, IH.
      cbn [length]; rewrite csum_shift; reflexivity.
Qed.

Lemma nth_map_gen {A B : Type} (f : A -> B) (l : list A) (n : nat)
  (d : A) (d' : B) :
  f d = d' -> nth n (map f l) d' = f (nth n l d).
Proof. intros <-; apply map_nth. Qed.

Lemma list_as_tabulated {A : Type} (l : list A) (d : A) :
  l = map (fun i => nth i l d) (seq 0 (length l)).
Proof.
  induction l as [ | x l IH ]; simpl.
  - reflexivity.
  - f_equal. rewrite <- seq_shift, map_map; exact IH.
Qed.

(** ** The series of [expm] converges

    For every matrix the partial sums of the exponential series converge,
    entry by entry, so that [exp_entry] is their limit: the entries of the
    powers are bounded by the powers of [total_norm], and the exponential
    series of a real number converges. *)

Lemma cnorm1_nonneg (z : complex) : 0 <= cnorm1 z.
Proof.
  unfold cnorm1; pose proof (Rabs_pos (re z)); pose proof (Rabs_pos (im z)).
  lra.
Qed.

Lemma cnorm1_add (z w : complex) : cnorm1 (z + w) <= cnorm1 z + cnorm1 w.
Proof.
  unfold cnorm1; cbn [re im cadd].
  pose proof (Rabs_triang (re z) (re w)).
  pose proof (Rabs_triang (im z) (im w)); lra.
Qed.

Lemma cnorm1_mul (z w : complex) : cnorm1 (z * w) <= cnorm1 z * cnorm1 w.
Proof.
  unfold cnorm1; cbn [re im cmul].
  pose proof (Rabs_triang (re z * re w) (- (im z * im w))) as H1.
  pose proof (Rabs_triang (re z * im w) (im z * re w)) as H2.
  rewrite Rabs_Ropp in H1; rewrite !Rabs_mult in H1, H2.
  unfold Rminus; nra.
Qed.

Lemma rsum_n_le (n : nat) (f g : nat -> R) :
  (forall i, (i < n)%nat -> f i <= g i) -> rsum_n n f <= rsum_n n g.
Proof.
  induction n as [ | n IH ]; intros Hle; cbn [rsum_n].
  - lra.
  - pose proof (Hle n ltac:(lia)).
    pose proof (IH (fun i Hi => Hle i ltac:(lia))); lra.
Qed.

Lemma rsum_n_nonneg (n : nat) (f : nat -> R) :
  (forall i, (i < n)%nat -> 0 <= f i) -> 0 <= rsum_n n f.
Proof.
  induction n as [ | n IH ]; intros Hpos; cbn [rsum_n].
  - lra.
  - pose proof (Hpos n ltac:(lia)).
    pose proof (IH (fun i Hi => Hpos i ltac:(lia))); lra.
Qed.

Lemma rsum_n_scale (n : nat) (c : R) (f : nat -> R) :
  rsum_n n (fun i => c * f i) = c * rsum_n n f.
Proof.
  induction n as [ | n IH ]; cbn [rsum_n]; [ | rewrite IH ]; ring.
Qed.

Lemma rsum_n_term_le (n k : nat) (f : nat -> R) :
  (forall i, (i < n)%nat -> 0 <= f i) -> (k < n)%nat -> f k <= rsum_n n f.
Proof.
  induction n as [ | n IH ]; intros Hpos Hk; [ lia | ].
  cbn [rsum_n].
  pose proof (Hpos n ltac:(lia)) as Hn.
  pose proof (rsum_n_nonneg n f (fun i Hi => Hpos i ltac:(lia))) as Hs.
  destruct (Nat.eq_dec k n) as [-> | Hne]; [ lra | ].
  pose proof (IH (fun i Hi => Hpos i ltac:(lia)) ltac:(lia)); lra.
Qed.

Lemma cnorm1_csum (n : nat) (f : nat -> complex) :
  cnorm1 (csum n f) <= rsum_n n (fun i => cnorm1 (f i)).
Proof.
  induction n as [ | n IH ]; cbn [csum rsum_n].
  - unfold cnorm1; simpl; rewrite Rabs_R0; lra.
  - pose proof (cnorm1_add (csum n f) (f n)); lra.
Qed.

Lemma total_norm_nonneg (N : nat) (A : nat -> nat -> complex) :
  0 <= total_norm N A.
Proof.
  unfold total_norm; apply rsum_n_nonneg; intros i _.
  apply rsum_n_nonneg; intros l _; apply cnorm1_nonneg.
Qed.

Lemma column_norm_le_total (N : nat) (A : nat -> nat -> complex) (l : nat) :
  (l < N)%nat ->
  rsum_n N (fun m => cnorm1 (A m l)) <= total_norm N A.
Proof.
  intros Hl; unfold total_norm; apply rsum_n_le; intros m _.
  apply (rsum_n_term_le N l (fun l' => cnorm1 (A m l'))); [ | exact Hl ].
  intros; apply cnorm1_nonneg.
Qed.

Lemma mat_pow_bound (N : nat) (A : nat -> nat -> complex) (k i l : nat) :
  (l < N)%nat -> cnorm1 (mat_pow N A k i l) <= total_norm N A ^ k.
Proof.
  revert i l; induction k as [ | k IH ]; intros i l Hl.
  - cbn [mat_pow pow]; destruct (i =? l)%nat; unfold cnorm1; simpl;
      rewrite ?Rabs_R0, ?Rabs_R1; lra.
  - cbn [mat_pow pow].
    pose proof (total_norm_nonneg N A) as HT.
    pose proof (pow_le _ k HT) as HTk.
    eapply Rle_trans; [ apply cnorm1_csum | ].
    eapply Rle_trans.
    + apply (rsum_n_le N _ (fun m => total_norm N A ^ k * cnorm1 (A m l))).
      intros m Hm.
      eapply Rle_trans; [ apply cnorm1_mul | ].
      apply Rmult_le_compat_r; [ apply cnorm1_nonneg | apply IH; exact Hm ].
    + rewrite rsum_n_scale, Rmult_comm.
      apply Rmult_le_compat_r; [ exact HTk | ].
      apply column_norm_le_total; exact Hl.
Qed.

Lemma csum_re (n : nat) (f : nat -> complex) :
  re (csum (S n) f) = sum_f_R0 (fun k => re (f k)) n.
Proof.
  induction n as [ | n IH ].
  - simpl; ring.
  - change (csum (S (S n)) f) with (csum (S n) f + f (S n))%cpx.
    cbn [re cadd sum_f_R0]; rewrite IH; reflexivity.
Qed.

Lemma csum_im (n : nat) (f : nat -> complex) :
  im (csum (S n) f) = sum_f_R0 (fun k => im (f k)) n.
Proof.
  induction n as [ | n IH ].
  - simpl; ring.
  - change (csum (S (S n)) f) with (csum (S n) f + f (S n))%cpx.
    cbn [im cadd sum_f_R0]; rewrite IH; reflexivity.
Qed.

(** A series dominated by the exponential series converges. *)
Lemma dominated_by_exp_cv (a : nat -> R) (T : R) :
  (forall k, Rabs (a k) <= / INR (fact k) * T ^ k) ->
  exists l, Un_cv (fun n => sum_f_R0 a n) l.
Proof.
  intros Hdom.
  assert (Habs : {l | Un_cv (fun n => sum_f_R0 (fun k => Rabs (a k)) n) l}).
  { apply (Rseries_CV_comp _ (fun k => / INR (fact k) * T ^ k)).
    - intros k; split; [ apply Rabs_pos | apply Hdom ].
    - destruct (exist_exp T) as [l Hl]; exists l; exact Hl. }
  destruct (cv_cauchy_2 a (cauchy_abs a (cv_cauchy_1 _ Habs))) as [l Hl].
  exists l; exact Hl.
Qed.

Lemma Rlim_spec (u : nat -> R) :
  (exists l, Un_cv u l) -> Un_cv u (Rlim u).
Proof. intros Hex; unfold Rlim; apply epsilon_spec; exact Hex. Qed.

Lemma exp_term_bound (N : nat) (A : nat -> nat -> complex) (k i l : nat) :
  (l < N)%nat ->
  cnorm1 (cscale (/ INR (fact k)) (mat_pow N A k i l))
  <= / INR (fact k) * total_norm N A ^ k.
Proof.
  intros Hl.
  assert (Hf : 0 < / INR (fact k)) by (apply Rinv_0_lt_compat, INR_fact_lt_0).
  unfold cnorm1; cbn [re im cscale]; rewrite !Rabs_mult.
  rewrite (Rabs_pos_eq (/ INR (fact k))) by lra.
  rewrite <- Rmult_plus_distr_l.
  apply Rmult_le_compat_l; [ lra | ].
  apply (mat_pow_bound N A k i l Hl).
Qed.

(** [exp_entry] is the limit of the partial sums, whatever the matrix. *)
Theorem exp_entry_is_limit (N : nat) (A : nat -> nat -> complex)
  (i l : nat) :
  (l < N)%nat ->
  Un_cv (fun n => re (exp_partial N A n i l)) (re (exp_entry N A i l))
  /\ Un_cv (fun n => im (exp_partial N A n i l)) (im (exp_entry N A i l)).
Proof.
  intros Hl; unfold exp_entry; cbn [re im].
  split; apply Rlim_spec.
  - destruct (dominated_by_exp_cv
                (fun k => re (cscale (/ INR (fact k)) (mat_pow N A k i l)))
                (total_norm N A)) as [x Hx].
    + intros k; eapply Rle_trans; [ | apply (exp_term_bound N A k i l Hl) ].
      unfold cnorm1.
      pose proof (Rabs_pos (im (cscale (/ INR (fact k)) (mat_pow N A k i l)))).
      lra.
    + exists x; apply Un_cv_ext with (2 := Hx).
      intros n; unfold exp_partial; rewrite csum_re; reflexivity.
  - destruct (dominated_by_exp_cv
                (fun k => im (cscale (/ INR (fact k)) (mat_pow N A k i l)))
                (total_norm N A)) as [x Hx].
    + intros k; eapply Rle_trans; [ | apply (exp_term_bound N A k i l Hl) ].
      unfold cnorm1.
      pose proof (Rabs_pos (re (cscale (/ INR (fact k)) (mat_pow N A k i l)))).
      lra.
    + exists x; apply Un_cv_ext with (2 := Hx).
      intros n; unfold exp_partial; rewrite csum_im; reflexivity.
Qed.

(** ** The exponential of a multiple of a rank-one projector

    For [A = w * a a^T] with [a^T a = 1] the powers are [A^k = w^k * a a^T]
    ([k >= 1]), so the partial sums of the exponential series are
    [I + (exp_sum w n - 1) * a a^T]. *)

Lemma Un_cv_const (c : R) : Un_cv (fun _ => c) c.
Proof.
  intros eps Heps; exists 0%nat; intros n _.
  unfold Rdist; rewrite Rminus_diag, Rabs_R0; exact Heps.
Qed.

Section RankOne.

Variable N : nat.
Variable a : nat -> complex.
Variable A : nat -> nat -> complex.
Variable w : complex.

Hypothesis a_out : forall i, (N <= i)%nat -> a i = c0.
Hypothesis a_unit : csum N (fun m => (a m * a m)%cpx) = c1.
Hypothesis A_def : forall i l, A i l = (w * (a i * a l))%cpx.

Lemma mat_pow_rank1 (k i l : nat) :
  mat_pow N A (S k) i l = (cpow w (S k) * (a i * a l))%cpx.
Proof.
  revert i l; induction k as [ | k IH ]; intros i l.
  - cbn [mat_pow]; rewrite csum_delta.
    destruct (Nat.ltb_spec i N) as [Hlt | Hge].
    + rewrite A_def; cbn [cpow]; ring.
    + rewrite (a_out i Hge); cbn [cpow]; ring.
  - change (mat_pow N A (S (S k)) i l)
      with (csum N (fun m => (mat_pow N A (S k) i m * A m l)%cpx)).
    rewrite (csum_ext _ _
               (fun m => ((cpow w (S (S k)) * (a i * a l)) * (a m * a m))%cpx)).
    + rewrite csum_mul_l, a_unit; ring.
    + intros m _; rewrite IH, A_def; cbn [cpow]; ring.
Qed.

Lemma exp_partial_rank1 (n i l : nat) :
  exp_partial N A n i l
  = ((if (i =? l)%nat then c1 else c0)
     + (exp_sum w n - c1) * (a i * a l))%cpx.
Proof.
  induction n as [ | n IH ].
  - unfold exp_partial, exp_sum; cbn [csum mat_pow cpow fact INR].
    rewrite Rinv_1.
    destruct (i =? l)%nat; apply complex_eq; simpl; ring.
  - change (exp_partial N A (S n) i l)
      with (exp_partial N A n i l
            + cscale (/ INR (fact (S n))) (mat_pow N A (S n) i l))%cpx.
    rewrite IH, mat_pow_rank1, exp_sum_succ, !cscale_RtoC; ring.
Qed.

Lemma exp_entry_rank1 (x : R) (i l : nat) :
  w = Cpx 0 x ->
  exp_entry N A i l
  = ((if (i =? l)%nat then c1 else c0)
     + (cis x - c1) * (a i * a l))%cpx.
Proof.
  intros Hw.
  set (d := if (i =? l)%nat then c1 else c0).
  set (q := (a i * a l)%cpx).
  unfold exp_entry; apply complex_eq; cbn [re im]; apply Rlim_eq.
  - apply Un_cv_ext with
      (un := fun n => re d + ((re (exp_sum (Cpx 0 x) n) - 1) * re q
                              - im (exp_sum (Cpx 0 x) n) * im q)).
    + intros n; rewrite exp_partial_rank1, Hw.
      fold d; fold q; simpl; ring.
    + replace (re (d + (cis x - c1) * q)%cpx)
        with (re d + ((cos x - 1) * re q - sin x * im q))
        by (simpl; ring).
      apply CV_plus; [ apply Un_cv_const | ].
      apply CV_minus; apply CV_mult;
        try apply Un_cv_const.
      * apply CV_minus; [ apply exp_sum_imag_re_cv | apply Un_cv_const ].
      * apply exp_sum_imag_im_cv.
  - apply Un_cv_ext with
      (un := fun n => im d + ((re (exp_sum (Cpx 0 x) n) - 1) * im q
                              + im (exp_sum (Cpx 0 x) n) * re q)).
    + intros n; rewrite exp_partial_rank1, Hw.
      fold d; fold q; simpl; ring.
    + replace (im (d + (cis x - c1) * q)%cpx)
        with (im d + ((cos x - 1) * im q + sin x * re q))
        by (simpl; ring).
      apply CV_plus; [ apply Un_cv_const | ].
      apply CV_plus; apply CV_mult;
        try apply Un_cv_const.
      * apply CV_minus; [ apply exp_sum_imag_re_cv | apply Un_cv_const ].
      * apply exp_sum_imag_im_cv.
Qed.

End RankOne.

(** ** Dot products and outer products *)

Lemma dotsum_scale_l (z : complex) (a b : vec) :
  dotsum (map (cmul z) a) b = (z * dotsum a b)%cpx.
Proof.
  revert b; induction a as [ | x a IH ]; intros b.
  - change (dotsum (map (cmul z) []) b) with c0.
    change (dotsum [] b) with c0; ring.
  - destruct b as [ | y b ].
    + change (dotsum (map (cmul z) (x :: a)) []) with c0.
      change (dotsum (x :: a) []) with c0; ring.
    + cbn [map]; rewrite !dotsum_cons, IH; ring.
Qed.

Lemma dotsum_scale_r (k : complex) (a b : vec) :
  dotsum a (map (fun x => (x * k)%cpx) b) = (dotsum a b * k)%cpx.
Proof.
  revert b; induction a as [ | x a IH ]; intros b.
  - change (dotsum [] (map (fun x => (x * k)%cpx) b)) with c0.
    change (dotsum [] b) with c0; ring.
  - destruct b as [ | y b ].
    + change (dotsum (x :: a) (map (fun x => (x * k)%cpx) [])) with c0.
      change (dotsum (x :: a) []) with c0; ring.
    + cbn [map]; rewrite !dotsum_cons, IH; ring.
Qed.

Lemma dotsum_neg_l (a b : vec) :
  dotsum (map cneg a) b = (- dotsum a b)%cpx.
Proof.
  revert b; induction a as [ | x a IH ]; intros b.
  - change (dotsum (map cneg []) b) with c0.
    change (dotsum [] b) with c0; ring.
  - destruct b as [ | y b ].
    + change (dotsum (map cneg (x :: a)) []) with c0.
      change (dotsum (x :: a) []) with c0; ring.
    + cbn [map]; rewrite !dotsum_cons, IH; ring.
Qed.

Lemma dotsum_neg_r (a b : vec) :
  dotsum a (map cneg b) = (- dotsum a b)%cpx.
Proof.
  revert b; induction a as [ | x a IH ]; intros b.
  - change (dotsum [] (map cneg b)) with c0.
    change (dotsum [] b) with c0; ring.
  - destruct b as [ | y b ].
    + change (dotsum (x :: a) (map cneg [])) with c0.
      change (dotsum (x :: a) []) with c0; ring.
    + cbn [map]; rewrite !dotsum_cons, IH; ring.
Qed.

(** Against a real array, conjugating the other side conjugates the dot
    product. *)
Lemma dotsum_conj_real (s : vec) (r : list R) :
  dotsum (vconj s) (real_vec r) = cconj (dotsum (real_vec r) s).
Proof.
  revert r; induction s as [ | x s IH ]; intros r.
  - destruct r; apply complex_eq; simpl; ring.
  - destruct r as [ | y r ].
    + apply complex_eq; simpl; ring.
    + unfold vconj, real_vec in *; cbn [map].
      rewrite !dotsum_cons, IH.
      apply complex_eq; simpl; ring.
Qed.

Lemma forallb_map_const {A B : Type} (f : A -> B) (P : B -> bool)
  (l : list A) :
  (forall x, P (f x) = true) -> forallb P (map f l) = true.
Proof.
  intros H; induction l as [ | x l IH ]; simpl.
  - reflexivity.
  - rewrite H, IH; reflexivity.
Qed.

Lemma np_dot_mv_outer (t u s : vec) :
  length s = length u ->
  np_dot_mv (np_outer t u) s = Ok (map (fun x => (x * dotsum u s)%cpx) t).
Proof.
  intros Hlen; unfold np_dot_mv, np_outer.
  rewrite forallb_map_const
    by (intros x; rewrite length_map, Hlen; apply Nat.eqb_refl).
  rewrite map_map; f_equal.
  apply map_ext; intros x; apply dotsum_scale_l.
Qed.

Lemma np_dot_mv_neg_outer (t u s : vec) :
  length s = length u ->
  np_dot_mv (mat_neg (np_outer t u)) s
  = Ok (map (fun x => (- (x * dotsum u s))%cpx) t).
Proof.
  intros Hlen; unfold np_dot_mv, mat_neg, np_outer.
  rewrite map_map.
  rewrite forallb_map_const
    by (intros x; rewrite !length_map, Hlen; apply Nat.eqb_refl).
  rewrite map_map; f_equal.
  apply map_ext; intros x.
  rewrite dotsum_neg_l, dotsum_scale_l; reflexivity.
Qed.

(** ** [expm] on the generators the notebook builds *)

Lemma nth_real_vec (r : list R) (i : nat) :
  nth i (real_vec r) c0 = RtoC (nth i r 0).
Proof. unfold real_vec; apply (map_nth RtoC). Qed.

Lemma entry_scal_neg_outer (z : complex) (u v : vec) (i l : nat) :
  entry (scal_mat z (mat_neg (np_outer u v))) i l
  = (z * - (nth i u c0 * nth l v c0))%cpx.
Proof.
  unfold entry, scal_mat, mat_neg, np_outer; rewrite !map_map.
  destruct (Nat.lt_ge_cases i (length u)) as [Hlt | Hge].
  - set (row := fun x : complex =>
                  map (cmul z) (map cneg (map (fun y => (x * y)%cpx) v))).
    rewrite (nth_indep (map row u) [] (row c0))
      by (rewrite length_map; exact Hlt).
    rewrite (map_nth row); unfold row; rewrite !map_map.
    apply (nth_map_gen (fun y => (z * - (nth i u c0 * y))%cpx)); ring.
  - rewrite (nth_overflow (map _ u)) by (rewrite length_map; exact Hge).
    rewrite (nth_overflow u) by exact Hge.
    destruct l; cbn [nth]; ring.
Qed.

Lemma csum_real_squares (r : list R) :
  csum (length r) (fun m => (RtoC (nth m r 0) * RtoC (nth m r 0))%cpx)
  = RtoC (rsum (map (fun x => x * x) r)).
Proof.
  induction r as [ | x r IH ].
  - reflexivity.
  - cbn [length]; rewrite csum_shift; cbn [nth]; rewrite IH.
    apply complex_eq; simpl; ring.
Qed.

Lemma length_scal_neg_outer (z : complex) (u v : vec) :
  length (scal_mat z (mat_neg (np_outer u v))) = length u.
Proof. unfold scal_mat, mat_neg, np_outer; rewrite !length_map; reflexivity. Qed.

Lemma is_square_scal_neg_outer (z : complex) (u v : vec) :
  length u = length v ->
  is_square (scal_mat z (mat_neg (np_outer u v))) = true.
Proof.
  intros Hlen; unfold is_square.
  rewrite length_scal_neg_outer.
  unfold scal_mat, mat_neg, np_outer; rewrite !map_map.
  apply forallb_map_const; intros x.
  rewrite !length_map, Hlen; apply Nat.eqb_refl.
Qed.

(** [expm(-1j * x * (-r r^T)) = I + (cis x - 1) r r^T] for a real unit
    vector [r]. *)
Lemma la_expm_rank1 (r : list R) (x : R) :
  unit_real r ->
  la_expm (scal_mat (- cj * RtoC x)%cpx
             (mat_neg (np_outer (real_vec r) (real_vec r))))
  = Ok (rank1_rot r x).
Proof.
  intros Hunit; unfold la_expm.
  rewrite is_square_scal_neg_outer by reflexivity.
  rewrite length_scal_neg_outer.
  unfold real_vec at 1 2; rewrite length_map; fold (real_vec r).
  f_equal; unfold rank1_rot, tabulate.
  apply map_ext; intros i; apply map_ext; intros l.
  apply (exp_entry_rank1 (length r) (fun m => RtoC (nth m r 0)) _ (Cpx 0 x)).
  - intros m Hm; rewrite nth_overflow by exact Hm; reflexivity.
  - rewrite csum_real_squares, Hunit; reflexivity.
  - intros m k; rewrite entry_scal_neg_outer, !nth_real_vec.
    apply complex_eq; simpl; ring.
  - reflexivity.
Qed.

Lemma combine_as_tabulated {A B : Type} (l : list A) (k : list B)
  (d : A) (e : B) :
  length l = length k ->
  combine l k = map (fun i => (nth i l d, nth i k e)) (seq 0 (length l)).
Proof.
  intros Hlen.
  rewrite (list_as_tabulated (combine l k) (d, e)) at 1.
  rewrite length_combine, <- Hlen, Nat.min_id.
  apply map_ext; intros i; apply combine_nth; exact Hlen.
Qed.

Lemma nth_tabulated_row (N : nat) (f : nat -> complex) (l : nat) :
  (l < N)%nat -> nth l (map f (seq 0 N)) c0 = f l.
Proof.
  intros Hl.
  rewrite (nth_indep _ c0 (f O)) by (rewrite length_map, length_seq; exact Hl).
  rewrite (map_nth f), seq_nth by exact Hl; reflexivity.
Qed.

(** Applying the closed form to a state. *)
Lemma np_dot_mv_rank1_rot (r : list R) (x : R) (s : vec) :
  length s = length r ->
  np_dot_mv (rank1_rot r x) s
  = Ok (axpy ((cis x - c1) * dotsum (real_vec r) s)%cpx (real_vec r) s).
Proof.
  intros Hlen; unfold np_dot_mv, rank1_rot, tabulate.
  rewrite forallb_map_const
    by (intros i; rewrite length_map, length_seq, Hlen; apply Nat.eqb_refl).
  apply f_equal; rewrite map_map; unfold axpy.
  rewrite (combine_as_tabulated s (real_vec r) c0 c0)
    by (unfold real_vec; rewrite length_map; exact Hlen).
  rewrite map_map, Hlen; cbn [fst snd].
  apply map_ext_in; intros i Hi; apply in_seq in Hi.
  rewrite dotsum_csum, length_map, length_seq.
  rewrite (csum_ext _ _
    (fun l => ((if (i =? l)%nat then c1 else c0) * nth l s c0
               + ((cis x - c1) * RtoC (nth i r 0))
                 * (nth l (real_vec r) c0 * nth l s c0))%cpx)).
  - rewrite csum_add, csum_delta, csum_mul_l.
    replace (i <? length r)%nat with true by (symmetry; apply Nat.ltb_lt; lia).
    rewrite (dotsum_csum (real_vec r) s).
    unfold real_vec at 2; rewrite length_map, nth_real_vec; ring.
  - intros l Hl; rewrite nth_tabulated_row by exact Hl.
    rewrite nth_real_vec; ring.
Qed.

Lemma entry_tabulate (N : nat) (f : nat -> nat -> complex) (i l : nat) :
  (i < N)%nat -> (l < N)%nat -> entry (tabulate N f) i l = f i l.
Proof.
  intros Hi Hl; unfold entry, tabulate.
  rewrite (nth_indep _ [] ((fun i => map (fun l => f i l) (seq 0 N)) O))
    by (rewrite length_map, length_seq; exact Hi).
  rewrite (map_nth (fun i => map (fun l => f i l) (seq 0 N))).
  rewrite seq_nth by exact Hi; cbn [Nat.add].
  apply (nth_tabulated_row N (fun l => f i l) l Hl).
Qed.

(** What [la_expm] returns is the sum of the exponential series, for every
    square matrix. *)
Theorem la_expm_is_series_sum (A E : mat) (i l : nat) :
  la_expm A = Ok E -> (i < length A)%nat -> (l < length A)%nat ->
  Un_cv (fun n => re (exp_partial (length A) (entry A) n i l))
    (re (entry E i l))
  /\ Un_cv (fun n => im (exp_partial (length A) (entry A) n i l))
       (im (entry E i l)).
Proof.
  unfold la_expm; destruct (is_square A); [ | discriminate ].
  intros [= <-] Hi Hl.
  rewrite entry_tabulate by assumption.
  apply exp_entry_is_limit; exact Hl.
Qed.

Lemma la_expm_total (A : mat) :
  is_square A = true -> exists E, la_expm A = Ok E /\ length E = length A.
Proof.
  intros Hsq; unfold la_expm; rewrite Hsq.
  eexists; split; [ reflexivity | ].
  unfold tabulate; rewrite length_map; apply length_seq.
Qed.

(** ** Norms *)

Lemma norm2_cons (z : complex) (v : vec) :
  norm2 (z :: v) = cabs2 z + norm2 v.
Proof. reflexivity. Qed.

Lemma norm2_nonneg (v : vec) : 0 <= norm2 v.
Proof.
  induction v as [ | z v IH ].
  - unfold norm2; simpl; lra.
  - rewrite norm2_cons; pose proof (cabs2_nonneg z); lra.
Qed.

Lemma length_axpy (k : complex) (u s : vec) :
  length s = length u -> length (axpy k u s) = length s.
Proof.
  intros Hlen; unfold axpy.
  rewrite length_map, length_combine, <- Hlen; apply Nat.min_id.
Qed.

Lemma norm2_axpy_real (k : complex) (r : list R) (s : vec) :
  length s = length r ->
  norm2 (axpy k (real_vec r) s)
  = norm2 s
    + 2 * (re k * re (dotsum (real_vec r) s)
           + im k * im (dotsum (real_vec r) s))
    + cabs2 k * rsum (map (fun x => x * x) r).
Proof.
  revert r; induction s as [ | z s IH ]; intros r Hlen.
  - destruct r; [ | discriminate ].
    unfold norm2, dotsum; simpl; ring.
  - destruct r as [ | y r ]; [ discriminate | ].
    injection Hlen as Hlen.
    change (axpy k (real_vec (y :: r)) (z :: s))
      with ((z + k * RtoC y)%cpx :: axpy k (real_vec r) s).
    change (dotsum (real_vec (y :: r)) (z :: s))
      with (RtoC y * z + dotsum (real_vec r) s)%cpx.
    change (rsum (map (fun x => x * x) (y :: r)))
      with (y * y + rsum (map (fun x => x * x) r)).
    rewrite !norm2_cons, (IH r Hlen).
    unfold cabs2; cbn [re im cadd cmul RtoC]; ring.
Qed.

(** A rotation about a real unit vector keeps the norm. *)
Lemma norm2_rotation (r : list R) (x : R) (s : vec) :
  unit_real r -> length s = length r ->
  norm2 (axpy ((cis x - c1) * dotsum (real_vec r) s)%cpx (real_vec r) s)
  = norm2 s.
Proof.
  intros Hunit Hlen.
  rewrite norm2_axpy_real by exact Hlen.
  unfold unit_real in Hunit; rewrite Hunit.
  set (w := dotsum (real_vec r) s).
  transitivity (norm2 s + cabs2 w * (sin x * sin x + cos x * cos x - 1)).
  - unfold cabs2; cbn [re im cadd csub cmul cis c1 RtoC]; ring.
  - pose proof (sin2_cos2 x) as E; unfold Rsqr in E; rewrite E; ring.
Qed.

(** Bessel's inequality for one real unit vector. *)
Lemma cabs2_dotsum_le (r : list R) (s : vec) :
  unit_real r -> length s = length r ->
  cabs2 (dotsum (real_vec r) s) <= norm2 s.
Proof.
  intros Hunit Hlen.
  pose proof (norm2_nonneg (axpy (- dotsum (real_vec r) s)%cpx (real_vec r) s))
    as Hpos.
  rewrite norm2_axpy_real in Hpos by exact Hlen.
  unfold unit_real in Hunit; rewrite Hunit in Hpos.
  revert Hpos; unfold cabs2; cbn [re im cneg]; lra.
Qed.

(** ** The uniform superposition *)

Lemma pow2_pos (n : Z) : (0 <= n)%Z -> (0 < 2 ^ n)%Z.
Proof. intros Hn; apply Z.pow_pos_nonneg; lia. Qed.

Lemma plus_state_ok (n : Z) :
  (0 <= n)%Z -> plus_state n = Ok (real_vec (plus_amplitudes n)).
Proof.
  intros Hn; unfold plus_state.
  replace (n <? 0)%Z with false by (symmetry; apply Z.ltb_ge; exact Hn).
  unfold real_vec, plus_amplitudes; rewrite !map_repeat; reflexivity.
Qed.

Lemma length_plus_amplitudes (n : Z) :
  length (plus_amplitudes n) = Z.to_nat (2 ^ n).
Proof. unfold plus_amplitudes; apply repeat_length. Qed.

Lemma rsum_repeat (c : R) (k : nat) : rsum (repeat c k) = INR k * c.
Proof.
  induction k as [ | k IH ].
  - simpl; ring.
  - rewrite S_INR; cbn [repeat]; unfold rsum in *; cbn [fold_right].
    rewrite IH; ring.
Qed.

Lemma unit_plus_amplitudes (n : Z) :
  (0 <= n)%Z -> unit_real (plus_amplitudes n).
Proof.
  intros Hn; pose proof (pow2_pos n Hn) as Hpos.
  unfold unit_real, plus_amplitudes.
  rewrite map_repeat, rsum_repeat, INR_IZR_INZ, Z2Nat.id by lia.
  assert (HR : 0 < IZR (2 ^ n)) by (apply IZR_lt; exact Hpos).
  assert (Hs : sqrt (IZR (2 ^ n)) * sqrt (IZR (2 ^ n)) = IZR (2 ^ n))
    by (apply sqrt_sqrt; lra).
  assert (Hs0 : sqrt (IZR (2 ^ n)) <> 0).
  { intros E; rewrite E in Hs; lra. }
  rewrite <- Hs at 1; field; exact Hs0.
Qed.

Lemma B_operator_ok (n : Z) :
  (0 <= n)%Z ->
  B_operator n = Ok (H_operator (real_vec (plus_amplitudes n))).
Proof.
  intros Hn; unfold B_operator; rewrite plus_state_ok by exact Hn.
  reflexivity.
Qed.

(** ** One layer on the generators of the builders *)

Lemma length_rotate (r : list R) (x : R) (s : vec) :
  length s = length r -> length (rotate r x s) = length s.
Proof.
  intros Hlen; apply length_axpy.
  unfold real_vec; rewrite length_map; exact Hlen.
Qed.

Lemma norm2_rotate (r : list R) (x : R) (s : vec) :
  unit_real r -> length s = length r -> norm2 (rotate r x s) = norm2 s.
Proof. apply norm2_rotation. Qed.

Lemma expm_dot_rank1 (r : list R) (x : R) (s : vec) :
  unit_real r -> length s = length r ->
  (U <- la_expm (scal_mat (- cj * RtoC x)%cpx (H_operator (real_vec r))) ;;
   np_dot_mv U s)
  = Ok (rotate r x s).
Proof.
  intros Hunit Hlen; unfold H_operator.
  rewrite la_expm_rank1 by exact Hunit.
  cbn [bind]; apply np_dot_mv_rank1_rot; exact Hlen.
Qed.

Lemma qaoa_step_rank1 (r : list R) (n : Z) (s : vec) (a b : R) :
  (0 <= n)%Z -> unit_real r ->
  length r = Z.to_nat (2 ^ n) -> length s = length r ->
  qaoa_step s (H_operator (real_vec r)) n [a; b]
  = Ok (rotate (plus_amplitudes n) b (rotate r a s)).
Proof.
  intros Hn Hunit Hr Hs; unfold qaoa_step.
  rewrite B_operator_ok by exact Hn.
  cbn [bind getitem nth_error].
  pose proof (expm_dot_rank1 r a s Hunit Hs) as E1.
  destruct (la_expm (scal_mat (- cj * RtoC a)%cpx (H_operator (real_vec r))))
    as [U | e]; cbn [bind] in E1 |- *; [ | discriminate ].
  rewrite E1; cbn [bind].
  apply expm_dot_rank1.
  - apply unit_plus_amplitudes; exact Hn.
  - rewrite length_rotate, length_plus_amplitudes by exact Hs.
    rewrite Hs; exact Hr.
Qed.

Lemma getitem_ok {A : Type} (l : list A) (i : nat) :
  (i < length l)%nat -> exists x, getitem l i = Ok x.
Proof.
  intros Hi; unfold getitem.
  destruct (nth_error l i) as [x | ] eqn:E.
  - exists x; reflexivity.
  - apply nth_error_None in E; lia.
Qed.

(** The loop of [cost_function] on the generator of a real unit target:
    every layer succeeds and keeps length and norm. *)
Lemma layers_rank1 (r : list R) (n : Z) (params : list R) :
  (0 <= n)%Z -> unit_real r -> length r = Z.to_nat (2 ^ n) ->
  forall (count i : nat) (s : vec),
    (2 * (i + count) <= length params)%nat ->
    length s = length r ->
    exists s',
      for_each (seq i count)
        (fun i st =>
           a <- getitem params (2 * i) ;;
           b <- getitem params (2 * i + 1) ;;
           qaoa_step st (H_operator (real_vec r)) n [a; b]) s = Ok s'
      /\ length s' = length r /\ norm2 s' = norm2 s.
Proof.
  intros Hn Hunit Hr count.
  induction count as [ | count IH ]; intros i s Hlen Hs.
  - exists s; repeat split; assumption.
  - cbn [seq for_each].
    destruct (getitem_ok params (2 * i)) as [a ->]; [ lia | ].
    destruct (getitem_ok params (2 * i + 1)) as [b ->]; [ lia | ].
    cbn [bind]; rewrite qaoa_step_rank1 by assumption; cbn [bind].
    assert (H1 : length (rotate r a s) = length r)
      by (rewrite length_rotate; assumption).
    assert (H2 : length (rotate (plus_amplitudes n) b (rotate r a s))
                 = length r).
    { rewrite length_rotate; [ exact H1 | ].
      rewrite length_plus_amplitudes, H1; exact Hr. }
    destruct (IH (S i) _ ltac:(lia) H2) as (s' & E & Hl & Hn2).
    exists s'; repeat split; [ exact E | exact Hl | ].
    rewrite Hn2, !norm2_rotate; try assumption; try reflexivity.
    + apply unit_plus_amplitudes; exact Hn.
    + rewrite length_plus_amplitudes, H1; exact Hr.
Qed.

(** ** The generator of a real unit vector *)

Lemma norm2_real_vec (r : list R) :
  norm2 (real_vec r) = rsum (map (fun x => x * x) r).
Proof.
  induction r as [ | x r IH ].
  - reflexivity.
  - change (real_vec (x :: r)) with (RtoC x :: real_vec r).
    rewrite norm2_cons, IH; unfold cabs2; simpl; ring.
Qed.

Lemma norm_one (v : vec) : norm v = 1 <-> norm2 v = 1.
Proof.
  unfold norm; split; intros E.
  - pose proof (sqrt_sqrt (norm2 v) (norm2_nonneg v)) as Hs.
    rewrite E in Hs; lra.
  - rewrite E; apply sqrt_1.
Qed.

Lemma unit_real_of_norm (r : list R) :
  norm (real_vec r) = 1 -> unit_real r.
Proof.
  intros E; apply norm_one in E.
  unfold unit_real; rewrite <- norm2_real_vec; exact E.
Qed.

Lemma dotsum_real_self (r : list R) :
  dotsum (real_vec r) (real_vec r) = RtoC (rsum (map (fun x => x * x) r)).
Proof.
  induction r as [ | x r IH ].
  - reflexivity.
  - change (real_vec (x :: r)) with (RtoC x :: real_vec r).
    rewrite dotsum_cons, IH; apply complex_eq; simpl; ring.
Qed.

Lemma vconj_real_vec (r : list R) : vconj (real_vec r) = real_vec r.
Proof.
  unfold vconj, real_vec; rewrite map_map; apply map_ext; intros x.
  apply complex_eq; simpl; ring.
Qed.

Lemma neg_outer_conj_real (r : list R) :
  H_operator (real_vec r) = neg_outer_conj (real_vec r).
Proof.
  unfold H_operator, mat_neg, np_outer, neg_outer_conj.
  rewrite map_map; apply map_ext; intros x.
  unfold real_vec; rewrite !map_map; apply map_ext; intros y.
  apply complex_eq; simpl; ring.
Qed.

Lemma entry_neg_outer (u v : vec) (i l : nat) :
  entry (mat_neg (np_outer u v)) i l = (- (nth i u c0 * nth l v c0))%cpx.
Proof.
  unfold entry, mat_neg, np_outer; rewrite !map_map.
  destruct (Nat.lt_ge_cases i (length u)) as [Hlt | Hge].
  - set (row := fun x : complex => map cneg (map (fun y => (x * y)%cpx) v)).
    rewrite (nth_indep (map row u) [] (row c0))
      by (rewrite length_map; exact Hlt).
    rewrite (map_nth row); unfold row; rewrite !map_map.
    apply (nth_map_gen (fun y => (- (nth i u c0 * y))%cpx)); ring.
  - rewrite (nth_overflow (map _ u)) by (rewrite length_map; exact Hge).
    rewrite (nth_overflow u) by exact Hge.
    destruct l; cbn [nth]; ring.
Qed.

Lemma hermitian_real (r : list R) : is_hermitian (H_operator (real_vec r)).
Proof.
  intros i k; unfold H_operator; rewrite !entry_neg_outer, !nth_real_vec.
  apply complex_eq; simpl; ring.
Qed.

Lemma is_square_H_operator (v : vec) : is_square (H_operator v) = true.
Proof.
  unfold is_square, H_operator, mat_neg, np_outer; rewrite !map_map.
  apply forallb_map_const; intros x.
  rewrite !length_map; apply Nat.eqb_refl.
Qed.

Lemma length_H_operator (v : vec) : length (H_operator v) = length v.
Proof. unfold H_operator, mat_neg, np_outer; rewrite !length_map; reflexivity. Qed.

Lemma cinv_mul (z : complex) : cabs2 z <> 0 -> (cinv z * z)%cpx = c1.
Proof.
  intros Hz; unfold cinv, cabs2 in *.
  apply complex_eq; simpl; field; exact Hz.
Qed.

Lemma cmul_zero_cases (z w : complex) :
  (z * w)%cpx = c0 -> cabs2 z <> 0 -> w = c0.
Proof.
  intros E Hz; apply cabs2_zero.
  assert (H : cabs2 (z * w) = 0) by (rewrite E; unfold cabs2; simpl; ring).
  rewrite cabs2_mul in H.
  apply Rmult_integral in H; destruct H as [H | H]; [ contradiction | exact H ].
Qed.

Lemma norm2_all_zero (w : vec) :
  (forall i, nth i w c0 = c0) -> norm2 w = 0.
Proof.
  induction w as [ | z w IH ]; intros Hz.
  - reflexivity.
  - rewrite norm2_cons, IH.
    + rewrite (Hz O : z = c0); unfold cabs2; simpl; ring.
    + intros i; exact (Hz (S i)).
Qed.

Lemma dotsum_map_cmul_r (k : complex) (a b : vec) :
  dotsum a (map (cmul k) b) = (k * dotsum a b)%cpx.
Proof.
  rewrite (map_ext (cmul k) (fun x => (x * k)%cpx)) by (intros; ring).
  rewrite dotsum_scale_r; ring.
Qed.

(** When [M.dot(w)] returns for the generator of a non-empty [v], the
    shapes fit. *)
Lemma np_dot_mv_H_length (v w u : vec) :
  v <> [] -> np_dot_mv (H_operator v) w = Ok u -> length w = length v.
Proof.
  intros Hv E; unfold np_dot_mv in E.
  destruct (forallb _ (H_operator v)) eqn:F; [ clear E | discriminate ].
  rewrite forallb_forall in F.
  destruct v as [ | x v ]; [ contradiction | ].
  specialize (F (map cneg (map (fun y => (x * y)%cpx) (x :: v)))
                (or_introl eq_refl)).
  apply Nat.eqb_eq in F; rewrite !length_map in F.
  symmetry; exact F.
Qed.

Lemma real_vec_nonempty (r : list R) : unit_real r -> real_vec r <> [].
Proof.
  intros H E; destruct r; [ | discriminate ].
  unfold unit_real in H; simpl in H; lra.
Qed.

Lemma eigen_classification (r : list R) (lam : complex) (w : vec) :
  unit_real r -> eigenpair (H_operator (real_vec r)) lam w ->
  lam = c0
  \/ (lam = (- c1)%cpx /\ exists k, w = map (cmul k) (real_vec r)).
Proof.
  intros Hunit [Hw E].
  assert (Hlen : length w = length (real_vec r)).
  { eapply np_dot_mv_H_length; [ apply real_vec_nonempty; exact Hunit | ].
    exact E. }
  unfold H_operator in E; rewrite np_dot_mv_neg_outer in E by exact Hlen.
  injection E as E.
  set (v := real_vec r) in *.
  set (d := dotsum v w) in *.
  assert (Hpt : forall i, (lam * nth i w c0)%cpx = (- (nth i v c0 * d))%cpx).
  { intros i; apply (f_equal (fun l => nth i l c0)) in E.
    rewrite (nth_map_gen (fun x => (- (x * d))%cpx) v i c0 c0) in E by ring.
    rewrite (nth_map_gen (cmul lam) w i c0 c0) in E by ring.
    symmetry; exact E. }
  destruct (Req_dec (cabs2 lam) 0) as [Hz | Hnz].
  - left; apply cabs2_zero; exact Hz.
  - right.
    set (k := (- (cinv lam * d))%cpx).
    assert (Hwi : forall i, nth i w c0 = (k * nth i v c0)%cpx).
    { intros i.
      transitivity ((cinv lam * lam) * nth i w c0)%cpx.
      - rewrite cinv_mul by exact Hnz; ring.
      - replace ((cinv lam * lam) * nth i w c0)%cpx
          with (cinv lam * (lam * nth i w c0))%cpx by ring.
        rewrite Hpt; unfold k; ring. }
    assert (Hw_eq : w = map (cmul k) v).
    { apply (nth_ext _ _ c0 c0).
      - rewrite length_map; exact Hlen.
      - intros i _; rewrite (nth_map_gen (cmul k) v i c0 c0) by ring.
        apply Hwi. }
    assert (Hd : d = k).
    { unfold d; rewrite Hw_eq at 1; rewrite dotsum_map_cmul_r.
      unfold v; rewrite dotsum_real_self.
      unfold unit_real in Hunit; rewrite Hunit; fold c1; ring. }
    split; [ | exists k; exact Hw_eq ].
    destruct (Req_dec (cabs2 (lam + c1)) 0) as [H1 | H1].
    + apply cabs2_zero in H1.
      pose proof (f_equal re H1) as Hr; pose proof (f_equal im H1) as Hi.
      simpl in Hr, Hi; apply complex_eq; simpl; lra.
    + exfalso; apply Hw; apply norm2_all_zero; intros i.
      apply (cmul_zero_cases (lam + c1)); [ | exact H1 ].
      replace ((lam + c1) * nth i w c0)%cpx
        with (lam * nth i w c0 + nth i w c0)%cpx by ring.
      rewrite Hpt, Hd, Hwi; ring.
Qed.

Lemma projector_generator_real (r : list R) :
  unit_real r -> projector_generator (H_operator (real_vec r)) (real_vec r).
Proof.
  intros Hunit; unfold projector_generator.
  split; [ apply length_H_operator | ].
  split; [ apply is_square_H_operator | ].
  split; [ apply neg_outer_conj_real | ].
  split; [ apply hermitian_real | ].
  split; [ | split ].
  - split.
    + rewrite norm2_real_vec; unfold unit_real in Hunit; rewrite Hunit; lra.
    + unfold H_operator; rewrite np_dot_mv_neg_outer by reflexivity.
      rewrite dotsum_real_self; unfold unit_real in Hunit; rewrite Hunit.
      f_equal; apply map_ext; intros x; apply complex_eq; simpl; ring.
  - intros lam w; apply eigen_classification; exact Hunit.
  - intros w Hlen Hin.
    unfold H_operator; rewrite np_dot_mv_neg_outer by exact Hlen.
    unfold inner in Hin; rewrite vconj_real_vec in Hin; rewrite Hin.
    f_equal.
    apply (nth_ext _ _ c0 c0).
    + rewrite !length_map; symmetry; exact Hlen.
    + intros i _.
      rewrite (nth_map_gen (fun x => (- (x * c0))%cpx) _ i c0 c0) by ring.
      rewrite (nth_map_gen (fun _ => c0) w i c0 c0) by reflexivity.
      ring.
Qed.

(** ** Expectation value and overlap *)

Lemma np_dot_mv_H (t s : vec) :
  length s = length t ->
  np_dot_mv (H_operator t) s
  = Ok (map cneg (map (fun x => (x * dotsum t s)%cpx) t)).
Proof.
  intros Hlen; unfold H_operator.
  rewrite np_dot_mv_neg_outer by exact Hlen.
  rewrite map_map; reflexivity.
Qed.

Lemma np_dot_vv_conj_scaled (t s : vec) (d : complex) :
  length s = length t ->
  np_dot_vv (vconj s) (map (fun x => (x * d)%cpx) t)
  = Ok (dotsum (vconj s) t * d)%cpx.
Proof.
  intros Hlen; unfold np_dot_vv, vconj.
  rewrite !length_map, Hlen, Nat.eqb_refl, dotsum_scale_r; reflexivity.
Qed.

Lemma np_dot_vv_conj_neg_scaled (t s : vec) (d : complex) :
  length s = length t ->
  np_dot_vv (vconj s) (map cneg (map (fun x => (x * d)%cpx) t))
  = Ok (- (dotsum (vconj s) t * d))%cpx.
Proof.
  intros Hlen; unfold np_dot_vv, vconj.
  rewrite !length_map, Hlen, Nat.eqb_refl, dotsum_neg_r, dotsum_scale_r.
  reflexivity.
Qed.

(** [overlap] in closed form, for any target. *)
Lemma overlap_closed (t s : vec) :
  length s = length t ->
  overlap t s = Ok (re (dotsum (vconj s) t * dotsum t s)%cpx).
Proof.
  intros Hlen; unfold overlap.
  rewrite np_dot_mv_outer by exact Hlen; cbn [bind].
  rewrite np_dot_vv_conj_scaled by exact Hlen; reflexivity.
Qed.

(** For a real target the overlap is the squared modulus of [<t|s>]. *)
Lemma overlap_real (r : list R) (s : vec) :
  length s = length r ->
  overlap (real_vec r) s = Ok (cabs2 (inner (real_vec r) s)).
Proof.
  intros Hlen; rewrite overlap_closed
    by (unfold real_vec; rewrite length_map; exact Hlen).
  unfold inner; rewrite vconj_real_vec, dotsum_conj_real.
  f_equal; unfold cabs2; simpl; ring.
Qed.

(** [cost_function] on the generator of a real unit target: it returns, the
    cost is minus the squared modulus of [<t|s>] for the final state [s],
    and [s] has the length of the target and squared norm one. *)
Lemma cost_function_rank1 (r : list R) (n p : Z) (params : list R) :
  (0 <= n)%Z -> unit_real r -> length r = Z.to_nat (2 ^ n) ->
  (Z.to_nat (2 * p) <= length params)%nat ->
  exists s,
    cost_function (H_operator (real_vec r)) n p params
    = Ok (- cabs2 (inner (real_vec r) s), s)
    /\ length s = length r /\ norm2 s = 1.
Proof.
  intros Hn Hunit Hr Hp; unfold cost_function.
  rewrite plus_state_ok by exact Hn; cbn [bind].
  destruct (layers_rank1 r n params Hn Hunit Hr (Z.to_nat p) 0
              (real_vec (plus_amplitudes n))) as (s & E & Hl & Hn2).
  { lia. }
  { unfold real_vec; rewrite length_map, length_plus_amplitudes.
    symmetry; exact Hr. }
  unfold range; rewrite E; cbn [bind].
  assert (Hl' : length s = length (real_vec r))
    by (unfold real_vec; rewrite length_map; exact Hl).
  rewrite np_dot_mv_H by exact Hl'; cbn [bind].
  rewrite np_dot_vv_conj_neg_scaled by exact Hl'; cbn [bind].
  exists s; repeat split.
  - f_equal; f_equal.
    unfold inner; rewrite vconj_real_vec, dotsum_conj_real.
    unfold cabs2; simpl; ring.
  - exact Hl.
  - rewrite Hn2, norm2_real_vec.
    apply unit_plus_amplitudes; exact Hn.
Qed.

Lemma cabs2_inner_le (r : list R) (s : vec) :
  unit_real r -> length s = length r -> norm2 s = 1 ->
  0 <= cabs2 (inner (real_vec r) s) <= 1.
Proof.
  intros Hunit Hlen Hs; split; [ apply cabs2_nonneg | ].
  unfold inner; rewrite vconj_real_vec, <- Hs.
  apply cabs2_dotsum_le; assumption.
Qed.

(* ================================================================== *)
(** * The claims *)

Lemma norm_basis_2 : norm (real_vec [1; 0]) = 1.
Proof.
  apply norm_one; rewrite norm2_real_vec; simpl; ring.
Qed.

Lemma norm_complex_basis_2 : norm [c1; c0] = 1.
Proof.
  apply norm_one; unfold norm2, cabs2; simpl; ring.
Qed.

(** ** C1 *)

(** C1, amended.  For every [n >= 1], every depth [p >= 1], every real
    unit-norm target [t] of length [2^n] and every angle vector of length
    [2p], [cost_function(H_operator(t), n, p, params)] returns, and the
    cost, its first component, lies in [[-1, 0]]. *)
Theorem cost_in_range (n p : Z) (t params : list R) :
  (1 <= n)%Z -> (1 <= p)%Z ->
  length t = Z.to_nat (2 ^ n) -> norm (real_vec t) = 1 ->
  length params = Z.to_nat (2 * p) ->
  exists c s,
    cost_function (H_operator (real_vec t)) n p params = Ok (c, s)
    /\ -1 <= c <= 0.
Proof.
  intros Hn Hp Ht Hunit Hparams.
  apply unit_real_of_norm in Hunit.
  destruct (cost_function_rank1 t n p params) as (s & E & Hl & Hs);
    try assumption; try lia.
  exists (- cabs2 (inner (real_vec t) s)), s; split; [ exact E | ].
  pose proof (cabs2_inner_le t s Hunit Hl Hs); lra.
Qed.

Lemma cost_in_range_witness :
  exists c s,
    cost_function (H_operator (real_vec [1; 0])) 1 1 [0; 0] = Ok (c, s)
    /\ -1 <= c <= 0.
Proof.
  apply (cost_in_range 1 1 [1; 0] [0; 0]);
    [ lia | lia | reflexivity | exact norm_basis_2 | reflexivity ].
Defined.

(** ** C2 *)

(** C2, amended.  On the generators that the builders return for real
    vectors (the marking generator of a real unit-norm target [t] of length
    [2^n], the driver generator of [B_operator(n)]), one application of
    [qaoa_step] to a unit-norm state returns a state of unit norm (so
    within [1e-9] of one); hence for every depth [p] and every angle vector
    that has the [2p] angles, the final state returned by [cost_function]
    has unit norm. *)
Theorem propagation_keeps_unit_norm (n : Z) (t : list R) (s : vec)
  (a b : R) :
  (0 <= n)%Z ->
  length t = Z.to_nat (2 ^ n) -> norm (real_vec t) = 1 ->
  length s = Z.to_nat (2 ^ n) -> norm s = 1 ->
  (exists s',
      qaoa_step s (H_operator (real_vec t)) n [a; b] = Ok s'
      /\ norm s' = 1 /\ Rabs (norm s' - 1) <= 1e-9)
  /\ (forall (p : Z) (params : list R),
        (Z.to_nat (2 * p) <= length params)%nat ->
        exists c s',
          cost_function (H_operator (real_vec t)) n p params = Ok (c, s')
          /\ norm s' = 1 /\ Rabs (norm s' - 1) <= 1e-9).
Proof.
  intros Hn Ht Hunit Hs Hnorm.
  apply unit_real_of_norm in Hunit.
  assert (Hclose : forall v, norm v = 1 -> Rabs (norm v - 1) <= 1e-9).
  { intros v ->; rewrite Rminus_diag, Rabs_R0; lra. }
  split.
  - exists (rotate (plus_amplitudes n) b (rotate t a s)).
    assert (Hst : length s = length t) by congruence.
    split; [ apply qaoa_step_rank1; assumption | ].
    assert (Hone : norm (rotate (plus_amplitudes n) b (rotate t a s)) = 1).
    { apply norm_one; rewrite !norm2_rotate.
      - apply norm_one; exact Hnorm.
      - exact Hunit.
      - exact Hst.
      - apply unit_plus_amplitudes; exact Hn.
      - rewrite length_rotate, length_plus_amplitudes by exact Hst.
        exact Hs. }
    split; [ exact Hone | apply Hclose; exact Hone ].
  - intros p params Hp.
    destruct (cost_function_rank1 t n p params) as (s' & E & Hl & Hs');
      try assumption.
    exists (- cabs2 (inner (real_vec t) s')), s'.
    assert (Hone : norm s' = 1) by (apply norm_one; exact Hs').
    repeat split; [ exact E | exact Hone | apply Hclose; exact Hone ].
Qed.

Lemma propagation_keeps_unit_norm_witness :
  (exists s',
      qaoa_step [c1; c0] (H_operator (real_vec [1; 0])) 1 [PI; PI] = Ok s'
      /\ norm s' = 1 /\ Rabs (norm s' - 1) <= 1e-9)
  /\ (exists c s',
        cost_function (H_operator (real_vec [1; 0])) 1 2 [PI; PI; 0; 1]
        = Ok (c, s')
        /\ norm s' = 1 /\ Rabs (norm s' - 1) <= 1e-9).
Proof.
  destruct (propagation_keeps_unit_norm 1 [1; 0] [c1; c0] PI PI)
    as [Hstep Hcost];
    [ lia | reflexivity | exact norm_basis_2 | reflexivity
    | exact norm_complex_basis_2 | ].
  split; [ exact Hstep | ].
  apply (Hcost 2%Z [PI; PI; 0; 1]); simpl; lia.
Defined.

(** ** C4 *)

(** C4, as stated, fails at the complex unit vector [(1j, 0)]: [np.outer]
    conjugates nothing, so [H_operator] returns [diag(1, 0)], which is not
    [- v v^H = diag(-1, 0)], and [v] is an eigenvector for [+1]. *)
Lemma complex_generator_counterexample :
  norm [cj; c0] = 1
  /\ H_operator [cj; c0] <> neg_outer_conj [cj; c0]
  /\ np_dot_mv (H_operator [cj; c0]) [cj; c0] = Ok [cj; c0]
  /\ ~ projector_generator (H_operator [cj; c0]) [cj; c0].
Proof.
  assert (Hne : H_operator [cj; c0] <> neg_outer_conj [cj; c0]).
  { intros E; apply (f_equal (fun M => re (entry M 0 0))) in E.
    cbn in E; lra. }
  split; [ | split; [ exact Hne | split ] ].
  - apply norm_one; unfold norm2, cabs2; simpl; ring.
  - unfold np_dot_mv, H_operator, mat_neg, np_outer, dotsum, lsum.
    cbn [map forallb length Nat.eqb andb combine fold_right fst snd].
    f_equal; repeat f_equal; apply complex_eq; simpl; ring.
  - intros (_ & _ & E & _); exact (Hne E).
Qed.

(** C4, amended.  For every real unit-norm vector [v] of length [N],
    [H_operator(v)] is the [N] x [N] matrix [- v v^H]; it is Hermitian, [v]
    is an eigenvector for [-1], every eigenvector for a non-zero eigenvalue
    is a multiple of [v] and its eigenvalue is [-1], and every vector
    orthogonal to [v] is sent to zero.  The same holds of the driver
    generator [B_operator(n)], [n >= 0], for the uniform state
    [plus_state(n)]. *)
Theorem generator_of_real_unit_vector :
  (forall r : list R,
      norm (real_vec r) = 1 ->
      projector_generator (H_operator (real_vec r)) (real_vec r))
  /\ (forall n : Z,
        (0 <= n)%Z ->
        exists u B,
          plus_state n = Ok u /\ B_operator n = Ok B
          /\ projector_generator B u).
Proof.
  split.
  - intros r Hunit; apply projector_generator_real.
    apply unit_real_of_norm; exact Hunit.
  - intros n Hn.
    exists (real_vec (plus_amplitudes n)),
      (H_operator (real_vec (plus_amplitudes n))).
    split; [ apply plus_state_ok; exact Hn | ].
    split; [ apply B_operator_ok; exact Hn | ].
    apply projector_generator_real, unit_plus_amplitudes; exact Hn.
Qed.

Lemma generator_of_real_unit_vector_witness :
  projector_generator (H_operator (real_vec [1; 0])) (real_vec [1; 0])
  /\ exists u B,
       plus_state 2 = Ok u /\ B_operator 2 = Ok B /\ projector_generator B u.
Proof.
  split.
  - apply (proj1 generator_of_real_unit_vector [1; 0]); exact norm_basis_2.
  - apply (proj2 generator_of_real_unit_vector 2%Z); lia.
Defined.

(** ** C7 *)




(** ** C6 *)

Lemma rotate_zero_angle_basis : rotate [1; 0] 0 [c1; c0] = [c1; c0].
Proof.
  unfold rotate, axpy, dotsum, lsum, real_vec, cis.
  cbn [map combine fold_right fst snd]; rewrite cos_0, sin_0.
  repeat f_equal; apply complex_eq; simpl; ring.
Qed.

Lemma rotate_pi_basis : rotate [1; 0] PI [c1; c0] = [(- c1)%cpx; c0].
Proof.
  unfold rotate, axpy, dotsum, lsum, real_vec, cis.
  cbn [map combine fold_right fst snd]; rewrite cos_PI, sin_PI.
  repeat f_equal; apply complex_eq; simpl; ring.
Qed.

Lemma rotate_pi_plus : rotate (plus_amplitudes 1) PI [c1; c0] = [c0; (- c1)%cpx].
Proof.
  change (plus_amplitudes 1) with [1 / sqrt 2; 1 / sqrt 2].
  assert (Hs : sqrt 2 * sqrt 2 = 2) by (apply sqrt_sqrt; lra).
  assert (Hq : (1 / sqrt 2) * (1 / sqrt 2) = 1 / 2).
  { assert (Hs0 : sqrt 2 <> 0) by (intros E; rewrite E in Hs; lra).
    replace (1 / 2) with (1 / (sqrt 2 * sqrt 2)) by (rewrite Hs; reflexivity).
    field; exact Hs0. }
  set (q := 1 / sqrt 2) in *; clearbody q.
  unfold rotate, axpy, dotsum, lsum, real_vec, cis.
  cbn [map combine fold_right fst snd]; rewrite cos_PI, sin_PI.
  repeat f_equal; apply complex_eq; simpl; nra.
Qed.

(** C6, as stated, fails: [qaoa_step] has no parameter for the driver
    generator, so a driver the caller holds is not applied.  With
    [G = H_operator((1, 0))] for both of the specification's generators, the
    state [(1, 0)], one qubit and the angles [(0, pi)], the specification's
    propagator gives [(-1, 0)], the code [(0, -1)]. *)
Lemma supplied_driver_counterexample :
  qaoa_step [c1; c0] (H_operator (real_vec [1; 0])) 1 [0; PI]
    = Ok [c0; (- c1)%cpx]
  /\ propagate_spec [c1; c0] (H_operator (real_vec [1; 0]))
       (H_operator (real_vec [1; 0])) 0 PI
     = Ok [(- c1)%cpx; c0]
  /\ qaoa_step [c1; c0] (H_operator (real_vec [1; 0])) 1 [0; PI]
     <> propagate_spec [c1; c0] (H_operator (real_vec [1; 0]))
          (H_operator (real_vec [1; 0])) 0 PI.
Proof.
  pose proof (unit_real_of_norm _ norm_basis_2) as Hunit.
  assert (Hcode : qaoa_step [c1; c0] (H_operator (real_vec [1; 0])) 1 [0; PI]
                  = Ok [c0; (- c1)%cpx]).
  { rewrite qaoa_step_rank1; [ | lia | exact Hunit | reflexivity | reflexivity ].
    rewrite rotate_zero_angle_basis, rotate_pi_plus; reflexivity. }
  assert (Hspec : propagate_spec [c1; c0] (H_operator (real_vec [1; 0]))
                    (H_operator (real_vec [1; 0])) 0 PI
                  = Ok [(- c1)%cpx; c0]).
  { unfold propagate_spec, H_operator.
    rewrite !la_expm_rank1 by exact Hunit; cbn [bind].
    rewrite np_dot_mv_rank1_rot by reflexivity; cbn [bind].
    fold (rotate [1; 0] 0 [c1; c0]); rewrite rotate_zero_angle_basis.
    rewrite np_dot_mv_rank1_rot by reflexivity.
    fold (rotate [1; 0] PI [c1; c0]); rewrite rotate_pi_basis; reflexivity. }
  split; [ exact Hcode | split; [ exact Hspec | ] ].
  rewrite Hcode, Hspec; intros E.
  injection E as E _; cbn in E; lra.
Qed.

(** C6, amended.  [qaoa_step] takes the current state [s], a supplied
    marking generator [G1], the qubit count [n] and the angles [(a, b)].
    The driver generator is not supplied: every call derives it from [n], as
    [B_operator(n) = - u u^T] for the uniform state [u = plus_state(n)].
    The result is [exp(-i b B_operator(n)) . exp(-i a G1) . s]. *)
Theorem qaoa_step_rederives_driver (s : vec) (G1 : mat) (n : Z) (a b : R) :
  (0 <= n)%Z ->
  exists u,
    plus_state n = Ok u
    /\ B_operator n = Ok (mat_neg (np_outer u u))
    /\ qaoa_step s G1 n [a; b]
       = propagate_spec s G1 (mat_neg (np_outer u u)) a b.
Proof.
  intros Hn; exists (real_vec (plus_amplitudes n)).
  split; [ apply plus_state_ok; exact Hn | ].
  split; [ apply B_operator_ok; exact Hn | ].
  unfold qaoa_step; rewrite B_operator_ok by exact Hn; reflexivity.
Qed.

Lemma qaoa_step_rederives_driver_witness :
  exists u,
    plus_state 1 = Ok u
    /\ B_operator 1 = Ok (mat_neg (np_outer u u))
    /\ qaoa_step [c1; c0] (H_operator (real_vec [1; 0])) 1 [0; PI]
       = propagate_spec [c1; c0] (H_operator (real_vec [1; 0]))
           (mat_neg (np_outer u u)) 0 PI.
Proof.
  apply (qaoa_step_rederives_driver [c1; c0] (H_operator (real_vec [1; 0]))
           1 0 PI); lia.
Defined.

(** ** C10 *)

Lemma getitem_firstn {A : Type} (l : list A) (k i : nat) :
  (i < k)%nat -> getitem (firstn k l) i = getitem l i.
Proof.
  intros Hi; unfold getitem; rewrite nth_error_firstn.
  replace (i <? k)%nat with true by (symmetry; apply Nat.ltb_lt; exact Hi).
  reflexivity.
Qed.

Lemma for_each_ext {S : Type} (l : list nat)
  (body body' : nat -> S -> result S) (s : S) :
  (forall i st, In i l -> body i st = body' i st) ->
  for_each l body s = for_each l body' s.
Proof.
  revert s; induction l as [ | i l IH ]; intros s Hext.
  - reflexivity.
  - cbn [for_each]; rewrite (Hext i s (or_introl eq_refl)).
    destruct (body' i s) as [s' | e]; cbn [bind]; [ | reflexivity ].
    apply IH; intros k st Hk; apply Hext; right; exact Hk.
Qed.

(** A loop over [range(p)] that reads the angles [2i] and [2i+1] of round
    [i] sees the first [2p] angles only. *)
Lemma layers_firstn {S : Type} (step : S -> list R -> result S)
  (params : list R) (p : Z) (s : S) :
  for_each (range p)
    (fun i st =>
       a <- getitem params (2 * i) ;;
       b <- getitem params (2 * i + 1) ;;
       step st [a; b]) s
  = for_each (range p)
      (fun i st =>
         a <- getitem (firstn (Z.to_nat (2 * p)) params) (2 * i) ;;
         b <- getitem (firstn (Z.to_nat (2 * p)) params) (2 * i + 1) ;;
         step st [a; b]) s.
Proof.
  apply for_each_ext; intros i st Hi.
  unfold range in Hi; apply in_seq in Hi.
  rewrite !getitem_firstn by lia; reflexivity.
Qed.

Lemma cost_function_firstn (H : mat) (n p : Z) (params : list R) :
  cost_function H n p params
  = cost_function H n p (firstn (Z.to_nat (2 * p)) params).
Proof.
  unfold cost_function.
  destruct (plus_state n) as [s | e]; cbn [bind]; [ | reflexivity ].
  rewrite (layers_firstn (fun st ab => qaoa_step st H n ab)); reflexivity.
Qed.

Lemma F_function_firstn {L : Qit.Library} (target : Qit.state) (n p : Z)
  (params : list R) :
  Qit.F_function target n p params
  = Qit.F_function target n p (firstn (Z.to_nat (2 * p)) params).
Proof.
  unfold Qit.F_function.
  destruct (Qit.initial_state n) as [s | e]; cbn [bind]; [ | reflexivity ].
  rewrite (layers_firstn (fun st ab => Qit.qaoa_step st target n ab)).
  reflexivity.
Qed.

(** *** [cost_function] raises nothing on well-shaped arguments *)

Lemma is_square_rows (A : mat) (row : list complex) :
  is_square A = true -> In row A -> length row = length A.
Proof.
  unfold is_square; rewrite forallb_forall; intros Hsq Hin.
  apply Nat.eqb_eq, Hsq; exact Hin.
Qed.

Lemma is_square_scal (z : complex) (A : mat) :
  is_square A = true -> is_square (scal_mat z A) = true.
Proof.
  intros Hsq; unfold is_square, scal_mat.
  rewrite length_map; apply forallb_forall; intros row Hin.
  apply in_map_iff in Hin; destruct Hin as (row' & <- & Hin).
  rewrite length_map; apply Nat.eqb_eq.
  apply is_square_rows; assumption.
Qed.

Lemma length_tabulate (N : nat) (f : nat -> nat -> complex) :
  length (tabulate N f) = N.
Proof. unfold tabulate; rewrite length_map; apply length_seq. Qed.

Lemma np_dot_mv_square (A : mat) (s : vec) :
  is_square A = true -> length s = length A ->
  exists s', np_dot_mv A s = Ok s' /\ length s' = length A.
Proof.
  intros Hsq Hlen; unfold np_dot_mv.
  replace (forallb _ A) with true.
  - eexists; split; [ reflexivity | apply length_map ].
  - symmetry; apply forallb_forall; intros row Hin.
    rewrite Hlen; apply Nat.eqb_eq, is_square_rows; assumption.
Qed.

Lemma is_square_tabulate (N : nat) (f : nat -> nat -> complex) :
  is_square (tabulate N f) = true.
Proof.
  unfold is_square; rewrite length_tabulate; unfold tabulate.
  apply forallb_map_const; intros i.
  rewrite length_map, length_seq; apply Nat.eqb_refl.
Qed.

(** [expm(z * A).dot(s)] returns for a square [A] and a state of its
    size. *)
Lemma expm_dot_total (z : complex) (A : mat) (s : vec) :
  is_square A = true -> length s = length A ->
  exists s',
    (U <- la_expm (scal_mat z A) ;; np_dot_mv U s) = Ok s'
    /\ length s' = length A.
Proof.
  intros Hsq Hlen; unfold la_expm.
  rewrite is_square_scal by exact Hsq; cbn [bind].
  assert (HN : length (scal_mat z A) = length A)
    by (unfold scal_mat; apply length_map).
  rewrite HN.
  destruct (np_dot_mv_square
              (tabulate (length A) (exp_entry (length A) (entry (scal_mat z A))))
              s) as (s' & E & Hl).
  - apply is_square_tabulate.
  - rewrite length_tabulate; exact Hlen.
  - exists s'; split; [ exact E | ].
    rewrite Hl; apply length_tabulate.
Qed.

Lemma qaoa_step_total (H : mat) (n : Z) (s : vec) (a b : R) :
  (0 <= n)%Z -> is_square H = true ->
  length H = Z.to_nat (2 ^ n) -> length s = Z.to_nat (2 ^ n) ->
  exists s', qaoa_step s H n [a; b] = Ok s'
             /\ length s' = Z.to_nat (2 ^ n).
Proof.
  intros Hn Hsq HH Hs; unfold qaoa_step.
  rewrite B_operator_ok by exact Hn; cbn [bind getitem nth_error].
  destruct (expm_dot_total (- cj * RtoC a)%cpx H s) as (s1 & E1 & L1);
    [ exact Hsq | congruence | ].
  destruct (la_expm (scal_mat (- cj * RtoC a)%cpx H)) as [U | e];
    cbn [bind] in E1 |- *; [ | discriminate ].
  rewrite E1; cbn [bind].
  set (B := H_operator (real_vec (plus_amplitudes n))).
  assert (HB : length B = Z.to_nat (2 ^ n)).
  { unfold B; rewrite length_H_operator.
    unfold real_vec; rewrite length_map; apply length_plus_amplitudes. }
  destruct (expm_dot_total (- cj * RtoC b)%cpx B s1) as (s2 & E2 & L2).
  - apply is_square_H_operator.
  - congruence.
  - exists s2; split; [ exact E2 | congruence ].
Qed.

Lemma layers_total (H : mat) (n : Z) (params : list R) :
  (0 <= n)%Z -> is_square H = true -> length H = Z.to_nat (2 ^ n) ->
  forall (count i : nat) (s : vec),
    (2 * (i + count) <= length params)%nat ->
    length s = Z.to_nat (2 ^ n) ->
    exists s',
      for_each (seq i count)
        (fun i st =>
           a <- getitem params (2 * i) ;;
           b <- getitem params (2 * i + 1) ;;
           qaoa_step st H n [a; b]) s = Ok s'
      /\ length s' = Z.to_nat (2 ^ n).
Proof.
  intros Hn Hsq HH count.
  induction count as [ | count IH ]; intros i s Hlen Hs.
  - exists s; split; [ reflexivity | exact Hs ].
  - cbn [seq for_each].
    destruct (getitem_ok params (2 * i)) as [a ->]; [ lia | ].
    destruct (getitem_ok params (2 * i + 1)) as [b ->]; [ lia | ].
    cbn [bind].
    destruct (qaoa_step_total H n s a b Hn Hsq HH Hs) as (s1 & -> & L1).
    cbn [bind]; apply IH; [ lia | exact L1 ].
Qed.

Lemma cost_function_total (H : mat) (n p : Z) (params : list R) :
  (0 <= n)%Z -> is_square H = true -> length H = Z.to_nat (2 ^ n) ->
  (Z.to_nat (2 * p) <= length params)%nat ->
  exists c s, cost_function H n p params = Ok (c, s).
Proof.
  intros Hn Hsq HH Hp; unfold cost_function.
  rewrite plus_state_ok by exact Hn; cbn [bind].
  destruct (layers_total H n params Hn Hsq HH (Z.to_nat p) 0
              (real_vec (plus_amplitudes n))) as (s & E & Hl).
  { lia. }
  { unfold real_vec; rewrite length_map; apply length_plus_amplitudes. }
  unfold range; rewrite E; cbn [bind].
  destruct (np_dot_mv_square H s Hsq) as (Hs & -> & LHs); [ congruence | ].
  cbn [bind]; unfold np_dot_vv, vconj.
  rewrite length_map.
  replace (length s =? length Hs)%nat with true
    by (symmetry; apply Nat.eqb_eq; congruence).
  cbn [bind]; eexists; eexists; reflexivity.
Qed.

(** C10.  For every depth [p >= 1] and any two angle sequences that agree on
    their first [2p] entries, the evaluator ([cost_function], and
    [F_function] of the qit notebook alike) returns the same
    [(cost, final_state)]: the entries from index [2p] on are never read.
    An angle vector longer than [2p] causes no error: on a square generator
    of size [2^n] the call returns. *)
Theorem evaluator_reads_first_2p_angles (H : mat) (n p : Z)
  (params params' : list R) :
  (1 <= p)%Z ->
  firstn (Z.to_nat (2 * p)) params = firstn (Z.to_nat (2 * p)) params' ->
  cost_function H n p params = cost_function H n p params'
  /\ (forall (L : Qit.Library) (target : Qit.state),
        Qit.F_function target n p params = Qit.F_function target n p params')
  /\ ((0 <= n)%Z -> is_square H = true -> length H = Z.to_nat (2 ^ n) ->
      (Z.to_nat (2 * p) <= length params)%nat ->
      exists c s, cost_function H n p params = Ok (c, s)).
Proof.
  intros _ Hagree; split; [ | split ].
  - rewrite (cost_function_firstn H n p params), Hagree.
    symmetry; apply cost_function_firstn.
  - intros L target.
    rewrite (F_function_firstn target n p params), Hagree.
    symmetry; apply F_function_firstn.
  - apply cost_function_total.
Qed.

Lemma evaluator_reads_first_2p_angles_witness :
  cost_function (H_operator (real_vec [1; 0])) 1 1 [0; PI; 1; 2; 3]
  = cost_function (H_operator (real_vec [1; 0])) 1 1 [0; PI]
  /\ exists c s,
       cost_function (H_operator (real_vec [1; 0])) 1 1 [0; PI; 1; 2; 3]
       = Ok (c, s).
Proof.
  destruct (evaluator_reads_first_2p_angles
              (H_operator (real_vec [1; 0])) 1 1 [0; PI; 1; 2; 3] [0; PI])
    as (E & _ & T); [ lia | reflexivity | ].
  split; [ exact E | ].
  apply T; [ lia | reflexivity | reflexivity | simpl; lia ].
Defined.

(** ** C5 and C8: the depth sweep of the qit notebook *)

Section Sweep.

Context {L : Qit.Library}.

Variable basinhopping :
  (list R -> result R) -> list R -> list (R * R) -> result (list R).

Variable target : Qit.state.
Variable n : Z.

(** The loop of [calc_n_p], with its accumulators, against the recursion of
    the specification. *)
Lemma calc_rounds_unfold (count first : nat) (params fids : list R)
  (ps : list Z) :
  (st <- for_each (seq first count) (Qit.calc_round basinhopping target n)
           (params, fids, ps) ;;
   let '(_, qaoa_approximation, p_array) := st in
   Ok (qaoa_approximation, p_array))
  = (recs <- Qit.sweep_spec basinhopping target n first count params ;;
     Ok (fids ++ map snd recs, ps ++ map fst recs)).
Proof.
  revert first params fids ps.
  induction count as [ | count IH ]; intros first params fids ps.
  - cbn [seq for_each Qit.sweep_spec bind map]; rewrite !app_nil_r.
    reflexivity.
  - cbn [seq for_each Qit.sweep_spec].
    unfold Qit.calc_round at 1.
    destruct (Qit.get_params basinhopping target n (Z.of_nat first) params)
      as [angles | e]; cbn [bind]; [ | reflexivity ].
    destruct (Qit.F_function target n (Z.of_nat first) angles)
      as [fs | e]; cbn [bind]; [ | reflexivity ].
    destruct (Qit.fidelity target (snd fs)) as [f | e]; cbn [bind];
      [ | reflexivity ].
    rewrite IH.
    destruct (Qit.sweep_spec basinhopping target n (S first) count
                (angles ++ [0; 0])) as [recs | e]; cbn [bind];
      [ | reflexivity ].
    cbn [map fst snd]; rewrite <- !app_assoc; reflexivity.
Qed.

Lemma calc_n_p_unfold (P : Z) :
  Qit.calc_n_p basinhopping target n P
  = (recs <- Qit.sweep_spec basinhopping target n 1 (Z.to_nat P)
               [0.5 * PI; 0.5 * PI] ;;
     Ok (map snd recs, map fst recs)).
Proof.
  unfold Qit.calc_n_p, range_from.
  replace (Z.to_nat (P + 1 - 1)) with (Z.to_nat P) by (f_equal; lia).
  change (Z.to_nat 1) with 1%nat.
  apply (calc_rounds_unfold (Z.to_nat P) 1 [0.5 * PI; 0.5 * PI] [] []).
Qed.

Lemma sweep_spec_depths (count first : nat) (w0 : list R)
  (recs : list (Z * R)) :
  Qit.sweep_spec basinhopping target n first count w0 = Ok recs ->
  map fst recs = map Z.of_nat (seq first count).
Proof.
  revert first w0 recs.
  induction count as [ | count IH ]; intros first w0 recs E.
  - cbn in E; injection E as <-; reflexivity.
  - cbn [Qit.sweep_spec] in E.
    destruct (Qit.get_params _ _ _ _ _) as [angles | e]; cbn [bind] in E;
      [ | discriminate ].
    destruct (Qit.F_function _ _ _ _) as [fs | e]; cbn [bind] in E;
      [ | discriminate ].
    destruct (Qit.fidelity _ _) as [f | e]; cbn [bind] in E;
      [ | discriminate ].
    destruct (Qit.sweep_spec _ _ _ _ _ _) as [rest | e] eqn:Erest;
      cbn [bind] in E; [ | discriminate ].
    injection E as <-; cbn [map fst seq]; f_equal.
    apply (IH _ _ _ Erest).
Qed.

Lemma running_from_shift (first k : nat) (w0 : list R) :
  Qit.running_from basinhopping target n first w0 (S k)
  = (angles <- Qit.get_params basinhopping target n (Z.of_nat first) w0 ;;
     Qit.running_from basinhopping target n (S first)
       (angles ++ [0; 0]) k).
Proof.
  induction k as [ | k IH ].
  - cbn [Qit.running_from bind]; rewrite Nat.add_0_r.
    destruct (Qit.get_params _ _ _ _ _); reflexivity.
  - change (Qit.running_from basinhopping target n first w0 (S (S k)))
      with (w <- Qit.running_from basinhopping target n first w0 (S k) ;;
            angles <- Qit.get_params basinhopping target n
                        (Z.of_nat (first + S k)) w ;;
            Ok (angles ++ [0; 0])).
    rewrite IH.
    destruct (Qit.get_params basinhopping target n (Z.of_nat first) w0)
      as [angles | e]; cbn [bind]; [ | reflexivity ].
    cbn [Qit.running_from].
    replace (S first + k)%nat with (first + S k)%nat by lia; reflexivity.
Qed.

(** Whatever is recorded at a depth is the fidelity at the angles the
    optimizer returned there. *)
Lemma sweep_spec_nth (count first : nat) (w0 : list R)
  (recs : list (Z * R)) :
  Qit.sweep_spec basinhopping target n first count w0 = Ok recs ->
  forall k, (k < count)%nat ->
    exists w angles fs f,
      Qit.running_from basinhopping target n first w0 k = Ok w
      /\ Qit.get_params basinhopping target n (Z.of_nat (first + k)) w
         = Ok angles
      /\ Qit.F_function target n (Z.of_nat (first + k)) angles = Ok fs
      /\ Qit.fidelity target (snd fs) = Ok f
      /\ nth k (map snd recs) 0 = f ^ 2
      /\ Qit.running_from basinhopping target n first w0 (S k)
         = Ok (angles ++ [0; 0]).
Proof.
  revert first w0 recs.
  induction count as [ | count IH ]; intros first w0 recs E k Hk; [ lia | ].
  cbn [Qit.sweep_spec] in E.
  destruct (Qit.get_params basinhopping target n (Z.of_nat first) w0)
    as [angles | e] eqn:Eg; cbn [bind] in E; [ | discriminate ].
  destruct (Qit.F_function target n (Z.of_nat first) angles)
    as [fs | e] eqn:EF; cbn [bind] in E; [ | discriminate ].
  destruct (Qit.fidelity target (snd fs)) as [f | e] eqn:Ef;
    cbn [bind] in E; [ | discriminate ].
  destruct (Qit.sweep_spec basinhopping target n (S first) count
              (angles ++ [0; 0])) as [rest | e] eqn:Erest;
    cbn [bind] in E; [ | discriminate ].
  injection E as <-.
  destruct k as [ | k ].
  - exists w0, angles, fs, f.
    rewrite Nat.add_0_r; cbn [Qit.running_from bind].
    rewrite Nat.add_0_r, Eg; cbn [bind].
    repeat split; assumption || reflexivity.
  - destruct (IH _ _ _ Erest k ltac:(lia))
      as (w & angles' & fs' & f' & Hw & Hg & HF & Hf & Hnth & Hnext).
    exists w, angles', fs', f'.
    replace (first + S k)%nat with (S first + k)%nat by lia.
    split; [ rewrite running_from_shift, Eg; exact Hw | ].
    do 4 (split; [ assumption | ]).
    rewrite running_from_shift, Eg; exact Hnext.
Qed.

End Sweep.

(** *** The sweep on kets, one qubit, target [|0>] *)

Lemma kets_C_operator (r : list R) (n : Z) :
  Qit.data (Qit.C_operator (L := kets) (real_vec r) n)
  = H_operator (real_vec r).
Proof.
  unfold Qit.C_operator; cbn [Qit.data Qit.rmul Qit.projector kets].
  rewrite vconj_real_vec.
  unfold H_operator, scal_mat, mat_neg; apply map_ext; intros row.
  apply map_ext; intros z; apply complex_eq; simpl; ring.
Qed.

Lemma kets_initial_state_1 :
  Qit.initial_state (L := kets) 1 = Ok (real_vec (plus_amplitudes 1)).
Proof.
  unfold Qit.initial_state.
  cbn [Qit.add Qit.ket Qit.div Qit.tensor kets].
  change (basis_ket [false]) with [c1; c0].
  change (basis_ket [true]) with [c0; c1].
  change (ket_add [c1; c0] [c0; c1]) with (Ok [(c1 + c0)%cpx; (c0 + c1)%cpx]).
  cbn [bind]; change (range_from 1 1) with (@nil nat); cbn [for_each map].
  change (plus_amplitudes 1) with [1 / sqrt 2; 1 / sqrt 2].
  assert (Hs : sqrt 2 * sqrt 2 = 2) by (apply sqrt_sqrt; lra).
  assert (Hs0 : sqrt 2 <> 0) by (intros E; rewrite E in Hs; lra).
  unfold real_vec; cbn [map].
  repeat f_equal; apply complex_eq; simpl; field; exact Hs0.
Qed.

Lemma kets_B_operator_1 :
  Qit.B_operator (L := kets) 1
  = Ok (H_operator (real_vec (plus_amplitudes 1))).
Proof.
  unfold Qit.B_operator; rewrite kets_initial_state_1; cbn [bind].
  f_equal; apply (kets_C_operator (plus_amplitudes 1) 1).
Qed.

Lemma kets_qaoa_step_1 (r : list R) (s : vec) (a b : R) :
  unit_real r -> length r = 2%nat -> length s = 2%nat ->
  Qit.qaoa_step (L := kets) s (real_vec r) 1 [a; b]
  = Ok (rotate (plus_amplitudes 1) b (rotate r a s)).
Proof.
  intros Hunit Hr Hs; unfold Qit.qaoa_step.
  cbn [getitem nth_error bind].
  rewrite kets_C_operator.
  cbn [Qit.propagate kets]; unfold ket_propagate.
  rewrite expm_dot_rank1 by (assumption || congruence); cbn [bind].
  rewrite kets_B_operator_1; cbn [bind].
  cbn [Qit.data kets].
  apply expm_dot_rank1.
  - apply unit_plus_amplitudes; lia.
  - rewrite length_rotate by congruence; exact Hs.
Qed.

Lemma kets_ev_C_operator (r : list R) (n : Z) (s : vec) :
  length s = length r ->
  @Qit.ev kets s (Qit.data (Qit.C_operator (L := kets) (real_vec r) n))
  = Ok (- cabs2 (inner (real_vec r) s)).
Proof.
  intros Hlen; rewrite kets_C_operator.
  cbn [Qit.ev kets]; unfold ket_ev.
  assert (Hl : length s = length (real_vec r))
    by (unfold real_vec; rewrite length_map; exact Hlen).
  rewrite np_dot_mv_H by exact Hl; cbn [bind].
  rewrite np_dot_vv_conj_neg_scaled by exact Hl; cbn [bind].
  f_equal; unfold inner; rewrite vconj_real_vec, dotsum_conj_real.
  unfold cabs2; simpl; ring.
Qed.

Lemma kets_fidelity_squared (r : list R) (s : vec) :
  length s = length r ->
  exists f,
    @Qit.fidelity kets (real_vec r) s = Ok f
    /\ f ^ 2 = cabs2 (inner (real_vec r) s).
Proof.
  intros Hlen; cbn [Qit.fidelity kets]; unfold ket_fidelity, np_dot_vv.
  unfold vconj at 1; rewrite length_map.
  unfold real_vec at 1; rewrite length_map, <- Hlen, Nat.eqb_refl.
  cbn [bind]; eexists; split; [ reflexivity | ].
  unfold inner; simpl pow; rewrite Rmult_1_r.
  apply sqrt_sqrt, cabs2_nonneg.
Qed.

Lemma rotate_zero_angle (r : list R) (s : vec) :
  length s = length r -> rotate r 0 s = s.
Proof.
  intros Hlen; unfold rotate, axpy.
  replace (cis 0 - c1)%cpx with c0
    by (unfold cis; rewrite cos_0, sin_0; apply complex_eq; simpl; ring).
  set (k := (c0 * dotsum (real_vec r) s)%cpx).
  assert (Hk : k = c0) by (unfold k; ring).
  rewrite Hk; clear k Hk.
  revert r Hlen; induction s as [ | z s IH ]; intros r Hlen.
  - reflexivity.
  - destruct r as [ | y r ]; [ discriminate | ].
    injection Hlen as Hlen.
    change (real_vec (y :: r)) with (RtoC y :: real_vec r).
    cbn [combine map fst snd]; rewrite (IH r Hlen).
    f_equal; ring.
Qed.

Lemma rotate_half_pi_target (q : R) :
  rotate [1; 0] (PI / 2) (real_vec [q; q]) = [Cpx 0 q; RtoC q].
Proof.
  unfold rotate, axpy, dotsum, lsum, real_vec, cis.
  cbn [map combine fold_right fst snd]; rewrite cos_PI2, sin_PI2.
  repeat f_equal; apply complex_eq; simpl; ring.
Qed.

Lemma rotate_half_pi_plus (q : R) :
  q * q = 1 / 2 ->
  rotate [q; q] (PI / 2) [Cpx 0 q; RtoC q] = [Cpx (- q) q; c0].
Proof.
  intros Hq; unfold rotate, axpy, dotsum, lsum, real_vec, cis.
  cbn [map combine fold_right fst snd]; rewrite cos_PI2, sin_PI2.
  repeat f_equal; apply complex_eq; simpl; rewrite ?Hq; lra.
Qed.

Lemma half_sqrt2_squared : (1 / sqrt 2) * (1 / sqrt 2) = 1 / 2.
Proof.
  assert (Hs : sqrt 2 * sqrt 2 = 2) by (apply sqrt_sqrt; lra).
  assert (Hs0 : sqrt 2 <> 0) by (intros E; rewrite E in Hs; lra).
  replace (1 / 2) with (1 / (sqrt 2 * sqrt 2)) by (rewrite Hs; reflexivity).
  field; exact Hs0.
Qed.

(** The state after one layer at the angles [(pi/2, pi/2)], from the
    uniform state of one qubit and for the target [|0>]. *)
Lemma layer_half_pi :
  rotate (plus_amplitudes 1) (0.5 * PI)
    (rotate [1; 0] (0.5 * PI) (real_vec (plus_amplitudes 1)))
  = [Cpx (- (1 / sqrt 2)) (1 / sqrt 2); c0].
Proof.
  replace (0.5 * PI) with (PI / 2) by lra.
  change (plus_amplitudes 1) with [1 / sqrt 2; 1 / sqrt 2].
  rewrite rotate_half_pi_target.
  apply rotate_half_pi_plus, half_sqrt2_squared.
Qed.

Lemma unit_real_basis_2 : unit_real [1; 0].
Proof. exact (unit_real_of_norm _ norm_basis_2). Qed.

Lemma kets_F_function_depth_1 (a b : R) :
  Qit.F_function (L := kets) (real_vec [1; 0]) 1 1 [a; b]
  = let s := rotate (plus_amplitudes 1) b
               (rotate [1; 0] a (real_vec (plus_amplitudes 1))) in
    Ok (- cabs2 (inner (real_vec [1; 0]) s), s).
Proof.
  unfold Qit.F_function; rewrite kets_initial_state_1; cbn [bind].
  change (range 1) with [0%nat]; cbn [for_each Nat.mul Nat.add].
  cbn [getitem nth_error bind].
  rewrite kets_qaoa_step_1
    by (exact unit_real_basis_2 || reflexivity); cbn [bind].
  rewrite kets_ev_C_operator by reflexivity; reflexivity.
Qed.

Lemma kets_F_function_depth_2 (a b c d : R) :
  Qit.F_function (L := kets) (real_vec [1; 0]) 1 2 [a; b; c; d]
  = let s1 := rotate (plus_amplitudes 1) b
                (rotate [1; 0] a (real_vec (plus_amplitudes 1))) in
    let s := rotate (plus_amplitudes 1) d (rotate [1; 0] c s1) in
    Ok (- cabs2 (inner (real_vec [1; 0]) s), s).
Proof.
  unfold Qit.F_function; rewrite kets_initial_state_1; cbn [bind].
  change (range 2) with [0%nat; 1%nat]; cbn [for_each Nat.mul Nat.add].
  cbn [getitem nth_error bind].
  rewrite kets_qaoa_step_1
    by (exact unit_real_basis_2 || reflexivity); cbn [bind].
  rewrite kets_qaoa_step_1
    by (exact unit_real_basis_2 || reflexivity); cbn [bind].
  rewrite kets_ev_C_operator by reflexivity; reflexivity.
Qed.

Lemma overlap_after_half_pi :
  cabs2 (inner (real_vec [1; 0]) [Cpx (- (1 / sqrt 2)) (1 / sqrt 2); c0]) = 1.
Proof.
  pose proof half_sqrt2_squared as Hq.
  set (q := 1 / sqrt 2) in *; clearbody q.
  unfold cabs2, inner, dotsum, lsum, vconj, real_vec; simpl.
  ring_simplify; nra.
Qed.

Lemma overlap_of_uniform :
  cabs2 (inner (real_vec [1; 0]) (real_vec (plus_amplitudes 1))) = 1 / 2.
Proof.
  change (plus_amplitudes 1) with [1 / sqrt 2; 1 / sqrt 2].
  pose proof half_sqrt2_squared as Hq.
  set (q := 1 / sqrt 2) in *; clearbody q.
  unfold cabs2, inner, dotsum, lsum, vconj, real_vec; simpl.
  ring_simplify; nra.
Qed.

(** The run of [calc_n_p] on kets for one qubit, the target [|0>], two
    depths and the optimizer that returns the point it is started from,
    with what each depth sees. *)
Lemma half_pi_depth_1 :
  Qit.F_function (L := kets) (real_vec [1; 0]) 1 1 [0.5 * PI; 0.5 * PI]
  = Ok (-1, [Cpx (- (1 / sqrt 2)) (1 / sqrt 2); c0]).
Proof.
  rewrite kets_F_function_depth_1; cbv zeta.
  rewrite layer_half_pi, overlap_after_half_pi; reflexivity.
Qed.

Lemma half_pi_padded_depth_2 :
  Qit.F_function (L := kets) (real_vec [1; 0]) 1 2 [0.5 * PI; 0.5 * PI; 0; 0]
  = Ok (-1, [Cpx (- (1 / sqrt 2)) (1 / sqrt 2); c0]).
Proof.
  rewrite kets_F_function_depth_2; cbv zeta.
  rewrite layer_half_pi, !rotate_zero_angle by reflexivity.
  rewrite overlap_after_half_pi; reflexivity.
Qed.

Lemma idle_run :
  Qit.calc_n_p (L := kets) idle_optimizer (real_vec [1; 0]) 1 2
  = Ok ([1; 1], [1; 2]%Z).
Proof.
  rewrite calc_n_p_unfold; change (Z.to_nat 2) with 2%nat.
  cbn [Qit.sweep_spec].
  change (Z.of_nat 1) with 1%Z; change (Z.of_nat 2) with 2%Z.
  change (Qit.get_params (L := kets) idle_optimizer (real_vec [1; 0]) 1 1
            [0.5 * PI; 0.5 * PI]) with (Ok [0.5 * PI; 0.5 * PI]).
  cbn [bind]; rewrite half_pi_depth_1; cbn [bind snd].
  destruct (kets_fidelity_squared [1; 0]
              [Cpx (- (1 / sqrt 2)) (1 / sqrt 2); c0] eq_refl)
    as (f1 & -> & Hf1).
  cbn [bind]; rewrite Hf1, overlap_after_half_pi.
  change (Qit.get_params (L := kets) idle_optimizer (real_vec [1; 0]) 1 2
            ([0.5 * PI; 0.5 * PI] ++ [0; 0]))
    with (Ok [0.5 * PI; 0.5 * PI; 0; 0]).
  cbn [bind]; rewrite half_pi_padded_depth_2; cbn [bind snd].
  destruct (kets_fidelity_squared [1; 0]
              [Cpx (- (1 / sqrt 2)) (1 / sqrt 2); c0] eq_refl)
    as (f2 & -> & Hf2).
  cbn [bind]; rewrite Hf2, overlap_after_half_pi; reflexivity.
Qed.

(** ** C5 *)

(** C5, amended.  For every maximum depth [P >= 1] and target, [calc_n_p]
    of the qit notebook is the sweep of the specification: it keeps a
    running angle vector, seeded
    with [(pi/2, pi/2)]; for each [p] from [1] to [P] it calls the optimizer
    [get_params] with the running vector as warm start, records [p] and the
    fidelity with the target of the final state of [F_function] at the
    optimized angles, and continues with the optimized angles extended by
    two zero angles.  The depths it returns are [1 .. P], with one fidelity
    each. *)
Theorem calc_n_p_is_warm_started_sweep {L : Qit.Library}
  (basinhopping :
     (list R -> result R) -> list R -> list (R * R) -> result (list R))
  (target : Qit.state) (n P : Z) :
  (1 <= P)%Z ->
  Qit.calc_n_p basinhopping target n P
  = (recs <- Qit.sweep_spec basinhopping target n 1 (Z.to_nat P)
               [0.5 * PI; 0.5 * PI] ;;
     Ok (map snd recs, map fst recs))
  /\ (forall fids ps,
        Qit.calc_n_p basinhopping target n P = Ok (fids, ps) ->
        ps = map Z.of_nat (seq 1 (Z.to_nat P))
        /\ length fids = Z.to_nat P).
Proof.
  intros _; split; [ apply calc_n_p_unfold | ].
  intros fids ps E; rewrite calc_n_p_unfold in E.
  destruct (Qit.sweep_spec basinhopping target n 1 (Z.to_nat P)
              [0.5 * PI; 0.5 * PI]) as [recs | e] eqn:Es;
    cbn [bind] in E; [ | discriminate ].
  injection E as <- <-.
  pose proof (sweep_spec_depths basinhopping target n _ _ _ _ Es) as Hd.
  split; [ exact Hd | ].
  rewrite length_map, <- (length_map fst), Hd, length_map, length_seq.
  reflexivity.
Qed.

Lemma calc_n_p_is_warm_started_sweep_witness :
  Qit.calc_n_p (L := kets) idle_optimizer (real_vec [1; 0]) 1 2
  = (recs <- Qit.sweep_spec (L := kets) idle_optimizer (real_vec [1; 0])
               1 1 (Z.to_nat 2) [0.5 * PI; 0.5 * PI] ;;
     Ok (map snd recs, map fst recs))
  /\ [1; 2]%Z = map Z.of_nat (seq 1 (Z.to_nat 2))
  /\ length [1; 1] = Z.to_nat 2.
Proof.
  destruct (calc_n_p_is_warm_started_sweep (L := kets) idle_optimizer
              (real_vec [1; 0]) 1 2) as (E & H); [ lia | ].
  split; [ exact E | ].
  apply (H [1; 1] [1; 2]%Z); exact idle_run.
Defined.

(** ** C9: the store *)


Lemma preserved_refl (h : Store.heap) : Store.preserved h h.
Proof. intros l o E; exact E. Qed.

Lemma preserved_trans (h1 h2 h3 : Store.heap) :
  Store.preserved h1 h2 -> Store.preserved h2 h3 -> Store.preserved h1 h3.
Proof. intros H12 H23 l o E; apply H23, H12, E. Qed.

Lemma preserved_app (h k : Store.heap) : Store.preserved h (h ++ k).
Proof.
  intros l o E; rewrite nth_error_app1; [ exact E | ].
  apply nth_error_Some; rewrite E; discriminate.
Qed.

Lemma preserved_none (h h' : Store.heap) (l : Store.loc) :
  Store.preserved h h' -> nth_error h' l = None -> nth_error h l = None.
Proof.
  intros Hp E; destruct (nth_error h l) as [o | ] eqn:El; [ | reflexivity ].
  rewrite (Hp l o El) in E; discriminate.
Qed.

Create HintDb store.

Lemma pure_ret {A : Type} (a : A) : Store.pure_of_store (Store.ret a).
Proof. intros h; apply preserved_refl. Qed.

Lemma pure_raise {A : Type} (e : exn) : Store.pure_of_store (@Store.raise A e).
Proof. intros h; apply preserved_refl. Qed.

Lemma pure_lift {A : Type} (r : result A) : Store.pure_of_store (Store.lift r).
Proof. intros h; apply preserved_refl. Qed.

Lemma pure_alloc (o : Store.object) : Store.pure_of_store (Store.alloc o).
Proof. intros h; apply preserved_app. Qed.

Lemma pure_read (l : Store.loc) : Store.pure_of_store (Store.read l).
Proof.
  intros h; unfold Store.read; destruct (nth_error h l); apply preserved_refl.
Qed.

Lemma pure_bind {A B : Type} (m : Store.prog A) (k : A -> Store.prog B) :
  Store.pure_of_store m -> (forall a, Store.pure_of_store (k a)) ->
  Store.pure_of_store (Store.bind m k).
Proof.
  intros Hm Hk h; unfold Store.bind.
  specialize (Hm h); destruct (m h) as [[a | e] h1]; cbn [snd] in *.
  - eapply preserved_trans; [ exact Hm | apply Hk ].
  - exact Hm.
Qed.

#[local] Hint Resolve pure_ret pure_raise pure_lift pure_alloc pure_read
  : store.

#[local] Hint Extern 2 (Store.pure_of_store (Store.bind _ _)) =>
  apply pure_bind; [ | intros ? ] : store.

#[local] Hint Extern 3 (Store.pure_of_store (match ?o with _ => _ end)) =>
  destruct o : store.

#[local] Hint Extern 3 (Store.pure_of_store (if ?b then _ else _)) =>
  destruct b : store.

Lemma pure_read_vec (l : Store.loc) : Store.pure_of_store (Store.read_vec l).
Proof. unfold Store.read_vec; auto with store. Qed.

Lemma pure_read_mat (l : Store.loc) : Store.pure_of_store (Store.read_mat l).
Proof. unfold Store.read_mat; auto with store. Qed.

Lemma pure_read_list (l : Store.loc) : Store.pure_of_store (Store.read_list l).
Proof. unfold Store.read_list; auto with store. Qed.

#[local] Hint Resolve pure_read_vec pure_read_mat pure_read_list : store.

Lemma pure_py_getitem (l : Store.loc) (i : nat) : Store.pure_of_store (Store.py_getitem l i).
Proof. unfold Store.py_getitem; auto with store. Qed.

Lemma pure_outer (a b : Store.loc) : Store.pure_of_store (Store.outer a b).
Proof. unfold Store.outer; auto 6 with store. Qed.

Lemma pure_neg (m : Store.loc) : Store.pure_of_store (Store.neg m).
Proof. unfold Store.neg; auto with store. Qed.

Lemma pure_scal (z : complex) (m : Store.loc) : Store.pure_of_store (Store.scal z m).
Proof. unfold Store.scal; auto with store. Qed.

Lemma pure_expm (m : Store.loc) : Store.pure_of_store (Store.expm m).
Proof. unfold Store.expm; auto 6 with store. Qed.

Lemma pure_dot_mv (m v : Store.loc) : Store.pure_of_store (Store.dot_mv m v).
Proof. unfold Store.dot_mv; auto 8 with store. Qed.

Lemma pure_dot_vv (a b : Store.loc) : Store.pure_of_store (Store.dot_vv a b).
Proof. unfold Store.dot_vv; auto 6 with store. Qed.

Lemma pure_conjugate (v : Store.loc) : Store.pure_of_store (Store.conjugate v).
Proof. unfold Store.conjugate; auto with store. Qed.

Lemma pure_transpose (v : Store.loc) : Store.pure_of_store (Store.transpose v).
Proof. unfold Store.transpose; auto with store. Qed.

#[local] Hint Resolve pure_py_getitem pure_outer pure_neg pure_scal
  pure_expm pure_dot_mv pure_dot_vv pure_conjugate pure_transpose : store.

Lemma pure_plus_state (n : Z) : Store.pure_of_store (Store.plus_state n).
Proof. unfold Store.plus_state; auto 12 with store. Qed.

#[local] Hint Resolve pure_plus_state : store.

Lemma pure_B_operator (n : Z) : Store.pure_of_store (Store.B_operator n).
Proof. unfold Store.B_operator; auto 10 with store. Qed.

#[local] Hint Resolve pure_B_operator : store.

Lemma pure_qaoa_step (state H : Store.loc) (n : Z) (params : Store.loc) :
  Store.pure_of_store (Store.qaoa_step state H n params).
Proof. unfold Store.qaoa_step; auto 20 with store. Qed.

#[local] Hint Resolve pure_qaoa_step : store.

Lemma pure_for_each {S : Type} (l : list nat) (body : nat -> S -> Store.prog S) :
  (forall i s, Store.pure_of_store (body i s)) ->
  forall s, Store.pure_of_store (Store.for_each l body s).
Proof.
  intros Hbody; induction l as [ | i l IH ]; intros s; cbn [Store.for_each].
  - apply pure_ret.
  - apply pure_bind; [ apply Hbody | exact IH ].
Qed.

Lemma pure_cost_function (H : Store.loc) (n p : Z) (params : Store.loc) :
  Store.pure_of_store (Store.cost_function H n p params).
Proof.
  unfold Store.cost_function.
  apply pure_bind; [ auto with store | intros s0 ].
  apply pure_bind.
  - apply pure_for_each; intros i s; auto 10 with store.
  - intros s; auto 12 with store.
Qed.

(** In contrast, [list.extend] changes the list it is called on. *)
Lemma py_extend_mutates :
  snd (Store.py_extend 0%nat [0; 0] [Store.PyList [PI; PI]]) = [Store.PyList [PI; PI; 0; 0]].
Proof. reflexivity. Qed.

(** *** What a call returns is new *)

Lemma new_alloc_arr1 (v : vec) : Store.returns_new_array (Store.alloc (Store.Arr1 v)).
Proof.
  intros h r E; cbn in E; injection E as <-; split.
  - apply nth_error_None; lia.
  - exists v; cbn [snd Store.alloc].
    rewrite nth_error_app2, Nat.sub_diag by lia; reflexivity.
Qed.

Lemma new_raise (e : exn) : Store.returns_new_array (Store.raise e).
Proof. intros h r E; discriminate E. Qed.

Lemma new_bind {A : Type} (m : Store.prog A) (k : A -> Store.prog Store.loc) :
  Store.pure_of_store m -> (forall a, Store.returns_new_array (k a)) ->
  Store.returns_new_array (Store.bind m k).
Proof.
  intros Hm Hk h r; unfold Store.bind.
  specialize (Hm h); destruct (m h) as [[a | e] h1]; cbn [fst snd] in *;
    [ | discriminate ].
  intros E; destruct (Hk a h1 r E) as [Hnone Hv].
  split; [ eapply preserved_none; eassumption | exact Hv ].
Qed.

Lemma new_dot_mv (m v : Store.loc) : Store.returns_new_array (Store.dot_mv m v).
Proof.
  unfold Store.dot_mv.
  repeat (apply new_bind; [ auto with store | intros ? ]).
  apply new_alloc_arr1.
Qed.

Lemma new_plus_state (n : Z) : Store.returns_new_array (Store.plus_state n).
Proof.
  unfold Store.plus_state; destruct (n <? 0)%Z; [ apply new_raise | ].
  repeat (apply new_bind; [ auto with store | intros ? ]).
  apply new_alloc_arr1.
Qed.

Lemma new_qaoa_step (state H : Store.loc) (n : Z) (params : Store.loc) :
  Store.returns_new_array (Store.qaoa_step state H n params).
Proof.
  unfold Store.qaoa_step.
  repeat (apply new_bind; [ auto 8 with store | intros ? ]).
  apply new_alloc_arr1.
Qed.

Lemma bind_ok_inv {A B : Type} (m : Store.prog A) (k : A -> Store.prog B) (h : Store.heap)
  (b : B) :
  fst (Store.bind m k h) = Ok b ->
  exists a h1,
    m h = (Ok a, h1) /\ fst (k a h1) = Ok b
    /\ snd (Store.bind m k h) = snd (k a h1).
Proof.
  unfold Store.bind; destruct (m h) as [[a | e] h1]; cbn [fst snd];
    [ | discriminate ].
  intros E; exists a, h1; repeat split; exact E.
Qed.

(** A loop whose rounds return new arrays ends on an array that is newer
    than any store [h0] the loop started after. *)
Lemma new_for_each (h0 : Store.heap) (l : list nat) (body : nat -> Store.loc -> Store.prog Store.loc) :
  (forall i s, Store.pure_of_store (body i s)) ->
  (forall i s, Store.returns_new_array (body i s)) ->
  forall (s : Store.loc) (h : Store.heap) (r : Store.loc),
    Store.preserved h0 h -> nth_error h0 s = None ->
    (exists v, nth_error h s = Some (Store.Arr1 v)) ->
    fst (Store.for_each l body s h) = Ok r ->
    nth_error h0 r = None
    /\ exists v, nth_error (snd (Store.for_each l body s h)) r
                 = Some (Store.Arr1 v).
Proof.
  intros Hpure Hnew; induction l as [ | i l IH ]; intros s h r Hp Hs Hv E.
  - cbn in E; injection E as <-; split; assumption.
  - cbn [Store.for_each] in E |- *.
    destruct (bind_ok_inv _ _ _ _ E) as (s1 & h1 & E1 & E2 & ->).
    pose proof (Hpure i s h) as Hp1; rewrite E1 in Hp1; cbn [snd] in Hp1.
    destruct (Hnew i s h s1) as [Hn1 Hv1]; [ rewrite E1; reflexivity | ].
    rewrite E1 in Hv1; cbn [snd] in Hv1.
    apply (IH s1 h1 r); try assumption.
    + eapply preserved_trans; eassumption.
    + eapply preserved_none; eassumption.
Qed.

Lemma new_cost_function (H : Store.loc) (n p : Z) (params : Store.loc) (h : Store.heap)
  (c : R) (r : Store.loc) :
  fst (Store.cost_function H n p params h) = Ok (c, r) ->
  nth_error h r = None
  /\ exists v,
       nth_error (snd (Store.cost_function H n p params h)) r
       = Some (Store.Arr1 v).
Proof.
  unfold Store.cost_function; intros E.
  destruct (bind_ok_inv _ _ _ _ E) as (s0 & h1 & E0 & E1 & ->); clear E.
  destruct (bind_ok_inv _ _ _ _ E1) as (s & h2 & EL & E2 & ->); clear E1.
  pose proof (pure_plus_state n h) as Hp0; rewrite E0 in Hp0.
  destruct (new_plus_state n h s0) as [Hn0 Hv0]; [ rewrite E0; reflexivity | ].
  rewrite E0 in Hv0; cbn [snd] in Hp0, Hv0.
  set (body := fun (i : nat) (ini_state : Store.loc) =>
                 a <~ Store.py_getitem params (2 * i) ;;
                 b <~ Store.py_getitem params (2 * i + 1) ;;
                 ab <~ Store.alloc (Store.PyList [a; b]) ;;
                 Store.qaoa_step ini_state H n ab) in *.
  assert (Hb1 : forall i s, Store.pure_of_store (body i s))
    by (intros; unfold body; auto 10 with store).
  assert (Hb2 : forall i s, Store.returns_new_array (body i s)).
  { intros; unfold body.
    do 3 (apply new_bind; [ auto with store | intros ? ]).
    apply new_qaoa_step. }
  destruct (new_for_each h (range p) body Hb1 Hb2 s0 h1 s Hp0 Hn0 Hv0)
    as [Hn [v Hv]].
  { rewrite EL; reflexivity. }
  rewrite EL in Hv; cbn [snd] in Hv.
  set (finish := c <~ Store.conjugate s ;; ct <~ Store.transpose c ;;
                 Hs <~ Store.dot_mv H s ;; e <~ Store.dot_vv ct Hs ;;
                 Store.ret (re e, s)) in *.
  assert (Hfin : Store.pure_of_store finish) by (unfold finish; auto 12 with store).
  assert (Hr : r = s).
  { unfold finish in E2.
    destruct (bind_ok_inv _ _ _ _ E2) as (x1 & g1 & _ & E3 & _).
    destruct (bind_ok_inv _ _ _ _ E3) as (x2 & g2 & _ & E4 & _).
    destruct (bind_ok_inv _ _ _ _ E4) as (x3 & g3 & _ & E5 & _).
    destruct (bind_ok_inv _ _ _ _ E5) as (x4 & g4 & _ & E6 & _).
    cbn in E6; injection E6 as _ <-; reflexivity. }
  subst r; split; [ exact Hn | ].
  exists v; apply (Hfin h2); exact Hv.
Qed.

(** *** The calls on the store compute what the functions on values do *)

Lemma sim_bind {A B A' B' : Type} (R : Store.heap -> A -> B -> Prop)
  (R' : Store.heap -> A' -> B' -> Prop)
  (m : Store.prog A) (r : result B) (k : A -> Store.prog A')
  (k' : B -> result B') (h : Store.heap) :
  Store.simulates R m r h ->
  (forall a b h', Store.preserved h h' -> R h' a b ->
                  Store.simulates R' (k a) (k' b) h') ->
  Store.simulates R' (Store.bind m k) (bind r k') h.
Proof.
  unfold Store.simulates, Store.bind; intros Hm Hk.
  destruct (m h) as [[a | e] h1].
  - destruct Hm as (Hp & b & -> & HR); cbn [bind].
    specialize (Hk a b h1 Hp HR).
    destruct (k a h1) as [[a' | e'] h2].
    + destruct Hk as (Hp' & b' & E & HR'); split.
      * eapply preserved_trans; eassumption.
      * exists b'; split; assumption.
    + destruct Hk as (Hp' & E); split;
        [ eapply preserved_trans; eassumption | exact E ].
  - destruct Hm as (Hp & ->); split; [ exact Hp | reflexivity ].
Qed.

Lemma sim_read_vec (h : Store.heap) (l : Store.loc) (v : vec) :
  Store.is_vec h l v -> Store.read_vec l h = (Ok v, h).
Proof.
  unfold Store.is_vec, Store.read_vec, Store.bind, Store.read.
  intros ->; reflexivity.
Qed.

Lemma sim_read_mat (h : Store.heap) (l : Store.loc) (M : mat) :
  Store.is_mat h l M -> Store.read_mat l h = (Ok M, h).
Proof.
  unfold Store.is_mat, Store.read_mat, Store.bind, Store.read.
  intros ->; reflexivity.
Qed.

Lemma sim_read_list (h : Store.heap) (l : Store.loc) (xs : list R) :
  Store.is_list h l xs -> Store.read_list l h = (Ok xs, h).
Proof.
  unfold Store.is_list, Store.read_list, Store.bind, Store.read.
  intros ->; reflexivity.
Qed.

Lemma nth_error_last {A : Type} (h : list A) (o : A) :
  nth_error (h ++ [o]) (length h) = Some o.
Proof. rewrite nth_error_app2, Nat.sub_diag by lia; reflexivity. Qed.

Lemma sim_getitem (h : Store.heap) (l : Store.loc) (xs : list R) (i : nat) :
  Store.is_list h l xs ->
  Store.simulates Store.same_value (Store.py_getitem l i) (getitem xs i) h.
Proof.
  intros Hl; unfold Store.simulates, Store.py_getitem, Store.bind.
  rewrite (sim_read_list h l xs Hl); unfold Store.lift.
  destruct (getitem xs i) as [x | e]; split;
    try apply preserved_refl; [ exists x; split | ]; reflexivity.
Qed.

Lemma sim_outer (h : Store.heap) (a b : Store.loc) (u v : vec) :
  Store.is_vec h a u -> Store.is_vec h b v ->
  Store.simulates Store.is_mat (Store.outer a b) (Ok (np_outer u v)) h.
Proof.
  intros Ha Hb; unfold Store.simulates, Store.outer, Store.bind.
  rewrite (sim_read_vec h a u Ha), (sim_read_vec h b v Hb).
  cbn [Store.alloc]; split; [ apply preserved_app | ].
  eexists; split; [ reflexivity | apply nth_error_last ].
Qed.

Lemma sim_neg (h : Store.heap) (m : Store.loc) (M : mat) :
  Store.is_mat h m M ->
  Store.simulates Store.is_mat (Store.neg m) (Ok (mat_neg M)) h.
Proof.
  intros Hm; unfold Store.simulates, Store.neg, Store.bind.
  rewrite (sim_read_mat h m M Hm).
  cbn [Store.alloc]; split; [ apply preserved_app | ].
  eexists; split; [ reflexivity | apply nth_error_last ].
Qed.

Lemma sim_scal (h : Store.heap) (z : complex) (m : Store.loc) (M : mat) :
  Store.is_mat h m M ->
  Store.simulates Store.is_mat (Store.scal z m) (Ok (scal_mat z M)) h.
Proof.
  intros Hm; unfold Store.simulates, Store.scal, Store.bind.
  rewrite (sim_read_mat h m M Hm).
  cbn [Store.alloc]; split; [ apply preserved_app | ].
  eexists; split; [ reflexivity | apply nth_error_last ].
Qed.

Lemma sim_expm (h : Store.heap) (m : Store.loc) (M : mat) :
  Store.is_mat h m M ->
  Store.simulates Store.is_mat (Store.expm m) (la_expm M) h.
Proof.
  intros Hm; unfold Store.simulates, Store.expm, Store.bind.
  rewrite (sim_read_mat h m M Hm); unfold Store.lift.
  destruct (la_expm M) as [E | e].
  - cbn [Store.alloc]; split; [ apply preserved_app | ].
    eexists; split; [ reflexivity | apply nth_error_last ].
  - split; [ apply preserved_refl | reflexivity ].
Qed.

Lemma sim_dot_mv (h : Store.heap) (m v : Store.loc) (M : mat) (s : vec) :
  Store.is_mat h m M -> Store.is_vec h v s ->
  Store.simulates Store.is_vec (Store.dot_mv m v) (np_dot_mv M s) h.
Proof.
  intros Hm Hv; unfold Store.simulates, Store.dot_mv, Store.bind.
  rewrite (sim_read_mat h m M Hm), (sim_read_vec h v s Hv).
  unfold Store.lift; destruct (np_dot_mv M s) as [r | e].
  - cbn [Store.alloc]; split; [ apply preserved_app | ].
    eexists; split; [ reflexivity | apply nth_error_last ].
  - split; [ apply preserved_refl | reflexivity ].
Qed.

Lemma sim_plus_state (h : Store.heap) (n : Z) :
  Store.simulates Store.is_vec (Store.plus_state n) (plus_state n) h.
Proof.
  unfold Store.simulates, Store.plus_state, plus_state.
  destruct (Z.ltb_spec n 0) as [Hneg | Hn].
  - split; [ apply preserved_refl | reflexivity ].
  - unfold Store.bind at 1; cbn [Store.alloc].
    unfold Store.bind at 1.
    rewrite (sim_read_list _ _ _ (nth_error_last h _)).
    unfold Store.bind at 1; cbn [Store.alloc].
    unfold Store.bind at 1.
    rewrite (sim_read_vec _ _ _ (nth_error_last _ _)).
    cbn [Store.alloc]; split.
    + eapply preserved_trans; [ apply preserved_app | ].
      eapply preserved_trans; apply preserved_app.
    + eexists; split; [ reflexivity | ].
      unfold Store.is_vec; rewrite nth_error_last.
      assert (Hpos : 0 < IZR (2 ^ n)).
      { apply IZR_lt, Z.pow_pos_nonneg; lia. }
      assert (Hs0 : sqrt (IZR (2 ^ n)) <> 0).
      { intros E; apply sqrt_eq_0 in E; lra. }
      rewrite !map_repeat; do 3 f_equal.
      apply complex_eq; simpl; field; exact Hs0.
Qed.

Lemma is_vec_preserved (h h' : Store.heap) (l : Store.loc) (v : vec) :
  Store.preserved h h' -> Store.is_vec h l v -> Store.is_vec h' l v.
Proof. intros Hp Hl; apply Hp, Hl. Qed.

Lemma is_mat_preserved (h h' : Store.heap) (l : Store.loc) (M : mat) :
  Store.preserved h h' -> Store.is_mat h l M -> Store.is_mat h' l M.
Proof. intros Hp Hl; apply Hp, Hl. Qed.

Lemma is_list_preserved (h h' : Store.heap) (l : Store.loc) (xs : list R) :
  Store.preserved h h' -> Store.is_list h l xs -> Store.is_list h' l xs.
Proof. intros Hp Hl; apply Hp, Hl. Qed.

#[local] Hint Resolve is_vec_preserved is_mat_preserved is_list_preserved
  preserved_trans : store.

Lemma sim_B_operator (h : Store.heap) (n : Z) :
  Store.simulates Store.is_mat (Store.B_operator n) (B_operator n) h.
Proof.
  unfold Store.B_operator, B_operator.
  eapply sim_bind; [ apply sim_plus_state | intros u u' h1 Hp1 Hu ].
  eapply sim_bind; [ apply sim_plus_state | intros v v' h2 Hp2 Hv ].
  apply (sim_bind Store.is_mat Store.is_mat _ (Ok (np_outer u' v')) _
           (fun o => Ok (mat_neg o))).
  - apply sim_outer; eauto with store.
  - intros o o' h3 Hp3 Ho; apply sim_neg; exact Ho.
Qed.

Lemma sim_scal_expm (h : Store.heap) (z : complex) (m : Store.loc)
  (M : mat) :
  Store.is_mat h m M ->
  Store.simulates Store.is_mat (A <~ Store.scal z m ;; Store.expm A)
    (la_expm (scal_mat z M)) h.
Proof.
  intros Hm.
  apply (sim_bind Store.is_mat Store.is_mat _ (Ok (scal_mat z M)) _ la_expm).
  - apply sim_scal; exact Hm.
  - intros A A' h1 Hp HA; apply sim_expm; exact HA.
Qed.

Lemma simulates_ext {A B : Type} (R : Store.heap -> A -> B -> Prop)
  (m m' : Store.prog A) (r : result B) (h : Store.heap) :
  m h = m' h -> Store.simulates R m r h -> Store.simulates R m' r h.
Proof. unfold Store.simulates; intros ->; exact (fun H => H). Qed.

Lemma sim_qaoa_step (h : Store.heap) (st H : Store.loc) (n : Z)
  (ps : Store.loc) (s : vec) (M : mat) (xs : list R) :
  Store.is_vec h st s -> Store.is_mat h H M -> Store.is_list h ps xs ->
  Store.simulates Store.is_vec (Store.qaoa_step st H n ps)
    (qaoa_step s M n xs) h.
Proof.
  intros Hst HH Hps; unfold Store.qaoa_step, qaoa_step.
  eapply sim_bind; [ apply sim_B_operator | intros B B' h1 Hp1 HB ].
  eapply sim_bind;
    [ apply sim_getitem; eauto with store | intros a a' h2 Hp2 <- ].
  apply (simulates_ext _
           (U <~ (A <~ Store.scal (- cj * RtoC a)%cpx H ;; Store.expm A) ;;
            state <~ Store.dot_mv U st ;;
            b <~ Store.py_getitem ps 1 ;;
            V <~ (A <~ Store.scal (- cj * RtoC b)%cpx B ;; Store.expm A) ;;
            Store.dot_mv V state)).
  { unfold Store.bind.
    repeat match goal with
           | |- context [match ?x with _ => _ end] =>
               is_var x; destruct x
           | |- context [match ?x with _ => _ end] =>
               lazymatch x with
               | match _ with _ => _ end => fail
               | _ => destruct x as [[? | ?] ?]
               end
           end; reflexivity. }
  eapply sim_bind;
    [ apply sim_scal_expm; eauto with store | intros U U' h3 Hp3 HU ].
  eapply sim_bind;
    [ apply sim_dot_mv; eauto 6 with store | intros s1 s1' h4 Hp4 Hs1 ].
  eapply sim_bind;
    [ apply sim_getitem; eauto 8 with store | intros b b' h5 Hp5 <- ].
  eapply sim_bind;
    [ apply sim_scal_expm; eauto 8 with store | intros V V' h6 Hp6 HV ].
  apply sim_dot_mv; eauto with store.
Qed.

Lemma sim_alloc_list (h : Store.heap) (xs : list R) :
  Store.simulates Store.is_list (Store.alloc (Store.PyList xs)) (Ok xs) h.
Proof.
  unfold Store.simulates; cbn [Store.alloc]; split; [ apply preserved_app | ].
  eexists; split; [ reflexivity | apply nth_error_last ].
Qed.

Lemma sim_conjugate (h : Store.heap) (l : Store.loc) (v : vec) :
  Store.is_vec h l v ->
  Store.simulates Store.is_vec (Store.conjugate l) (Ok (vconj v)) h.
Proof.
  intros Hl; unfold Store.simulates, Store.conjugate, Store.bind.
  rewrite (sim_read_vec h l v Hl).
  cbn [Store.alloc]; split; [ apply preserved_app | ].
  eexists; split; [ reflexivity | apply nth_error_last ].
Qed.

Lemma sim_transpose (h : Store.heap) (l : Store.loc) (v : vec) :
  Store.is_vec h l v ->
  Store.simulates Store.is_vec (Store.transpose l) (Ok v) h.
Proof.
  intros Hl; unfold Store.simulates, Store.transpose, Store.bind.
  rewrite (sim_read_vec h l v Hl).
  cbn [Store.ret]; split; [ apply preserved_refl | ].
  eexists; split; [ reflexivity | exact Hl ].
Qed.

Lemma sim_dot_vv (h : Store.heap) (a b : Store.loc) (u v : vec) :
  Store.is_vec h a u -> Store.is_vec h b v ->
  Store.simulates Store.same_value (Store.dot_vv a b) (np_dot_vv u v) h.
Proof.
  intros Ha Hb; unfold Store.simulates, Store.dot_vv, Store.bind.
  rewrite (sim_read_vec h a u Ha), (sim_read_vec h b v Hb).
  unfold Store.lift; destruct (np_dot_vv u v) as [z | e]; split;
    try apply preserved_refl; [ exists z; split | ]; reflexivity.
Qed.

Lemma sim_for_each (l : list nat) (body : nat -> Store.loc -> Store.prog Store.loc)
  (body' : nat -> vec -> result vec) (Inv : Store.heap -> Prop) :
  (forall h h', Store.preserved h h' -> Inv h -> Inv h') ->
  (forall i h s v, Inv h -> Store.is_vec h s v ->
                   Store.simulates Store.is_vec (body i s) (body' i v) h) ->
  forall h s v, Inv h -> Store.is_vec h s v ->
    Store.simulates Store.is_vec (Store.for_each l body s)
      (for_each l body' v) h.
Proof.
  intros Hstable Hbody; induction l as [ | i l IH ]; intros h s v HI Hs.
  - unfold Store.simulates; cbn; split; [ apply preserved_refl | ].
    exists v; split; [ reflexivity | exact Hs ].
  - cbn [Store.for_each for_each].
    eapply sim_bind; [ apply Hbody; assumption | ].
    intros s1 v1 h1 Hp Hs1; apply IH; [ | exact Hs1 ].
    eapply Hstable; eassumption.
Qed.

Lemma sim_cost_function (h : Store.heap) (H : Store.loc) (n p : Z)
  (ps : Store.loc) (M : mat) (xs : list R) :
  Store.is_mat h H M -> Store.is_list h ps xs ->
  Store.simulates Store.is_cost_state (Store.cost_function H n p ps)
    (cost_function M n p xs) h.
Proof.
  intros HH Hps; unfold Store.cost_function, cost_function.
  eapply sim_bind; [ apply sim_plus_state | intros s0 v0 h1 Hp1 Hs0 ].
  eapply sim_bind.
  - apply (sim_for_each _ _ _
             (fun g => Store.is_mat g H M /\ Store.is_list g ps xs)).
    + intros g g' Hp [H1 H2]; split; eauto with store.
    + intros i g s v [H1 H2] Hs.
      eapply sim_bind; [ apply sim_getitem; exact H2 | intros a a' g1 Hq1 <- ].
      eapply sim_bind;
        [ apply sim_getitem; eauto with store | intros b b' g2 Hq2 <- ].
      apply (sim_bind Store.is_list Store.is_vec _ (Ok [a; b]) _
               (fun ab => qaoa_step v M n ab)).
      * apply sim_alloc_list.
      * intros ab ab' g3 Hq3 Hab.
        apply sim_qaoa_step; eauto 8 with store.
    + split; eauto with store.
    + exact Hs0.
  - intros s v h2 Hp2 Hs.
    apply (sim_bind Store.is_vec Store.is_cost_state _ (Ok (vconj v)) _
             (fun c => Hs <- np_dot_mv M v ;; e <- np_dot_vv c Hs ;;
                       Ok (re e, v))).
    { apply sim_conjugate; exact Hs. }
    intros c c' h3 Hp3 Hc.
    apply (sim_bind Store.is_vec Store.is_cost_state _ (Ok c') _
             (fun ct => Hs <- np_dot_mv M v ;; e <- np_dot_vv ct Hs ;;
                        Ok (re e, v))).
    { apply sim_transpose; exact Hc. }
    intros ct ct' h4 Hp4 Hct.
    eapply sim_bind;
      [ apply sim_dot_mv; eauto 10 with store | intros Hs' Hv h5 Hp5 HHs ].
    eapply sim_bind;
      [ apply sim_dot_vv; eauto with store | intros e e' h6 Hp6 <- ].
    unfold Store.simulates; cbn [Store.ret]; split; [ apply preserved_refl | ].
    eexists; split; [ reflexivity | ].
    split; [ reflexivity | cbn [snd]; eauto 10 with store ].
Qed.

(** C9.  A call of [qaoa_step] or of [cost_function] never changes an
    existing object in place: after the call, returned or raised, every
    object of the store is what it was, the caller's state vector (and the
    generator and the angle list) among them; and the state it returns is an
    array that did not exist before the call, holding the state that the
    function computes from the values of the arguments. *)
Theorem no_in_place_mutation (h : Store.heap) (state H params : Store.loc)
  (n p : Z) (s : vec) (M : mat) (xs : list R) :
  Store.is_vec h state s -> Store.is_mat h H M ->
  Store.is_list h params xs ->
  (forall r h',
      Store.qaoa_step state H n params h = (r, h') ->
      Store.preserved h h'
      /\ Store.is_vec h' state s
      /\ match r with
         | Ok s' =>
             nth_error h s' = None
             /\ exists v, qaoa_step s M n xs = Ok v /\ Store.is_vec h' s' v
         | Raise e => qaoa_step s M n xs = Raise e
         end)
  /\ (forall r h',
        Store.cost_function H n p params h = (r, h') ->
        Store.preserved h h'
        /\ Store.is_mat h' H M /\ Store.is_list h' params xs
        /\ match r with
           | Ok (c, s') =>
               nth_error h s' = None
               /\ exists v,
                    cost_function M n p xs = Ok (c, v)
                    /\ Store.is_vec h' s' v
           | Raise e => cost_function M n p xs = Raise e
           end).
Proof.
  intros Hs HM Hxs; split; intros r h' E.
  - pose proof (sim_qaoa_step h state H n params s M xs Hs HM Hxs) as Hsim.
    pose proof (new_qaoa_step state H n params h) as Hnew.
    unfold Store.simulates in Hsim; rewrite E in Hsim, Hnew.
    cbn [fst snd] in Hnew.
    destruct r as [s' | e].
    + destruct Hsim as (Hp & v & Ev & Hv).
      split; [ exact Hp | split; [ apply Hp, Hs | ] ].
      split; [ apply (Hnew s' eq_refl) | ].
      exists v; split; assumption.
    + destruct Hsim as (Hp & Ev).
      split; [ exact Hp | split; [ apply Hp, Hs | exact Ev ] ].
  - pose proof (sim_cost_function h H n p params M xs HM Hxs) as Hsim.
    unfold Store.simulates in Hsim; rewrite E in Hsim.
    destruct r as [[c s'] | e].
    + destruct Hsim as (Hp & [c' v] & Ev & Hc & Hv).
      cbn [fst snd] in Hc, Hv; subst c'.
      split; [ exact Hp | ].
      split; [ apply Hp, HM | ].
      split; [ apply Hp, Hxs | ].
      split.
      * apply (new_cost_function H n p params h c s').
        rewrite E; reflexivity.
      * exists v; split; assumption.
    + destruct Hsim as (Hp & Ev).
      split; [ exact Hp | ].
      split; [ apply Hp, HM | ].
      split; [ apply Hp, Hxs | exact Ev ].
Qed.

Lemma no_in_place_mutation_witness :
  Store.preserved
    [Store.Arr1 [c1; c0]; Store.Arr2 (H_operator (real_vec [1; 0]));
     Store.PyList [0; PI]]
    (snd (Store.qaoa_step 0%nat 1%nat 1 2%nat
            [Store.Arr1 [c1; c0]; Store.Arr2 (H_operator (real_vec [1; 0]));
             Store.PyList [0; PI]]))
  /\ Store.is_vec
       (snd (Store.qaoa_step 0%nat 1%nat 1 2%nat
               [Store.Arr1 [c1; c0];
                Store.Arr2 (H_operator (real_vec [1; 0]));
                Store.PyList [0; PI]]))
       0%nat [c1; c0].
Proof.
  destruct (no_in_place_mutation
              [Store.Arr1 [c1; c0]; Store.Arr2 (H_operator (real_vec [1; 0]));
               Store.PyList [0; PI]]
              0%nat 1%nat 2%nat 1 1 [c1; c0]
              (H_operator (real_vec [1; 0])) [0; PI]
              eq_refl eq_refl eq_refl) as [Hstep _].
  destruct (Hstep _ _ (surjective_pairing _)) as (Hp & Hs & _).
  split; [ exact Hp | exact Hs ].
Defined.

(** ** The top-level loop of the numpy/scipy notebook

    Unlike [calc_n_p], the loop of this notebook carries nothing from one
    depth to the next: [get_params] has no parameter for a starting point
    and starts every depth from [pi/4] in every angle.  Each round is a
    function of the depth alone. *)
Lemma depth_rounds_independent
  (basinhopping :
     (list R -> result R) -> list R -> list (R * R) -> result (list R))
  (l : list nat) (os : list R) (ps : list Z) :
  for_each l
    (fun i '(overlap_array, p_array) =>
       let i := Z.of_nat i in
       params <- get_params basinhopping (H_operator s_0101) 4 i ;;
       cs <- cost_function (H_operator s_0101) 4 i params ;;
       let st := snd cs in
       let p_array := p_array ++ [i] in
       o <- overlap s_0101 st ;;
       Ok (overlap_array ++ [o], p_array))
    (os, ps)
  = (recs <- map_m
       (fun i =>
          let i := Z.of_nat i in
          params <- get_params basinhopping (H_operator s_0101) 4 i ;;
          cs <- cost_function (H_operator s_0101) 4 i params ;;
          o <- overlap s_0101 (snd cs) ;;
          Ok (o, i))
       l ;;
     Ok (os ++ map fst recs, ps ++ map snd recs)).
Proof.
  revert os ps; induction l as [ | i l IH ]; intros os ps.
  - cbn [for_each map_m bind map]; rewrite !app_nil_r; reflexivity.
  - cbn [for_each map_m]; cbv zeta.
    destruct (get_params basinhopping (H_operator s_0101) 4 (Z.of_nat i))
      as [params | e]; cbn [bind]; [ | reflexivity ].
    destruct (cost_function (H_operator s_0101) 4 (Z.of_nat i) params)
      as [cs | e]; cbn [bind]; [ | reflexivity ].
    destruct (overlap s_0101 (snd cs)) as [o | e]; cbn [bind];
      [ | reflexivity ].
    rewrite IH.
    destruct (map_m _ l) as [recs | e]; cbn [bind]; [ | reflexivity ].
    cbn [map fst snd]; rewrite <- !app_assoc; reflexivity.
Qed.

Lemma depth_loop_cold_start
  (basinhopping :
     (list R -> result R) -> list R -> list (R * R) -> result (list R)) :
  depth_loop basinhopping
  = (recs <- map_m
       (fun i =>
          let i := Z.of_nat i in
          params <- get_params basinhopping (H_operator s_0101) 4 i ;;
          cs <- cost_function (H_operator s_0101) 4 i params ;;
          o <- overlap s_0101 (snd cs) ;;
          Ok (o, i))
       (range_from 1 6) ;;
     Ok (map fst recs, map snd recs)).
Proof. unfold depth_loop; apply depth_rounds_independent. Qed.

(* ================================================================== *)
(** * Further properties of the notebooks' code *)

(** ** Shared lemmas *)

Lemma nth_plus_amplitudes (n : Z) (i : nat) :
  (i < Z.to_nat (2 ^ n))%nat ->
  nth i (plus_amplitudes n) 0 = 1 / sqrt (IZR (2 ^ n)).
Proof.
  intros Hi; unfold plus_amplitudes.
  rewrite (nth_indep _ 0 (1 / sqrt (IZR (2 ^ n))))
    by (rewrite repeat_length; exact Hi).
  apply nth_repeat.
Qed.

Lemma inv_sqrt_squared (x : R) :
  0 < x -> (1 / sqrt x) * (1 / sqrt x) = 1 / x.
Proof.
  intros Hx.
  assert (Hs : sqrt x <> 0) by (apply Rgt_not_eq, sqrt_lt_R0; exact Hx).
  assert (Hx0 : x <> 0) by lra.
  replace (1 / sqrt x * (1 / sqrt x)) with (1 / (sqrt x * sqrt x))
    by (field; exact Hs).
  rewrite sqrt_sqrt by lra; reflexivity.
Qed.

Lemma pow2_IZR_pos (n : Z) : (0 <= n)%Z -> 0 < IZR (2 ^ n).
Proof. intros Hn; apply IZR_lt, pow2_pos; exact Hn. Qed.

(** ** The driver generator, entry by entry *)

(** X1: for [n >= 0], [B_operator(n)] is the square matrix of size [2^n]
    whose every entry is [-1 / 2^n]. *)
Theorem B_operator_entries (n : Z) :
  (0 <= n)%Z ->
  exists B,
    B_operator n = Ok B
    /\ length B = Z.to_nat (2 ^ n)
    /\ is_square B = true
    /\ forall i l,
         (i < Z.to_nat (2 ^ n))%nat -> (l < Z.to_nat (2 ^ n))%nat ->
         entry B i l = RtoC (- (1 / IZR (2 ^ n))).
Proof.
  intros Hn; exists (H_operator (real_vec (plus_amplitudes n))).
  split; [ apply B_operator_ok; exact Hn | ].
  split; [ rewrite length_H_operator; unfold real_vec;
           rewrite length_map; apply length_plus_amplitudes | ].
  split; [ apply is_square_H_operator | ].
  intros i l Hi Hl; unfold H_operator.
  rewrite entry_neg_outer, !nth_real_vec, !nth_plus_amplitudes by assumption.
  apply complex_eq; cbn [re im RtoC cneg cmul].
  - rewrite <- (inv_sqrt_squared (IZR (2 ^ n))) by (apply pow2_IZR_pos; exact Hn).
    ring.
  - ring.
Qed.

Lemma B_operator_entries_witness :
  exists B,
    B_operator 2 = Ok B
    /\ length B = Z.to_nat (2 ^ 2)
    /\ is_square B = true
    /\ forall i l,
         (i < Z.to_nat (2 ^ 2))%nat -> (l < Z.to_nat (2 ^ 2))%nat ->
         entry B i l = RtoC (- (1 / IZR (2 ^ 2))).
Proof. apply (B_operator_entries 2); lia. Defined.

(** ** The marking generator of an arbitrary vector *)

(** X2: for every vector [v], complex ones included, [H_operator(v)] is
    square of the size of [v], its entry [(i, l)] is [- v[i] * v[l]], and it
    is symmetric; it is Hermitian exactly when every product [v[i] * v[l]]
    is real. *)
Theorem H_operator_symmetric (v : vec) :
  length (H_operator v) = length v
  /\ is_square (H_operator v) = true
  /\ (forall i l,
        entry (H_operator v) i l = (- (nth i v c0 * nth l v c0))%cpx)
  /\ (forall i l, entry (H_operator v) i l = entry (H_operator v) l i)
  /\ (is_hermitian (H_operator v)
      <-> forall i l, im (nth i v c0 * nth l v c0)%cpx = 0).
Proof.
  split; [ apply length_H_operator | ].
  split; [ apply is_square_H_operator | ].
  split; [ intros i l; apply entry_neg_outer | ].
  split.
  - intros i l; unfold H_operator; rewrite !entry_neg_outer.
    apply complex_eq; cbn [re im cneg cmul]; ring.
  - unfold is_hermitian, H_operator; split.
    + intros Hh i l; specialize (Hh i l).
      rewrite !entry_neg_outer in Hh.
      apply (f_equal im) in Hh; cbn [re im cneg cmul cconj] in Hh.
      cbn [re im cmul]; lra.
    + intros Hr i l; rewrite !entry_neg_outer.
      specialize (Hr i l); cbn [re im cmul] in Hr.
      apply complex_eq; cbn [re im cneg cmul cconj]; lra.
Qed.

(** ** When a layer returns and when it raises *)

Lemma forallb_map {A B : Type} (f : B -> bool) (g : A -> B) (l : list A) :
  forallb f (map g l) = forallb (fun x => f (g x)) l.
Proof.
  induction l as [ | x l IH ]; [ reflexivity | ].
  cbn [map forallb]; rewrite IH; reflexivity.
Qed.

Lemma forallb_pointwise {A : Type} (f g : A -> bool) (l : list A) :
  (forall x, f x = g x) -> forallb f l = forallb g l.
Proof.
  intros E; induction l as [ | x l IH ]; [ reflexivity | ].
  cbn [forallb]; rewrite E, IH; reflexivity.
Qed.

Lemma is_square_scal_eq (z : complex) (A : mat) :
  is_square (scal_mat z A) = is_square A.
Proof.
  unfold is_square, scal_mat; rewrite forallb_map, length_map.
  apply forallb_pointwise; intros row; rewrite length_map; reflexivity.
Qed.

Lemma np_dot_mv_tabulate_mismatch (N : nat) (f : nat -> nat -> complex)
  (s : vec) :
  N <> 0%nat -> length s <> N ->
  np_dot_mv (tabulate N f) s = Raise ValueError.
Proof.
  intros HN Hs; unfold np_dot_mv, tabulate.
  destruct N as [ | N ]; [ congruence | ].
  set (rows := map _ (seq 0 (S N))).
  assert (Hf : forallb (fun row : list complex =>
                          (length row =? length s)%nat) rows = false).
  { unfold rows; change (seq 0 (S N)) with (0%nat :: seq 1 N) at 2.
    cbn [map forallb]; rewrite length_map, length_seq.
    destruct (Nat.eqb_spec (S N) (length s)) as [E | _]; [ congruence | ].
    reflexivity. }
  rewrite Hf; reflexivity.
Qed.

(** What [expm(z * A).dot(s)] does: it returns a vector of the size of [A]
    when [A] is square and [s] has its size, and raises [ValueError] when
    [A] is not square or the sizes differ. *)
Lemma expm_dot_spec (z : complex) (A : mat) (s : vec) :
  match (U <- la_expm (scal_mat z A) ;; np_dot_mv U s) with
  | Ok s' =>
      is_square A = true /\ length s' = length A
      /\ (A = [] \/ length s = length A)
  | Raise e =>
      e = ValueError
      /\ (is_square A = false \/ (A <> [] /\ length s <> length A))
  end.
Proof.
  destruct (is_square A) eqn:Hsq.
  - destruct (Nat.eq_dec (length s) (length A)) as [Hl | Hl].
    + destruct (expm_dot_total z A s Hsq Hl) as (s' & -> & L).
      repeat split; [ exact L | right; exact Hl ].
    + unfold la_expm; rewrite is_square_scal_eq, Hsq; cbn [bind].
      replace (length (scal_mat z A)) with (length A)
        by (unfold scal_mat; rewrite length_map; reflexivity).
      destruct A as [ | row A ].
      * cbn; repeat split; left; reflexivity.
      * rewrite np_dot_mv_tabulate_mismatch; [ | discriminate | exact Hl ].
        split; [ reflexivity | right; split; [ discriminate | exact Hl ] ].
  - unfold la_expm; rewrite is_square_scal_eq, Hsq; cbn [bind].
    split; [ reflexivity | left; reflexivity ].
Qed.

Lemma B_operator_negative (n : Z) :
  (n < 0)%Z -> B_operator n = Raise TypeError.
Proof.
  intros Hn; unfold B_operator, plus_state.
  destruct (Z.ltb_spec n 0); [ reflexivity | lia ].
Qed.

Lemma pow2_nat_pos (n : Z) : (0 <= n)%Z -> (0 < Z.to_nat (2 ^ n))%nat.
Proof. intros Hn; pose proof (pow2_pos n Hn); lia. Qed.

Lemma length_B (n : Z) :
  length (H_operator (real_vec (plus_amplitudes n))) = Z.to_nat (2 ^ n).
Proof.
  rewrite length_H_operator; unfold real_vec; rewrite length_map.
  apply length_plus_amplitudes.
Qed.

Lemma B_nonempty (n : Z) :
  (0 <= n)%Z -> H_operator (real_vec (plus_amplitudes n)) <> [].
Proof.
  intros Hn E; apply (f_equal (@length _)) in E.
  rewrite length_B in E; pose proof (pow2_nat_pos n Hn); cbn in E; lia.
Qed.

(** The two steps of a layer, once the driver generator and the angles are
    there. *)
Lemma qaoa_step_unfold (state : vec) (H : mat) (n : Z) (a b : R)
  (rest : list R) :
  (0 <= n)%Z ->
  qaoa_step state H n (a :: b :: rest)
  = (state' <- (U <- la_expm (scal_mat (- cj * RtoC a)%cpx H) ;;
                np_dot_mv U state) ;;
     V <- la_expm (scal_mat (- cj * RtoC b)%cpx
                     (H_operator (real_vec (plus_amplitudes n)))) ;;
     np_dot_mv V state').
Proof.
  intros Hn; unfold qaoa_step.
  rewrite B_operator_ok by exact Hn; cbn [bind getitem nth_error].
  destruct (la_expm (scal_mat (- cj * RtoC a)%cpx H)); reflexivity.
Qed.

(** X3: a layer returns exactly when [n_qubits >= 0], there are at least two
    angles, [H] is square of size [2^n_qubits] and the state has
    [2^n_qubits] entries. *)
Theorem qaoa_step_succeeds_iff (state : vec) (H : mat) (n : Z)
  (params : list R) :
  (exists s', qaoa_step state H n params = Ok s')
  <-> ((0 <= n)%Z /\ (2 <= length params)%nat /\ is_square H = true
       /\ length H = Z.to_nat (2 ^ n)
       /\ length state = Z.to_nat (2 ^ n)).
Proof.
  split.
  - intros (s' & E).
    destruct (Z.ltb_spec n 0) as [Hn | Hn].
    { unfold qaoa_step in E; rewrite B_operator_negative in E by exact Hn.
      discriminate. }
    destruct params as [ | a [ | b rest ] ].
    { unfold qaoa_step in E; rewrite B_operator_ok in E by exact Hn.
      discriminate. }
    { unfold qaoa_step in E; rewrite B_operator_ok in E by exact Hn.
      cbn [bind getitem nth_error] in E.
      destruct (la_expm (scal_mat (- cj * RtoC a)%cpx H)) as [U | e];
        cbn [bind] in E; [ | discriminate ].
      destruct (np_dot_mv U state); discriminate. }
    rewrite qaoa_step_unfold in E by exact Hn.
    pose proof (expm_dot_spec (- cj * RtoC a)%cpx H state) as S1.
    destruct (U <- la_expm (scal_mat (- cj * RtoC a)%cpx H) ;;
              np_dot_mv U state) as [s1 | e]; [ | discriminate ].
    cbn [bind] in E; destruct S1 as (Hsq & L1 & Hc).
    pose proof (expm_dot_spec (- cj * RtoC b)%cpx
                  (H_operator (real_vec (plus_amplitudes n))) s1) as S2.
    rewrite E in S2; destruct S2 as (_ & _ & [HB | L2]).
    { exfalso; exact (B_nonempty n Hn HB). }
    rewrite length_B in L2.
    assert (HH : length H = Z.to_nat (2 ^ n)) by congruence.
    split; [ exact Hn | ].
    split; [ cbn [length]; lia | ].
    split; [ exact Hsq | ].
    split; [ exact HH | ].
    destruct Hc as [-> | Hc]; [ | congruence ].
    pose proof (pow2_nat_pos n Hn); cbn [length] in HH; lia.
  - intros (Hn & Hp & Hsq & HH & Hs).
    destruct params as [ | a [ | b rest ] ]; cbn [length] in Hp; try lia.
    destruct (qaoa_step_total H n state a b Hn Hsq HH Hs) as (s' & E & _).
    exists s'; rewrite <- E.
    rewrite !qaoa_step_unfold by exact Hn; reflexivity.
Qed.



(** ** The evaluator and the supply of angles *)

Lemma for_each_app {S : Type} (l k : list nat)
  (body : nat -> S -> result S) (s : S) :
  for_each (l ++ k) body s
  = (s' <- for_each l body s ;; for_each k body s').
Proof.
  revert s; induction l as [ | i l IH ]; intros s; [ reflexivity | ].
  cbn [app for_each].
  destruct (body i s) as [s1 | e]; cbn [bind]; [ apply IH | reflexivity ].
Qed.

Lemma getitem_out {A : Type} (l : list A) (i : nat) :
  (length l <= i)%nat -> getitem l i = Raise IndexError.
Proof.
  intros H; unfold getitem.
  apply nth_error_None in H; rewrite H; reflexivity.
Qed.

Lemma length_real_plus (n : Z) :
  length (real_vec (plus_amplitudes n)) = Z.to_nat (2 ^ n).
Proof. unfold real_vec; rewrite length_map; apply length_plus_amplitudes. Qed.

(** X5: for a square [H] of size [2^n_qubits], [n_qubits >= 0], the
    evaluator returns exactly when the angle list has at least [2 p]
    entries, and raises [IndexError] when it has fewer; the final state has
    [2^n_qubits] entries.  For [p <= 0] no angle is needed. *)
Theorem cost_function_needs_2p_angles (H : mat) (n p : Z)
  (params : list R) :
  (0 <= n)%Z -> is_square H = true -> length H = Z.to_nat (2 ^ n) ->
  ((exists c s, cost_function H n p params = Ok (c, s))
   <-> (Z.to_nat (2 * p) <= length params)%nat)
  /\ ((length params < Z.to_nat (2 * p))%nat ->
      cost_function H n p params = Raise IndexError)
  /\ (forall c s,
        cost_function H n p params = Ok (c, s) ->
        length s = Z.to_nat (2 ^ n)).
Proof.
  intros Hn Hsq HH.
  assert (Hshort : (length params < Z.to_nat (2 * p))%nat ->
                   cost_function H n p params = Raise IndexError).
  { intros Hlt; unfold cost_function.
    rewrite plus_state_ok by exact Hn; cbn [bind].
    set (m := Nat.div2 (length params)).
    assert (Hm : (length params = 2 * m \/ length params = 2 * m + 1)%nat).
    { unfold m; destruct (Nat.Even_Odd_dec (length params)) as [E | O].
      - left; rewrite <- Nat.double_twice.
        apply Nat.Even_double; exact E.
      - right; rewrite <- Nat.double_twice, Nat.add_1_r.
        apply Nat.Odd_double; exact O. }
    assert (HP : (m < Z.to_nat p)%nat) by lia.
    unfold range.
    replace (Z.to_nat p) with (m + (1 + (Z.to_nat p - S m)))%nat by lia.
    rewrite seq_app, for_each_app.
    destruct (layers_total H n params Hn Hsq HH m 0
                (real_vec (plus_amplitudes n))) as (s & -> & Hl);
      [ lia | apply length_real_plus | ].
    cbn [bind]; rewrite seq_app; cbn [seq app for_each plus].
    destruct Hm as [Hm | Hm].
    - rewrite (getitem_out params (2 * m)) by lia; reflexivity.
    - destruct (getitem_ok params (2 * m)) as [a ->]; [ lia | ].
      cbn [bind].
      rewrite (getitem_out params (2 * m + 1)) by lia; reflexivity. }
  split; [ split | split ].
  - intros (c & s & E).
    destruct (Nat.le_gt_cases (Z.to_nat (2 * p)) (length params))
      as [Hle | Hlt]; [ exact Hle | ].
    rewrite (Hshort Hlt) in E; discriminate.
  - intros Hle; apply cost_function_total; assumption.
  - exact Hshort.
  - intros c s E.
    destruct (Nat.le_gt_cases (Z.to_nat (2 * p)) (length params))
      as [Hle | Hlt]; [ | rewrite (Hshort Hlt) in E; discriminate ].
    unfold cost_function in E.
    rewrite plus_state_ok in E by exact Hn; cbn [bind] in E.
    destruct (layers_total H n params Hn Hsq HH (Z.to_nat p) 0
                (real_vec (plus_amplitudes n))) as (s' & E' & Hl);
      [ lia | apply length_real_plus | ].
    unfold range in E; rewrite E' in E; cbn [bind] in E.
    destruct (np_dot_mv H s') as [Hs | e]; cbn [bind] in E;
      [ | discriminate ].
    destruct (np_dot_vv (vconj s') Hs) as [e' | e]; cbn [bind] in E;
      [ | discriminate ].
    injection E as _ <-; exact Hl.
Qed.

Lemma cost_function_needs_2p_angles_witness :
  ((exists c s, cost_function (H_operator [c1; c0]) 1 2 [0; 0; 0] = Ok (c, s))
   <-> (Z.to_nat (2 * 2) <= length [0; 0; 0])%nat)
  /\ ((length [0; 0; 0] < Z.to_nat (2 * 2))%nat ->
      cost_function (H_operator [c1; c0]) 1 2 [0; 0; 0] = Raise IndexError)
  /\ (forall c s,
        cost_function (H_operator [c1; c0]) 1 2 [0; 0; 0] = Ok (c, s) ->
        length s = Z.to_nat (2 ^ 1)).
Proof.
  apply (cost_function_needs_2p_angles (H_operator [c1; c0]) 1 2 [0; 0; 0]);
    [ lia | reflexivity | reflexivity ].
Defined.

(** ** The evaluator without layers *)

(** The last line of [cost_function], for the generator of a real target. *)
Lemma cost_of_state (r : list R) (s : vec) :
  length s = length r ->
  (Hs <- np_dot_mv (H_operator (real_vec r)) s ;;
   e <- np_dot_vv (vconj s) Hs ;;
   Ok (re e, s))
  = Ok (- cabs2 (dotsum (real_vec r) s), s).
Proof.
  intros Hl.
  assert (Hl' : length s = length (real_vec r))
    by (unfold real_vec; rewrite length_map; exact Hl).
  rewrite np_dot_mv_H by exact Hl'; cbn [bind].
  rewrite np_dot_vv_conj_neg_scaled by exact Hl'; cbn [bind].
  rewrite dotsum_conj_real.
  f_equal; f_equal; unfold cabs2; simpl; ring.
Qed.

Lemma dotsum_real_repeat (t : list R) (q : R) :
  dotsum (real_vec t) (real_vec (repeat q (length t))) = RtoC (q * rsum t).
Proof.
  induction t as [ | x t IH ].
  - cbn; apply complex_eq; cbn; ring.
  - cbn [length repeat real_vec map]; rewrite dotsum_cons.
    fold (real_vec t); fold (real_vec (repeat q (length t))).
    rewrite IH; unfold rsum; cbn [fold_right].
    apply complex_eq; cbn [re im RtoC cadd cmul]; ring.
Qed.

Lemma dotsum_real_plus (n : Z) (t : list R) :
  length t = Z.to_nat (2 ^ n) ->
  dotsum (real_vec t) (real_vec (plus_amplitudes n))
  = RtoC (1 / sqrt (IZR (2 ^ n)) * rsum t).
Proof.
  intros Hl; unfold plus_amplitudes; rewrite <- Hl.
  apply dotsum_real_repeat.
Qed.

(** X6: with [p <= 0] the loop body never runs: the evaluator reads no
    angle, returns the uniform superposition, and the cost for the
    generator of a real target [t] is [- (sum t)^2 / 2^n]. *)
Theorem cost_function_without_layers (n p : Z) (t params : list R) :
  (0 <= n)%Z -> (p <= 0)%Z -> length t = Z.to_nat (2 ^ n) ->
  cost_function (H_operator (real_vec t)) n p params
  = Ok (- ((rsum t) ^ 2 / IZR (2 ^ n)), real_vec (plus_amplitudes n)).
Proof.
  intros Hn Hp Hl; unfold cost_function.
  rewrite plus_state_ok by exact Hn; cbn [bind].
  unfold range; replace (Z.to_nat p) with 0%nat by lia.
  cbn [seq for_each bind].
  rewrite cost_of_state by (rewrite length_real_plus; symmetry; exact Hl).
  rewrite dotsum_real_plus by exact Hl.
  f_equal; f_equal; unfold cabs2; cbn [re im RtoC].
  pose proof (inv_sqrt_squared (IZR (2 ^ n)) (pow2_IZR_pos n Hn)) as Hq.
  set (q := 1 / sqrt (IZR (2 ^ n))) in *.
  replace (- (q * rsum t * (q * rsum t) + 0 * 0))
    with (- ((q * q) * (rsum t * rsum t))) by ring.
  rewrite Hq; field.
  apply Rgt_not_eq, pow2_IZR_pos; exact Hn.
Qed.

Lemma cost_function_without_layers_witness :
  cost_function (H_operator (real_vec [0; 1])) 1 0 []
  = Ok (- ((rsum [0; 1]) ^ 2 / IZR (2 ^ 1)), real_vec (plus_amplitudes 1)).
Proof.
  apply (cost_function_without_layers 1 0 [0; 1] []);
    [ lia | lia | reflexivity ].
Defined.

(** ** A layer with both angles zero *)

Lemma cmul_c0_r (z : complex) : (z * c0)%cpx = c0.
Proof. apply complex_eq; cbn; ring. Qed.

Lemma entry_scal_mat (z : complex) (M : mat) (i l : nat) :
  entry (scal_mat z M) i l = (z * entry M i l)%cpx.
Proof.
  unfold entry, scal_mat.
  rewrite (nth_map_gen (map (cmul z)) M i [] []) by reflexivity.
  apply nth_map_gen, cmul_c0_r.
Qed.

Lemma mat_pow_of_zero (N : nat) (A : nat -> nat -> complex) :
  (forall m l, A m l = c0) ->
  forall k i l, mat_pow N A (S k) i l = c0.
Proof.
  intros HA k i l; cbn [mat_pow].
  rewrite (csum_ext _ _ (fun _ => c0)); [ apply csum_zero | ].
  intros m _; rewrite HA; apply cmul_c0_r.
Qed.

Lemma exp_partial_of_zero (N : nat) (A : nat -> nat -> complex) :
  (forall m l, A m l = c0) ->
  forall n i l,
    exp_partial N A n i l = if (i =? l)%nat then c1 else c0.
Proof.
  intros HA n i l; unfold exp_partial.
  induction n as [ | n IH ].
  - cbn [csum mat_pow fact INR].
    destruct (i =? l)%nat; apply complex_eq; cbn; field.
  - change (csum (S (S n)) ?f) with (csum (S n) f + f (S n))%cpx.
    rewrite IH, mat_pow_of_zero by exact HA.
    destruct (i =? l)%nat; apply complex_eq; cbn; ring.
Qed.

Lemma exp_entry_of_zero (N : nat) (A : nat -> nat -> complex) (i l : nat) :
  (forall m l, A m l = c0) ->
  exp_entry N A i l = if (i =? l)%nat then c1 else c0.
Proof.
  intros HA; unfold exp_entry.
  set (d := if (i =? l)%nat then c1 else c0).
  rewrite (Rlim_eq _ (re d)), (Rlim_eq _ (im d)).
  - destruct d; reflexivity.
  - intros eps Heps; exists 0%nat; intros n _.
    rewrite exp_partial_of_zero by exact HA; fold d.
    unfold Rdist; rewrite Rminus_diag, Rabs_R0; exact Heps.
  - intros eps Heps; exists 0%nat; intros n _.
    rewrite exp_partial_of_zero by exact HA; fold d.
    unfold Rdist; rewrite Rminus_diag, Rabs_R0; exact Heps.
Qed.

(** [expm(-1j * 0 * A)] is the identity. *)
Lemma la_expm_zero_angle (A : mat) :
  is_square A = true ->
  la_expm (scal_mat (- cj * RtoC 0)%cpx A) = Ok (identity (length A)).
Proof.
  intros Hsq; unfold la_expm.
  rewrite is_square_scal_eq, Hsq.
  replace (length (scal_mat (- cj * RtoC 0)%cpx A)) with (length A)
    by (unfold scal_mat; rewrite length_map; reflexivity).
  apply f_equal; unfold identity, tabulate.
  apply map_ext; intros i; apply map_ext; intros l.
  apply exp_entry_of_zero; intros m k.
  rewrite entry_scal_mat; apply complex_eq; cbn; ring.
Qed.

Lemma np_dot_mv_identity (s : vec) :
  np_dot_mv (identity (length s)) s = Ok s.
Proof.
  unfold np_dot_mv, identity, tabulate.
  rewrite forallb_map_const
    by (intros i; rewrite length_map, length_seq; apply Nat.eqb_refl).
  apply f_equal; rewrite map_map.
  etransitivity; [ | symmetry; apply (list_as_tabulated s c0) ].
  apply map_ext_in; intros i Hi; apply in_seq in Hi.
  rewrite dotsum_csum, length_map, length_seq.
  rewrite (csum_ext _ _
    (fun l => ((if (i =? l)%nat then c1 else c0) * nth l s c0)%cpx)).
  - rewrite csum_delta.
    replace (i <? length s)%nat with true
      by (symmetry; apply Nat.ltb_lt; lia).
    reflexivity.
  - intros l Hl; rewrite nth_tabulated_row by exact Hl; reflexivity.
Qed.

Lemma expm_dot_zero_angle (A : mat) (s : vec) :
  is_square A = true -> length s = length A ->
  (U <- la_expm (scal_mat (- cj * RtoC 0)%cpx A) ;; np_dot_mv U s) = Ok s.
Proof.
  intros Hsq Hl; rewrite la_expm_zero_angle by exact Hsq; cbn [bind].
  rewrite <- Hl; apply np_dot_mv_identity.
Qed.

Lemma qaoa_step_zero_angles (H : mat) (n : Z) (s : vec) :
  (0 <= n)%Z -> is_square H = true ->
  length H = Z.to_nat (2 ^ n) -> length s = Z.to_nat (2 ^ n) ->
  qaoa_step s H n [0; 0] = Ok s.
Proof.
  intros Hn Hsq HH Hs.
  rewrite qaoa_step_unfold by exact Hn.
  rewrite expm_dot_zero_angle by (try exact Hsq; congruence).
  cbn [bind]; apply expm_dot_zero_angle.
  - apply is_square_H_operator.
  - rewrite length_B; exact Hs.
Qed.

Lemma getitem_app_l {A : Type} (l k : list A) (i : nat) :
  (i < length l)%nat -> getitem (l ++ k) i = getitem l i.
Proof.
  intros Hi; unfold getitem; rewrite nth_error_app1 by exact Hi.
  reflexivity.
Qed.

(** X7: a layer with both angles zero returns the state it is given, for
    every square [H] of size [2^n_qubits]; so an angle vector padded with
    two zeros has, one depth further, the cost and the final state of the
    vector itself. *)
Theorem zero_padding_keeps_cost (H : mat) (n p : Z) (params : list R) :
  (0 <= n)%Z -> (0 <= p)%Z -> is_square H = true ->
  length H = Z.to_nat (2 ^ n) -> length params = Z.to_nat (2 * p) ->
  (forall s, length s = Z.to_nat (2 ^ n) -> qaoa_step s H n [0; 0] = Ok s)
  /\ cost_function H n (p + 1) (params ++ [0; 0])
     = cost_function H n p params.
Proof.
  intros Hn Hp Hsq HH Hlen.
  split; [ intros s Hs; apply qaoa_step_zero_angles; assumption | ].
  unfold cost_function.
  rewrite plus_state_ok by exact Hn; cbn [bind].
  unfold range.
  replace (Z.to_nat (p + 1)) with (Z.to_nat p + 1)%nat by lia.
  rewrite seq_app, for_each_app.
  rewrite (for_each_ext (seq 0 (Z.to_nat p)) _
             (fun i st =>
                a <- getitem params (2 * i) ;;
                b <- getitem params (2 * i + 1) ;;
                qaoa_step st H n [a; b])).
  2:{ intros i st Hi; apply in_seq in Hi.
      rewrite !getitem_app_l by lia; reflexivity. }
  destruct (layers_total H n params Hn Hsq HH (Z.to_nat p) 0
              (real_vec (plus_amplitudes n))) as (s & -> & Hl);
    [ lia | apply length_real_plus | ].
  cbn [bind seq for_each plus].
  unfold getitem at 1 2.
  rewrite !nth_error_app2 by lia.
  replace (2 * Z.to_nat p - length params)%nat with 0%nat by lia.
  replace (2 * Z.to_nat p + 1 - length params)%nat with 1%nat by lia.
  cbn [nth_error bind].
  rewrite qaoa_step_zero_angles by assumption.
  reflexivity.
Qed.

Lemma zero_padding_keeps_cost_witness :
  (forall s, length s = Z.to_nat (2 ^ 1) ->
             qaoa_step s (H_operator [c1; c0]) 1 [0; 0] = Ok s)
  /\ cost_function (H_operator [c1; c0]) 1 (1 + 1) ([PI; PI] ++ [0; 0])
     = cost_function (H_operator [c1; c0]) 1 1 [PI; PI].
Proof.
  apply (zero_padding_keeps_cost (H_operator [c1; c0]) 1 1 [PI; PI]);
    [ lia | lia | reflexivity | reflexivity | reflexivity ].
Defined.

(** ** The algebra of the two rotations *)

Lemma dotsum_axpy (k : complex) (a u s : vec) :
  length s = length u ->
  dotsum a (axpy k u s) = (dotsum a s + k * dotsum a u)%cpx.
Proof.
  unfold axpy; revert u s; induction a as [ | x a IH ]; intros u s Hl.
  - change (dotsum [] ?b) with c0; ring.
  - destruct s as [ | y s ]; destruct u as [ | w u ]; try discriminate.
    + change (dotsum (x :: a) []) with c0; cbn [combine map].
      change (dotsum (x :: a) []) with c0; ring.
    + injection Hl as Hl; cbn [combine map fst snd].
      rewrite !dotsum_cons, IH by exact Hl; ring.
Qed.

Lemma axpy_axpy (k1 k2 : complex) (u s : vec) :
  length s = length u ->
  axpy k2 u (axpy k1 u s) = axpy (k1 + k2)%cpx u s.
Proof.
  unfold axpy; revert u; induction s as [ | y s IH ]; intros u Hl.
  - reflexivity.
  - destruct u as [ | w u ]; [ discriminate | ].
    injection Hl as Hl; cbn [combine map fst snd].
    rewrite IH by exact Hl; f_equal; ring.
Qed.

Lemma dotsum_comm (a b : vec) : dotsum a b = dotsum b a.
Proof.
  revert b; induction a as [ | x a IH ]; intros b.
  - destruct b; reflexivity.
  - destruct b as [ | y b ]; [ reflexivity | ].
    rewrite !dotsum_cons, IH; ring.
Qed.

Lemma cis_add (x y : R) : cis (x + y) = (cis x * cis y)%cpx.
Proof.
  unfold cis; rewrite cos_plus, sin_plus.
  apply complex_eq; cbn [re im cmul]; ring.
Qed.

Lemma cis_PI : cis PI = (- c1)%cpx.
Proof.
  unfold cis; rewrite cos_PI, sin_PI; apply complex_eq; cbn; ring.
Qed.

Lemma cis_period (x : R) (k : Z) : cis (x + 2 * IZR k * PI) = cis x.
Proof.
  assert (Hnat : forall m : nat, cis (2 * INR m * PI) = c1).
  { intros m; unfold cis.
    pose proof (cos_period 0 m) as Hc; pose proof (sin_period 0 m) as Hs.
    rewrite Rplus_0_l, cos_0 in Hc; rewrite Rplus_0_l, sin_0 in Hs.
    rewrite Hc, Hs; reflexivity. }
  rewrite cis_add.
  assert (Hk : cis (2 * IZR k * PI) = c1).
  { destruct (Z.le_gt_cases 0 k) as [Hpos | Hneg].
    - rewrite <- (Z2Nat.id k) by exact Hpos.
      rewrite <- INR_IZR_INZ; apply Hnat.
    - replace (2 * IZR k * PI) with (- (2 * IZR (- k) * PI))
        by (rewrite opp_IZR; ring).
      specialize (Hnat (Z.to_nat (- k))).
      rewrite INR_IZR_INZ, Z2Nat.id in Hnat by lia.
      unfold cis in *; rewrite cos_neg, sin_neg.
      injection Hnat as -> ->; apply complex_eq; cbn; ring. }
  rewrite Hk; fold c1; apply complex_eq; cbn; ring.
Qed.

Lemma length_real_vec (r : list R) : length (real_vec r) = length r.
Proof. unfold real_vec; apply length_map. Qed.

(** The component along [r] of a state rotated about [r] turns by the
    angle. *)
Lemma dotsum_rotate_same (r : list R) (x : R) (s : vec) :
  unit_real r -> length s = length r ->
  dotsum (real_vec r) (rotate r x s)
  = (cis x * dotsum (real_vec r) s)%cpx.
Proof.
  intros Hu Hl; unfold rotate.
  rewrite dotsum_axpy by (rewrite length_real_vec; exact Hl).
  rewrite dotsum_real_self, Hu; fold c1; ring.
Qed.

Lemma dotsum_rotate_other (a : vec) (r : list R) (x : R) (s : vec) :
  length s = length r ->
  dotsum a (rotate r x s)
  = (dotsum a s
     + (cis x - c1) * dotsum (real_vec r) s * dotsum a (real_vec r))%cpx.
Proof.
  intros Hl; unfold rotate.
  rewrite dotsum_axpy by (rewrite length_real_vec; exact Hl).
  reflexivity.
Qed.

(** Two rotations about one vector: the angles add. *)
Lemma rotate_rotate (r : list R) (x y : R) (s : vec) :
  unit_real r -> length s = length r ->
  rotate r y (rotate r x s) = rotate r (x + y) s.
Proof.
  intros Hu Hl.
  unfold rotate at 1.
  rewrite (dotsum_rotate_same r x s Hu Hl).
  unfold rotate.
  rewrite axpy_axpy by (rewrite length_real_vec; exact Hl).
  f_equal; rewrite cis_add; ring.
Qed.

Lemma rotate_period (r : list R) (x : R) (k : Z) (s : vec) :
  rotate r (x + 2 * IZR k * PI) s = rotate r x s.
Proof. unfold rotate; rewrite cis_period; reflexivity. Qed.

(** ** How layers compose *)

(** X8: for the generator of a real unit target, a layer whose driver angle
    is zero merges with the next layer, the marking angles adding up; and a
    layer whose marking angle is zero merges with the one before, the driver
    angles adding up. *)
Theorem adjacent_layers_merge (n : Z) (t : list R) (s : vec)
  (a a' b b' : R) :
  (0 <= n)%Z -> length t = Z.to_nat (2 ^ n) -> norm (real_vec t) = 1 ->
  length s = Z.to_nat (2 ^ n) ->
  (s1 <- qaoa_step s (H_operator (real_vec t)) n [a; 0] ;;
   qaoa_step s1 (H_operator (real_vec t)) n [a'; b])
  = qaoa_step s (H_operator (real_vec t)) n [a + a'; b]
  /\ (s1 <- qaoa_step s (H_operator (real_vec t)) n [a; b] ;;
      qaoa_step s1 (H_operator (real_vec t)) n [0; b'])
     = qaoa_step s (H_operator (real_vec t)) n [a; b + b'].
Proof.
  intros Hn Ht Hnorm Hs.
  assert (Hu : unit_real t) by (apply unit_real_of_norm; exact Hnorm).
  assert (Hup : unit_real (plus_amplitudes n))
    by (apply unit_plus_amplitudes; exact Hn).
  assert (Hlp : length (plus_amplitudes n) = Z.to_nat (2 ^ n))
    by apply length_plus_amplitudes.
  assert (Hst : length s = length t) by congruence.
  assert (Hr : forall x, length (rotate t x s) = length t)
    by (intros x; rewrite length_rotate; assumption).
  split.
  - rewrite !qaoa_step_rank1 by assumption; cbn [bind].
    rewrite rotate_zero_angle by (rewrite Hr; congruence).
    rewrite qaoa_step_rank1 by (try assumption; apply Hr).
    rewrite rotate_rotate by assumption; reflexivity.
  - rewrite !qaoa_step_rank1 by assumption; cbn [bind].
    assert (Hl2 : length (rotate (plus_amplitudes n) b (rotate t a s))
                  = length t).
    { rewrite length_rotate; [ apply Hr | rewrite Hr; congruence ]. }
    rewrite qaoa_step_rank1 by assumption.
    rewrite rotate_zero_angle by exact Hl2.
    rewrite rotate_rotate by (try assumption; rewrite Hr; congruence).
    reflexivity.
Qed.

Lemma adjacent_layers_merge_witness :
  (s1 <- qaoa_step [c1; c0] (H_operator (real_vec [1; 0])) 1 [1; 0] ;;
   qaoa_step s1 (H_operator (real_vec [1; 0])) 1 [2; 3])
  = qaoa_step [c1; c0] (H_operator (real_vec [1; 0])) 1 [1 + 2; 3]
  /\ (s1 <- qaoa_step [c1; c0] (H_operator (real_vec [1; 0])) 1 [1; 3] ;;
      qaoa_step s1 (H_operator (real_vec [1; 0])) 1 [0; 4])
     = qaoa_step [c1; c0] (H_operator (real_vec [1; 0])) 1 [1; 3 + 4].
Proof.
  apply (adjacent_layers_merge 1 [1; 0] [c1; c0] 1 2 3 4);
    [ lia | reflexivity | exact norm_basis_2 | reflexivity ].
Defined.

(** ** The angles count modulo [2 pi] *)

Lemma getitem_shifted (params params' : list R) (i : nat) :
  Forall2 (fun x y => exists k : Z, y = x + 2 * IZR k * PI) params params' ->
  match getitem params i, getitem params' i with
  | Ok x, Ok y => exists k : Z, y = x + 2 * IZR k * PI
  | Raise e, Raise e' => e = e'
  | _, _ => False
  end.
Proof.
  intros HF; revert i; induction HF as [ | x y l l' Hxy HF IH ]; intros i.
  - destruct i; reflexivity.
  - destruct i as [ | i ]; [ exact Hxy | apply IH ].
Qed.

Lemma layers_modulo_2pi (n : Z) (t : list R) (params params' : list R) :
  (0 <= n)%Z -> unit_real t -> length t = Z.to_nat (2 ^ n) ->
  Forall2 (fun x y => exists k : Z, y = x + 2 * IZR k * PI) params params' ->
  forall (l : list nat) (s : vec),
    length s = length t ->
    for_each l
      (fun i st =>
         a <- getitem params' (2 * i) ;;
         b <- getitem params' (2 * i + 1) ;;
         qaoa_step st (H_operator (real_vec t)) n [a; b]) s
    = for_each l
        (fun i st =>
           a <- getitem params (2 * i) ;;
           b <- getitem params (2 * i + 1) ;;
           qaoa_step st (H_operator (real_vec t)) n [a; b]) s.
Proof.
  intros Hn Hu Ht HF l; induction l as [ | i l IH ]; intros s Hs.
  - reflexivity.
  - cbn [for_each].
    pose proof (getitem_shifted params params' (2 * i) HF) as Ha.
    pose proof (getitem_shifted params params' (2 * i + 1) HF) as Hb.
    destruct (getitem params (2 * i)) as [a | e],
             (getitem params' (2 * i)) as [a' | e'];
      try contradiction; cbn [bind]; [ | congruence ].
    destruct (getitem params (2 * i + 1)) as [b | e],
             (getitem params' (2 * i + 1)) as [b' | e'];
      try contradiction; cbn [bind]; [ | congruence ].
    destruct Ha as (k & ->); destruct Hb as (m & ->).
    rewrite !qaoa_step_rank1 by assumption.
    rewrite !rotate_period; cbn [bind].
    apply IH.
    rewrite length_rotate; rewrite length_rotate; try assumption.
    rewrite length_plus_amplitudes; congruence.
Qed.

(** X9: for the generator of a real unit target, shifting angles by whole
    multiples of [2 pi] changes neither what a layer returns nor what the
    evaluator returns. *)
Theorem angles_count_modulo_2pi (n : Z) (t : list R) :
  (0 <= n)%Z -> length t = Z.to_nat (2 ^ n) -> norm (real_vec t) = 1 ->
  (forall (s : vec) (a b : R) (k m : Z),
      length s = Z.to_nat (2 ^ n) ->
      qaoa_step s (H_operator (real_vec t)) n
        [a + 2 * IZR k * PI; b + 2 * IZR m * PI]
      = qaoa_step s (H_operator (real_vec t)) n [a; b])
  /\ (forall (p : Z) (params params' : list R),
        Forall2 (fun x y => exists k : Z, y = x + 2 * IZR k * PI)
          params params' ->
        cost_function (H_operator (real_vec t)) n p params'
        = cost_function (H_operator (real_vec t)) n p params).
Proof.
  intros Hn Ht Hnorm.
  assert (Hu : unit_real t) by (apply unit_real_of_norm; exact Hnorm).
  split.
  - intros s a b k m Hs.
    rewrite !qaoa_step_rank1 by (try assumption; congruence).
    rewrite !rotate_period; reflexivity.
  - intros p params params' HF; unfold cost_function.
    rewrite plus_state_ok by exact Hn; cbn [bind].
    rewrite (layers_modulo_2pi n t params params' Hn Hu Ht HF);
      [ reflexivity | rewrite length_real_plus; congruence ].
Qed.

Lemma angles_count_modulo_2pi_witness :
  (forall (s : vec) (a b : R) (k m : Z),
      length s = Z.to_nat (2 ^ 1) ->
      qaoa_step s (H_operator (real_vec [1; 0])) 1
        [a + 2 * IZR k * PI; b + 2 * IZR m * PI]
      = qaoa_step s (H_operator (real_vec [1; 0])) 1 [a; b])
  /\ (forall (p : Z) (params params' : list R),
        Forall2 (fun x y => exists k : Z, y = x + 2 * IZR k * PI)
          params params' ->
        cost_function (H_operator (real_vec [1; 0])) 1 p params'
        = cost_function (H_operator (real_vec [1; 0])) 1 p params).
Proof.
  apply (angles_count_modulo_2pi 1 [1; 0]);
    [ lia | reflexivity | exact norm_basis_2 ].
Defined.

(** ** One layer with both angles [pi]: a Grover iteration *)

Lemma rsum_indicator (k : nat) (c : R) (N a : nat) :
  rsum (map (fun i => if (i =? k)%nat then c else 0) (seq a N))
  = if ((a <=? k) && (k <? a + N))%nat then c else 0.
Proof.
  revert a; induction N as [ | N IH ]; intros a.
  - cbn [seq map rsum fold_right].
    destruct (Nat.leb_spec a k), (Nat.ltb_spec k (a + 0)); cbn; try reflexivity.
    lia.
  - cbn [seq map]; unfold rsum in *; cbn [fold_right]; rewrite IH.
    destruct (Nat.eqb_spec a k) as [E | E];
      destruct (Nat.leb_spec (S a) k), (Nat.ltb_spec k (S a + N)),
               (Nat.leb_spec a k), (Nat.ltb_spec k (a + S N));
      cbn [andb]; try lia; lra.
Qed.

Lemma rsum_basis (N k : nat) :
  (k < N)%nat -> rsum (basis_amplitudes N k) = 1.
Proof.
  intros Hk; unfold basis_amplitudes; rewrite rsum_indicator.
  destruct (Nat.leb_spec 0 k), (Nat.ltb_spec k (0 + N));
    cbn [andb]; try lia; reflexivity.
Qed.

Lemma unit_real_basis (N k : nat) :
  (k < N)%nat -> unit_real (basis_amplitudes N k).
Proof.
  intros Hk; unfold unit_real, basis_amplitudes; rewrite map_map.
  rewrite (map_ext _ (fun i => if (i =? k)%nat then 1 else 0))
    by (intros i; destruct (i =? k)%nat; ring).
  apply (rsum_basis N k Hk).
Qed.

Lemma length_basis (N k : nat) : length (basis_amplitudes N k) = N.
Proof. unfold basis_amplitudes; rewrite length_map; apply length_seq. Qed.

Lemma real_vec_basis (N k : nat) :
  real_vec (basis_amplitudes N k) = one_hot N k.
Proof.
  unfold real_vec, basis_amplitudes, one_hot; rewrite map_map.
  apply map_ext; intros i; destruct (i =? k)%nat; reflexivity.
Qed.

(** X10: for a basis-state target among [N = 2^n] states, one layer with both
    angles [pi] is one Grover iteration: the evaluator returns the cost
    [- (3 - 4/N)^2 / N]. *)
Theorem grover_layer_cost (n : Z) (k : nat) :
  (0 <= n)%Z -> (k < Z.to_nat (2 ^ n))%nat ->
  exists s,
    cost_function (H_operator (one_hot (Z.to_nat (2 ^ n)) k)) n 1 [PI; PI]
    = Ok (- ((3 - 4 / IZR (2 ^ n)) ^ 2 / IZR (2 ^ n)), s).
Proof.
  intros Hn Hk.
  set (t := basis_amplitudes (Z.to_nat (2 ^ n)) k).
  assert (Hu : unit_real t) by (apply unit_real_basis; exact Hk).
  assert (Ht : length t = Z.to_nat (2 ^ n)) by apply length_basis.
  assert (Hup : unit_real (plus_amplitudes n))
    by (apply unit_plus_amplitudes; exact Hn).
  assert (Hlp : length (plus_amplitudes n) = Z.to_nat (2 ^ n))
    by apply length_plus_amplitudes.
  rewrite <- real_vec_basis; fold t.
  unfold cost_function.
  rewrite plus_state_ok by exact Hn; cbn [bind].
  change (range 1) with [0%nat]; cbn [for_each Nat.mul Nat.add].
  cbn [getitem nth_error bind].
  rewrite qaoa_step_rank1
    by (try assumption; rewrite length_real_plus; congruence).
  cbn [bind].
  set (s0 := real_vec (plus_amplitudes n)).
  set (s1 := rotate t PI s0).
  set (s2 := rotate (plus_amplitudes n) PI s1).
  assert (L0 : length s0 = length t)
    by (unfold s0; rewrite length_real_plus; congruence).
  assert (L1 : length s1 = length t)
    by (unfold s1; rewrite length_rotate; assumption).
  assert (L2 : length s2 = length t)
    by (unfold s2; rewrite length_rotate; congruence).
  rewrite cost_of_state by exact L2.
  exists s2; f_equal; f_equal.
  pose proof (inv_sqrt_squared (IZR (2 ^ n)) (pow2_IZR_pos n Hn)) as Hq.
  set (q := 1 / sqrt (IZR (2 ^ n))) in *.
  assert (D0 : dotsum (real_vec t) s0 = RtoC q).
  { unfold s0; rewrite dotsum_real_plus by exact Ht.
    unfold t; rewrite rsum_basis by exact Hk.
    fold q; f_equal; ring. }
  assert (D1 : dotsum (real_vec t) s1 = RtoC (- q)).
  { unfold s1; rewrite dotsum_rotate_same, D0, cis_PI by assumption.
    apply complex_eq; cbn; ring. }
  assert (E1 : dotsum s0 s1 = RtoC (1 - 2 * (q * q))).
  { unfold s1; rewrite dotsum_rotate_other by exact L0.
    rewrite D0, cis_PI, (dotsum_comm s0 (real_vec t)), D0.
    unfold s0; rewrite dotsum_real_self, Hup.
    apply complex_eq; cbn; ring. }
  assert (D2 : dotsum (real_vec t) s2 = RtoC (q * (4 * (q * q) - 3))).
  { unfold s2; rewrite dotsum_rotate_other by congruence.
    fold s0; rewrite E1, D1, D0, cis_PI.
    apply complex_eq; cbn; ring. }
  rewrite D2; unfold cabs2; cbn [re im RtoC].
  replace (q * (4 * (q * q) - 3) * (q * (4 * (q * q) - 3)) + 0 * 0)
    with ((q * q) * ((3 - 4 * (q * q)) * (3 - 4 * (q * q)))) by ring.
  rewrite Hq; field.
  apply Rgt_not_eq, pow2_IZR_pos; exact Hn.
Qed.

Lemma grover_layer_cost_witness :
  exists s,
    cost_function (H_operator (one_hot (Z.to_nat (2 ^ 4)) 5)) 4 1 [PI; PI]
    = Ok (- ((3 - 4 / IZR (2 ^ 4)) ^ 2 / IZR (2 ^ 4)), s).
Proof. apply (grover_layer_cost 4 5); [ lia | cbn; lia ]. Defined.

(** ** The target of the numpy/scipy notebook *)

Lemma s_0101_one_hot : s_0101 = one_hot 16 5.
Proof.
  unfold s_0101, np_kron, zero_state, one_state, one_hot.
  cbn [flat_map map app seq Nat.eqb].
  repeat (apply f_equal2; [ apply complex_eq; cbn; ring | ]).
  reflexivity.
Qed.

(** ** [overlap] *)

Lemma overlap_mismatch (t s : vec) :
  length s <> length t -> overlap t s = Raise ValueError.
Proof.
  intros Hl; unfold overlap, np_dot_mv, np_outer.
  destruct t as [ | x t ].
  - cbn [map forallb bind]; unfold np_dot_vv, vconj.
    rewrite length_map; cbn [length] in *.
    destruct (Nat.eqb_spec (length s) 0); [ contradiction | reflexivity ].
  - cbn [map forallb length]; rewrite length_map.
    cbn [length] in Hl.
    destruct (Nat.eqb_spec (S (length t)) (length s)) as [E | _];
      [ congruence | reflexivity ].
Qed.

(** X11: [overlap(target, state)] returns exactly when the two arrays have
    one length, and raises [ValueError] otherwise; what it returns is the
    real part of [(conj(state) . target) * (target . state)], in which the
    target is not conjugated. *)
Theorem overlap_defined_iff_same_length (t s : vec) :
  ((exists f, overlap t s = Ok f) <-> length s = length t)
  /\ (length s <> length t -> overlap t s = Raise ValueError)
  /\ (length s = length t ->
      overlap t s = Ok (re (dotsum (vconj s) t * dotsum t s)%cpx)).
Proof.
  split; [ split | split ].
  - intros (f & E).
    destruct (Nat.eq_dec (length s) (length t)) as [Hl | Hl];
      [ exact Hl | ].
    rewrite overlap_mismatch in E by exact Hl; discriminate.
  - intros Hl; eexists; apply overlap_closed; exact Hl.
  - apply overlap_mismatch.
  - apply overlap_closed.
Qed.

Lemma overlap_defined_iff_same_length_witness :
  overlap [c1; c0] [c1] = Raise ValueError
  /\ overlap [cj; c0] [c1; c0]
     = Ok (re (dotsum (vconj [c1; c0]) [cj; c0]
               * dotsum [cj; c0] [c1; c0])%cpx).
Proof.
  split.
  - apply (proj1 (proj2 (overlap_defined_iff_same_length [c1; c0] [c1])));
      cbn; lia.
  - apply (proj2 (proj2 (overlap_defined_iff_same_length
                           [cj; c0] [c1; c0]))); reflexivity.
Defined.

Lemma vconj_scale (z : complex) (s : vec) :
  vconj (map (cmul z) s) = map (cmul (cconj z)) (vconj s).
Proof.
  unfold vconj; rewrite !map_map; apply map_ext; intros x.
  apply complex_eq; cbn; ring.
Qed.

Lemma dotsum_map_cmul (z : complex) (a b : vec) :
  dotsum a (map (cmul z) b) = (z * dotsum a b)%cpx.
Proof.
  rewrite (dotsum_comm a), dotsum_scale_l, (dotsum_comm b); reflexivity.
Qed.

(** X12: scaling the state by a complex number [z] scales the overlap by
    [|z|^2]; a global phase of the state does not change it. *)
Theorem overlap_scales_with_state (t s : vec) (z : complex) :
  overlap t (map (cmul z) s)
  = (f <- overlap t s ;; Ok (cabs2 z * f))
  /\ (cabs2 z = 1 -> overlap t (map (cmul z) s) = overlap t s).
Proof.
  assert (Hmain : overlap t (map (cmul z) s)
                  = (f <- overlap t s ;; Ok (cabs2 z * f))).
  { destruct (Nat.eq_dec (length s) (length t)) as [Hl | Hl].
    - rewrite !overlap_closed by (rewrite ?length_map; exact Hl).
      cbn [bind]; rewrite vconj_scale, dotsum_scale_l, dotsum_map_cmul.
      f_equal; unfold cabs2; cbn [re im cmul cconj]; ring.
    - rewrite !overlap_mismatch by (rewrite ?length_map; exact Hl).
      reflexivity. }
  split; [ exact Hmain | ].
  intros Hz; rewrite Hmain, Hz.
  destruct (overlap t s) as [f | e]; cbn [bind]; [ | reflexivity ].
  f_equal; ring.
Qed.

Lemma overlap_scales_with_state_witness :
  overlap [c1; c0] (map (cmul cj) [c1; c0]) = overlap [c1; c0] [c1; c0].
Proof.
  apply (proj2 (overlap_scales_with_state [c1; c0] [c1; c0] cj)).
  unfold cabs2; cbn; ring.
Defined.

(** X13: on real arrays of one length [overlap] is symmetric and not
    negative, and the overlap of a real unit vector with itself is [1]. *)
Theorem overlap_of_real_arrays (a b : list R) :
  length a = length b ->
  overlap (real_vec a) (real_vec b) = overlap (real_vec b) (real_vec a)
  /\ (exists f, overlap (real_vec a) (real_vec b) = Ok f /\ 0 <= f)
  /\ (norm (real_vec a) = 1 -> overlap (real_vec a) (real_vec a) = Ok 1).
Proof.
  intros Hl.
  assert (Hab : length (real_vec b) = length (real_vec a))
    by (rewrite !length_real_vec; congruence).
  split; [ | split ].
  - rewrite !overlap_closed by congruence.
    rewrite !vconj_real_vec, (dotsum_comm (real_vec b) (real_vec a)).
    reflexivity.
  - rewrite overlap_real by (rewrite length_real_vec; congruence).
    eexists; split; [ reflexivity | apply cabs2_nonneg ].
  - intros Hn; rewrite overlap_real by apply length_real_vec.
    unfold inner; rewrite vconj_real_vec, dotsum_real_self.
    rewrite (unit_real_of_norm a Hn).
    f_equal; unfold cabs2; cbn; ring.
Qed.

Lemma overlap_of_real_arrays_witness :
  overlap (real_vec [1; 0]) (real_vec [0; 1])
  = overlap (real_vec [0; 1]) (real_vec [1; 0])
  /\ overlap (real_vec [1; 0]) (real_vec [1; 0]) = Ok 1.
Proof.
  split.
  - apply (proj1 (overlap_of_real_arrays [1; 0] [0; 1] eq_refl)).
  - apply (proj2 (proj2 (overlap_of_real_arrays [1; 0] [1; 0] eq_refl))).
    exact norm_basis_2.
Defined.

(** ** [get_params]: what is handed to the optimizer and what comes back *)

Lemma map_m_map {A B C : Type} (f : B -> result C) (g : A -> B)
  (l : list A) :
  map_m f (map g l) = map_m (fun x => f (g x)) l.
Proof.
  induction l as [ | x l IH ]; [ reflexivity | ].
  cbn [map map_m]; rewrite IH; reflexivity.
Qed.

(** [[x[i] for i in range(k)]]: the first [k] entries of [x], or
    [IndexError] when [x] has fewer. *)
Lemma map_m_getitem_seq (x : list R) (k : nat) :
  map_m (fun i => getitem x i) (seq 0 k)
  = if (k <=? length x)%nat then Ok (firstn k x) else Raise IndexError.
Proof.
  revert x; induction k as [ | k IH ]; intros x.
  - reflexivity.
  - cbn [seq map_m]; destruct x as [ | y x ]; [ reflexivity | ].
    cbn [getitem nth_error bind length firstn].
    rewrite <- seq_shift, map_m_map.
    change (fun i => getitem (y :: x) (S i)) with (fun i => getitem x i).
    rewrite IH; change (S k <=? S (length x))%nat with (k <=? length x)%nat.
    destruct (k <=? length x)%nat; reflexivity.
Qed.

Lemma angle_bounds_tabulated (p : Z) :
  angle_bounds p
  = map (fun i => (0, if Nat.even i then 2 * PI else PI)) (range (2 * p)).
Proof.
  unfold angle_bounds, range.
  generalize (seq 0 (Z.to_nat (2 * p))) as l.
  induction l as [ | i l IH ]; [ reflexivity | ].
  cbn [map combine]; rewrite IH; reflexivity.
Qed.

Lemma length_angle_bounds (p : Z) :
  length (angle_bounds p) = Z.to_nat (2 * p).
Proof.
  rewrite angle_bounds_tabulated, length_map; unfold range.
  apply length_seq.
Qed.

Lemma in_box_constant (c : R) (p : Z) :
  0 <= c <= PI ->
  in_box (map (fun _ => c) (range (2 * p))) (angle_bounds p).
Proof.
  intros Hc; rewrite angle_bounds_tabulated; unfold in_box, range.
  generalize (seq 0 (Z.to_nat (2 * p))) as l.
  induction l as [ | i l IH ]; [ constructor | ].
  cbn [map]; constructor; [ | exact IH ].
  cbn [fst snd]; pose proof PI_RGT_0.
  destruct (Nat.even i); lra.
Qed.

Lemma in_box_length (x : list R) (b : list (R * R)) :
  in_box x b -> length x = length b.
Proof. apply Forall2_length. Qed.

(** X14: [get_params] of the numpy/scipy notebook starts the optimizer from
    [2 p] angles [pi/4], a point of the box of the bounds; it returns the
    first [2 p] entries of the optimizer's answer, raises [IndexError] when
    the answer has fewer, and passes on what the optimizer raises.  What it
    returns has exactly [2 p] entries. *)
Theorem get_params_shape
  (basinhopping :
     (list R -> result R) -> list R -> list (R * R) -> result (list R))
  (H : mat) (n p : Z) :
  let fun_ := fun x => cs <- cost_function H n p x ;; Ok (fst cs) in
  let params_0 := map (fun _ => 0.25 * PI) (range (2 * p)) in
  length params_0 = Z.to_nat (2 * p)
  /\ in_box params_0 (angle_bounds p)
  /\ (forall x,
        basinhopping fun_ params_0 (angle_bounds p) = Ok x ->
        get_params basinhopping H n p
        = if (Z.to_nat (2 * p) <=? length x)%nat
          then Ok (firstn (Z.to_nat (2 * p)) x)
          else Raise IndexError)
  /\ (forall e,
        basinhopping fun_ params_0 (angle_bounds p) = Raise e ->
        get_params basinhopping H n p = Raise e)
  /\ (forall angles,
        get_params basinhopping H n p = Ok angles ->
        length angles = Z.to_nat (2 * p)).
Proof.
  intros fun_ params_0.
  split; [ unfold params_0, range; rewrite length_map; apply length_seq | ].
  split; [ apply in_box_constant; pose proof PI_RGT_0; lra | ].
  assert (Hx : forall x,
             basinhopping fun_ params_0 (angle_bounds p) = Ok x ->
             get_params basinhopping H n p
             = if (Z.to_nat (2 * p) <=? length x)%nat
               then Ok (firstn (Z.to_nat (2 * p)) x)
               else Raise IndexError).
  { intros x E; unfold get_params; fold fun_; fold params_0.
    rewrite E; cbn [bind]; unfold range; apply map_m_getitem_seq. }
  split; [ exact Hx | ].
  split.
  - intros e E; unfold get_params; fold fun_; fold params_0.
    rewrite E; reflexivity.
  - intros angles E.
    destruct (basinhopping fun_ params_0 (angle_bounds p)) as [x | e] eqn:Eb.
    + rewrite (Hx x eq_refl) in E.
      destruct (Nat.leb_spec (Z.to_nat (2 * p)) (length x)) as [Hle | Hlt];
        [ | discriminate ].
      injection E as <-; apply firstn_length_le; exact Hle.
    + unfold get_params in E; fold fun_ in E; fold params_0 in E.
      rewrite Eb in E; discriminate.
Qed.

Lemma get_params_shape_witness :
  get_params idle_optimizer (H_operator [c1; c0]) 1 1
  = Ok [0.25 * PI; 0.25 * PI].
Proof.
  exact (proj1 (proj2 (proj2
           (get_params_shape idle_optimizer (H_operator [c1; c0]) 1 1)))
           [0.25 * PI; 0.25 * PI] eq_refl).
Defined.

(** ** The qit notebook: the uniform state *)

Lemma range_from_1_succ (n : Z) :
  (1 <= n)%Z -> range_from 1 (n + 1) = range_from 1 n ++ [Z.to_nat n].
Proof.
  intros Hn; unfold range_from.
  replace (Z.to_nat (n + 1 - 1)) with (S (Z.to_nat (n - 1))) by lia.
  rewrite seq_S; f_equal; f_equal.
  change (Z.to_nat 1) with 1%nat; lia.
Qed.

Lemma qit_initial_state_small {L : Qit.Library} (n : Z) :
  (n <= 1)%Z -> Qit.initial_state n = Qit.initial_state 1.
Proof.
  intros Hn; unfold Qit.initial_state, range_from.
  replace (Z.to_nat (n - 1)) with 0%nat by lia.
  reflexivity.
Qed.

Lemma qit_initial_state_succ {L : Qit.Library} (n : Z) :
  (1 <= n)%Z ->
  Qit.initial_state (n + 1)
  = (s <- Qit.initial_state n ;;
     q <- Qit.initial_state 1 ;;
     Ok (Qit.tensor s q)).
Proof.
  intros Hn; unfold Qit.initial_state.
  rewrite range_from_1_succ by exact Hn.
  change (range_from 1 1) with (@nil nat).
  destruct (Qit.add (Qit.ket [false]) (Qit.ket [true])) as [s01 | e];
    cbn [bind]; [ | reflexivity ].
  rewrite for_each_app.
  destruct (for_each (range_from 1 n)
              (fun _ state => Ok (Qit.tensor state (Qit.div s01 (sqrt 2))))
              (Qit.div s01 (sqrt 2))) as [s | e];
    reflexivity.
Qed.

(** X15: [initial_state(n)] of the qit notebook never looks at the sign of
    [n]: for every [n <= 1], zero and the negative numbers included, it is
    the one-qubit state [initial_state(1)]; and for [n >= 1],
    [initial_state(n + 1)] is [initial_state(n)] tensored with one more
    one-qubit uniform state on the right. *)
Theorem initial_state_by_qubits {L : Qit.Library} (n : Z) :
  ((n <= 1)%Z -> Qit.initial_state n = Qit.initial_state 1)
  /\ ((1 <= n)%Z ->
      Qit.initial_state (n + 1)
      = (s <- Qit.initial_state n ;;
         q <- Qit.initial_state 1 ;;
         Ok (Qit.tensor s q))).
Proof.
  split; [ apply qit_initial_state_small | apply qit_initial_state_succ ].
Qed.

Lemma initial_state_by_qubits_witness :
  Qit.initial_state (L := kets) (-3) = Qit.initial_state (L := kets) 1
  /\ Qit.initial_state (L := kets) (2 + 1)
     = (s <- Qit.initial_state (L := kets) 2 ;;
        q <- Qit.initial_state (L := kets) 1 ;;
        Ok (@Qit.tensor kets s q)).
Proof.
  split.
  - apply (proj1 (initial_state_by_qubits (L := kets) (-3))); lia.
  - apply (proj2 (initial_state_by_qubits (L := kets) 2)); lia.
Defined.

(** ** The qit notebook: the start vectors of the depth sweep *)

Section SweepInvariants.

Context {L : Qit.Library}.

Variable basinhopping :
  (list R -> result R) -> list R -> list (R * R) -> result (list R).

Variable target : Qit.state.
Variable n : Z.

Lemma qit_get_params_result (p : Z) (params_0 : list R) :
  Qit.get_params basinhopping target n p params_0
  = (x <- basinhopping
            (fun x => fs <- Qit.F_function target n p x ;; Ok (fst fs))
            params_0 (angle_bounds p) ;;
     if (Z.to_nat (2 * p) <=? length x)%nat
     then Ok (firstn (Z.to_nat (2 * p)) x)
     else Raise IndexError).
Proof.
  unfold Qit.get_params.
  destruct (basinhopping _ params_0 (angle_bounds p)) as [x | e];
    cbn [bind]; [ | reflexivity ].
  unfold range; apply map_m_getitem_seq.
Qed.

Lemma qit_get_params_length (p : Z) (params_0 angles : list R) :
  Qit.get_params basinhopping target n p params_0 = Ok angles ->
  length angles = Z.to_nat (2 * p).
Proof.
  rewrite qit_get_params_result.
  destruct (basinhopping _ params_0 (angle_bounds p)) as [x | e];
    cbn [bind]; [ | discriminate ].
  destruct (Nat.leb_spec (Z.to_nat (2 * p)) (length x)) as [Hle | Hlt];
    [ | discriminate ].
  intros [= <-]; apply firstn_length_le; exact Hle.
Qed.

Lemma running_angles_length (k : nat) (w : list R) :
  Qit.running_angles basinhopping target n k = Ok w ->
  length w = (2 * (k + 1))%nat.
Proof.
  unfold Qit.running_angles; destruct k as [ | k ].
  - intros [= <-]; reflexivity.
  - cbn [Qit.running_from].
    destruct (Qit.running_from basinhopping target n 1 _ k) as [w' | e];
      cbn [bind]; [ | discriminate ].
    destruct (Qit.get_params basinhopping target n (Z.of_nat (1 + k)) w')
      as [angles | e] eqn:Eg; cbn [bind]; [ | discriminate ].
    intros [= <-]; rewrite length_app.
    rewrite (qit_get_params_length _ _ _ Eg); cbn [length]; lia.
Qed.

Lemma bounds_ordered (p : Z) :
  Forall (fun lh : R * R => fst lh <= snd lh) (angle_bounds p).
Proof.
  rewrite angle_bounds_tabulated; apply Forall_forall; intros lh Hin.
  apply in_map_iff in Hin; destruct Hin as (i & <- & _); cbn [fst snd].
  pose proof PI_RGT_0; destruct (Nat.even i); lra.
Qed.

Lemma angle_bounds_succ (k : nat) :
  angle_bounds (Z.of_nat (S k))
  = angle_bounds (Z.of_nat k) ++ [(0, 2 * PI); (0, PI)].
Proof.
  rewrite !angle_bounds_tabulated; unfold range.
  replace (Z.to_nat (2 * Z.of_nat (S k))) with (2 * k + 2)%nat by lia.
  replace (Z.to_nat (2 * Z.of_nat k)) with (2 * k)%nat by lia.
  rewrite seq_app, map_app; f_equal.
  cbn [seq map Nat.add].
  assert (He : Nat.even (2 * k) = true).
  { apply Nat.even_spec; exists k; reflexivity. }
  assert (Ho : Nat.even (S (2 * k)) = false).
  { rewrite Nat.even_succ, <- Nat.negb_even, He; reflexivity. }
  rewrite He, Ho; reflexivity.
Qed.

End SweepInvariants.

(** X16: in the depth sweep of [calc_n_p], the vector from which the
    optimizer is started at depth [k + 1] ([running_angles k]) has exactly
    [2 (k + 1)] entries, whatever the optimizer returned before: the answer
    of each depth is cut to its [2 p] first entries and extended by two.
    In a run that returned, every depth has such a start vector, and the
    angles kept at depth [k + 1] are [2 (k + 1)] too. *)
Theorem sweep_start_vectors_have_2p_entries {L : Qit.Library}
  (basinhopping :
     (list R -> result R) -> list R -> list (R * R) -> result (list R))
  (target : Qit.state) (n P : Z) :
  (forall k w,
      Qit.running_angles basinhopping target n k = Ok w ->
      length w = (2 * (k + 1))%nat)
  /\ (forall fids ps,
        Qit.calc_n_p basinhopping target n P = Ok (fids, ps) ->
        forall k, (k < Z.to_nat P)%nat ->
          exists w angles,
            Qit.running_angles basinhopping target n k = Ok w
            /\ length w = (2 * (k + 1))%nat
            /\ Qit.get_params basinhopping target n (Z.of_nat (1 + k)) w
               = Ok angles
            /\ length angles = (2 * (k + 1))%nat).
Proof.
  split; [ apply running_angles_length | ].
  intros fids ps E k Hk.
  rewrite calc_n_p_unfold in E.
  destruct (Qit.sweep_spec basinhopping target n 1 (Z.to_nat P)
              [0.5 * PI; 0.5 * PI]) as [recs | e] eqn:Es;
    cbn [bind] in E; [ | discriminate ].
  destruct (sweep_spec_nth basinhopping target n _ _ _ _ Es k Hk)
    as (w & angles & fs & f & Hw & Hg & _).
  exists w, angles.
  split; [ exact Hw | ].
  split; [ apply (running_angles_length basinhopping target n k w Hw) | ].
  split; [ exact Hg | ].
  rewrite (qit_get_params_length _ _ _ _ _ _ Hg); lia.
Qed.

Lemma sweep_start_vectors_have_2p_entries_witness :
  length [0; 0; 0; 0] = (2 * (1 + 1))%nat.
Proof.
  apply (proj1 (sweep_start_vectors_have_2p_entries (L := kets)
                  corner_optimizer (real_vec [1; 0]) 1 2) 1%nat [0; 0; 0; 0]).
  reflexivity.
Defined.

(** X17: when the optimizer keeps to the box it is given, every vector from
    which [calc_n_p] starts it lies in the box of its depth: the seed
    [(pi/2, pi/2)] lies in the box of depth one, and the two zeros appended
    after each depth lie on the lower bounds of the two new angles. *)
Theorem sweep_start_vectors_in_bounds {L : Qit.Library}
  (basinhopping :
     (list R -> result R) -> list R -> list (R * R) -> result (list R))
  (target : Qit.state) (n : Z) (k : nat) (w : list R) :
  stays_in_box basinhopping ->
  Qit.running_angles basinhopping target n k = Ok w ->
  in_box w (angle_bounds (Z.of_nat (k + 1))).
Proof.
  intros Hbox; unfold Qit.running_angles; revert w.
  induction k as [ | k IH ]; intros w.
  - intros [= <-]; unfold in_box.
    rewrite angle_bounds_tabulated.
    change (range (2 * Z.of_nat (0 + 1))) with [0%nat; 1%nat].
    cbn [map Nat.even].
    pose proof PI_RGT_0.
    repeat (apply Forall2_cons; [ cbn [fst snd]; lra | ]).
    apply Forall2_nil.
  - cbn [Qit.running_from].
    destruct (Qit.running_from basinhopping target n 1 _ k) as [w' | e];
      cbn [bind]; [ | discriminate ].
    rewrite qit_get_params_result.
    destruct (basinhopping _ w' (angle_bounds (Z.of_nat (1 + k))))
      as [x | e] eqn:Eb; cbn [bind]; [ | discriminate ].
    pose proof (Hbox _ _ _ _ (bounds_ordered _) Eb) as Hx.
    pose proof (in_box_length _ _ Hx) as Hlx.
    rewrite length_angle_bounds in Hlx.
    rewrite <- Hlx, Nat.leb_refl, firstn_all.
    intros [= <-].
    replace (S k + 1)%nat with (S (1 + k)) by lia.
    rewrite angle_bounds_succ; unfold in_box.
    apply Forall2_app; [ exact Hx | ].
    pose proof PI_RGT_0.
    repeat (apply Forall2_cons; [ cbn [fst snd]; lra | ]).
    apply Forall2_nil.
Qed.

Lemma corner_optimizer_stays_in_box : stays_in_box corner_optimizer.
Proof.
  intros f x0 b x Hb [= <-]; unfold in_box.
  induction Hb as [ | lh b Hlh Hb IH ]; cbn [map]; constructor.
  - lra.
  - exact IH.
Qed.

Lemma sweep_start_vectors_in_bounds_witness :
  in_box [0; 0; 0; 0] (angle_bounds (Z.of_nat (1 + 1))).
Proof.
  apply (sweep_start_vectors_in_bounds (L := kets) corner_optimizer
           (real_vec [1; 0]) 1 1 [0; 0; 0; 0]).
  - exact corner_optimizer_stays_in_box.
  - reflexivity.
Defined.

(** ** The top-level loop of the numpy/scipy notebook *)

Lemma map_m_inv {A B : Type} (f : A -> result B) (l : list A)
  (ys : list B) :
  map_m f l = Ok ys -> Forall2 (fun x y => f x = Ok y) l ys.
Proof.
  revert ys; induction l as [ | x l IH ]; intros ys.
  - intros [= <-]; constructor.
  - cbn [map_m].
    destruct (f x) as [y | e] eqn:Ex; cbn [bind]; [ | discriminate ].
    destruct (map_m f l) as [ys' | e]; cbn [bind]; [ | discriminate ].
    intros [= <-]; constructor; [ exact Ex | apply IH; reflexivity ].
Qed.

Lemma map_m_total {A B : Type} (f : A -> result B) (l : list A) :
  (forall x, In x l -> exists y, f x = Ok y) ->
  exists ys, map_m f l = Ok ys.
Proof.
  induction l as [ | x l IH ]; intros Hf.
  - exists []; reflexivity.
  - destruct (Hf x (or_introl eq_refl)) as (y & Ey).
    destruct IH as (ys & Eys); [ intros z Hz; apply Hf; right; exact Hz | ].
    exists (y :: ys); cbn [map_m]; rewrite Ey, Eys; reflexivity.
Qed.

Lemma s_0101_real : s_0101 = real_vec (basis_amplitudes 16 5).
Proof. rewrite real_vec_basis; apply s_0101_one_hot. Qed.

Lemma get_params_length
  (basinhopping :
     (list R -> result R) -> list R -> list (R * R) -> result (list R))
  (H : mat) (n p : Z) (angles : list R) :
  get_params basinhopping H n p = Ok angles ->
  length angles = Z.to_nat (2 * p).
Proof.
  unfold get_params.
  destruct (basinhopping _ _ (angle_bounds p)) as [x | e];
    cbn [bind]; [ | discriminate ].
  unfold range; rewrite map_m_getitem_seq.
  destruct (Nat.leb_spec (Z.to_nat (2 * p)) (length x)) as [Hle | Hlt];
    [ | discriminate ].
  intros [= <-]; apply firstn_length_le; exact Hle.
Qed.

(** One round of the loop, at the angles [params]: the overlap it records
    lies in [[0, 1]] and is minus the cost. *)
Lemma depth_round_overlap (i : Z) (params : list R) :
  (Z.to_nat (2 * i) <= length params)%nat ->
  exists c st o,
    cost_function (H_operator s_0101) 4 i params = Ok (c, st)
    /\ overlap s_0101 st = Ok o
    /\ o = - c /\ 0 <= o <= 1.
Proof.
  intros Hp; rewrite s_0101_real.
  assert (Hu : unit_real (basis_amplitudes 16 5))
    by (apply unit_real_basis; lia).
  assert (Hl : length (basis_amplitudes 16 5) = Z.to_nat (2 ^ 4))
    by apply length_basis.
  destruct (cost_function_rank1 (basis_amplitudes 16 5) 4 i params)
    as (st & E & Hst & Hn2); try assumption; [ lia | ].
  exists (- cabs2 (inner (real_vec (basis_amplitudes 16 5)) st)), st,
         (cabs2 (inner (real_vec (basis_amplitudes 16 5)) st)).
  split; [ exact E | ].
  split; [ apply overlap_real; exact Hst | ].
  split; [ ring | ].
  apply cabs2_inner_le; assumption.
Qed.

(** What one round of the loop returned. *)
Lemma depth_round_inv
  (basinhopping :
     (list R -> result R) -> list R -> list (R * R) -> result (list R))
  (i : nat) (o : R) (j : Z) :
  (let i := Z.of_nat i in
   params <- get_params basinhopping (H_operator s_0101) 4 i ;;
   cs <- cost_function (H_operator s_0101) 4 i params ;;
   o <- overlap s_0101 (snd cs) ;;
   Ok (o, i)) = Ok (o, j) ->
  j = Z.of_nat i
  /\ 0 <= o <= 1
  /\ exists params c st,
       get_params basinhopping (H_operator s_0101) 4 (Z.of_nat i) = Ok params
       /\ cost_function (H_operator s_0101) 4 (Z.of_nat i) params
          = Ok (c, st)
       /\ overlap s_0101 st = Ok o
       /\ o = - c.
Proof.
  cbv zeta.
  destruct (get_params basinhopping (H_operator s_0101) 4 (Z.of_nat i))
    as [params | e] eqn:Eg; cbn [bind]; [ | discriminate ].
  pose proof (get_params_length _ _ _ _ _ Eg) as Hl.
  destruct (depth_round_overlap (Z.of_nat i) params)
    as (c & st & o' & Ec & Eo & Hoc & Ho); [ lia | ].
  rewrite Ec; cbn [bind snd]; rewrite Eo; cbn [bind].
  intros [= <- <-]; split; [ reflexivity | ].
  split; [ exact Ho | ].
  exists params, c, st; repeat split; assumption.
Qed.

(** The loop completes when the optimizer returns, each time, at least as
    many numbers as its starting point has. *)
Lemma depth_loop_total
  (basinhopping :
     (list R -> result R) -> list R -> list (R * R) -> result (list R)) :
  (forall f x0 b,
      exists x, basinhopping f x0 b = Ok x /\ (length x0 <= length x)%nat) ->
  exists recs,
    map_m
      (fun i =>
         let i := Z.of_nat i in
         params <- get_params basinhopping (H_operator s_0101) 4 i ;;
         cs <- cost_function (H_operator s_0101) 4 i params ;;
         o <- overlap s_0101 (snd cs) ;;
         Ok (o, i))
      [1; 2; 3; 4; 5]%nat = Ok recs.
Proof.
  intros Hbh; apply map_m_total; intros i _; cbv zeta.
  unfold get_params.
  destruct (Hbh (fun x =>
                   cs <- cost_function (H_operator s_0101) 4
                           (Z.of_nat i) x ;; Ok (fst cs))
                (map (fun _ => 0.25 * PI) (range (2 * Z.of_nat i)))
                (angle_bounds (Z.of_nat i))) as (x & -> & Hx).
  cbn [bind]; unfold range at 1; rewrite map_m_getitem_seq.
  unfold range in Hx; rewrite length_map, length_seq in Hx.
  replace (Z.to_nat (2 * Z.of_nat i) <=? length x)%nat with true
    by (symmetry; apply Nat.leb_le; exact Hx).
  cbn [bind].
  destruct (depth_round_overlap (Z.of_nat i)
              (firstn (Z.to_nat (2 * Z.of_nat i)) x))
    as (c & st & o & -> & Eo & _).
  { rewrite firstn_length_le by exact Hx; lia. }
  cbn [bind snd]; rewrite Eo; cbn [bind].
  eexists; reflexivity.
Qed.

Ltac invert_rounds :=
  repeat match goal with
         | H : Forall2 _ (_ :: _) _ |- _ => inversion H; subst; clear H
         | H : Forall2 _ [] _ |- _ => inversion H; subst; clear H
         end.

(** X18: the top-level loop of the numpy/scipy notebook.  When it completes,
    [p_array] is [1, 2, 3, 4, 5] and [overlap_array] holds five numbers of
    [[0, 1]], whatever the optimizer returned; and it completes whenever
    the optimizer returns, each time, at least as many numbers as its
    starting point has. *)
Theorem depth_loop_results
  (basinhopping :
     (list R -> result R) -> list R -> list (R * R) -> result (list R)) :
  (forall os ps,
      depth_loop basinhopping = Ok (os, ps) ->
      ps = [1; 2; 3; 4; 5]%Z /\ length os = 5%nat
      /\ Forall (fun o => 0 <= o <= 1) os)
  /\ ((forall f x0 b,
         exists x, basinhopping f x0 b = Ok x
                   /\ (length x0 <= length x)%nat) ->
      exists os, depth_loop basinhopping = Ok (os, [1; 2; 3; 4; 5]%Z)).
Proof.
  rewrite depth_loop_cold_start.
  change (range_from 1 6) with [1; 2; 3; 4; 5]%nat.
  split.
  - intros os ps E.
    destruct (map_m _ [1; 2; 3; 4; 5]%nat) as [recs | e] eqn:Em;
      cbn [bind] in E; [ | discriminate ].
    injection E as <- <-.
    apply map_m_inv in Em; invert_rounds.
    repeat match goal with
           | H : _ = Ok ?y |- _ =>
               destruct y as [? ?]; apply depth_round_inv in H;
               destruct H as (-> & ? & _)
           end.
    cbn [map fst snd length].
    split; [ reflexivity | ].
    split; [ reflexivity | ].
    repeat (apply Forall_cons; [ assumption | ]); apply Forall_nil.
  - intros Hbh.
    destruct (depth_loop_total basinhopping Hbh) as (recs & Em).
    rewrite Em; cbn [bind].
    exists (map fst recs); f_equal; f_equal.
    apply map_m_inv in Em; invert_rounds.
    repeat match goal with
           | H : _ = Ok ?y |- _ =>
               destruct y as [? ?]; apply depth_round_inv in H;
               destruct H as (-> & _)
           end.
    reflexivity.
Qed.

Lemma depth_loop_results_witness :
  exists os, depth_loop idle_optimizer = Ok (os, [1; 2; 3; 4; 5]%Z).
Proof.
  apply (proj2 (depth_loop_results idle_optimizer)).
  intros f x0 b; exists x0; split; [ reflexivity | apply Nat.le_refl ].
Defined.

(** X19: what the top-level loop records at each depth.  In a run that
    completed, the entry of [overlap_array] for the depth [i] (1 to 5) is
    the overlap of the target with the state that [cost_function] returns
    at the angles [get_params(H, 4, i)] returned, and it is minus that
    cost; nothing of another depth enters it: [get_params] starts the
    optimizer afresh at every depth. *)
Theorem depth_loop_records_per_depth
  (basinhopping :
     (list R -> result R) -> list R -> list (R * R) -> result (list R))
  (os : list R) (ps : list Z) (i : nat) :
  depth_loop basinhopping = Ok (os, ps) ->
  (1 <= i <= 5)%nat ->
  exists params c st,
    get_params basinhopping (H_operator s_0101) 4 (Z.of_nat i) = Ok params
    /\ cost_function (H_operator s_0101) 4 (Z.of_nat i) params = Ok (c, st)
    /\ overlap s_0101 st = Ok (nth (i - 1) os 0)
    /\ nth (i - 1) os 0 = - c.
Proof.
  rewrite depth_loop_cold_start.
  change (range_from 1 6) with [1; 2; 3; 4; 5]%nat.
  intros E Hi.
  destruct (map_m _ [1; 2; 3; 4; 5]%nat) as [recs | e] eqn:Em;
    cbn [bind] in E; [ | discriminate ].
  injection E as <- <-.
  apply map_m_inv in Em; invert_rounds.
  repeat match goal with
         | H : _ = Ok ?y |- _ =>
             destruct y as [? ?]; apply depth_round_inv in H;
             destruct H as (_ & _ & ?)
         end.
  cbn [map fst].
  destruct i as [ | [ | [ | [ | [ | [ | i ] ] ] ] ] ]; try lia;
    cbn [Nat.sub nth]; assumption.
Qed.

Lemma depth_loop_records_per_depth_witness :
  exists os params c st,
    get_params idle_optimizer (H_operator s_0101) 4 (Z.of_nat 3) = Ok params
    /\ cost_function (H_operator s_0101) 4 (Z.of_nat 3) params = Ok (c, st)
    /\ overlap s_0101 st = Ok (nth (3 - 1) os 0)
    /\ nth (3 - 1) os 0 = - c.
Proof.
  destruct (depth_loop_total idle_optimizer) as (recs & Em).
  { intros f x0 b; exists x0; split; [ reflexivity | apply Nat.le_refl ]. }
  exists (map fst recs).
  apply (depth_loop_records_per_depth idle_optimizer
           (map fst recs) (map snd recs) 3).
  - rewrite depth_loop_cold_start.
    change (range_from 1 6) with [1; 2; 3; 4; 5]%nat.
    rewrite Em; reflexivity.
  - lia.
Defined.

(** ** The store: [H_operator], [B_operator] and [overlap] *)

Lemma store_H_operator_run (h : Store.heap) (t : Store.loc) (v : vec) :
  Store.is_vec h t v ->
  Store.H_operator t h
  = (Ok (S (length h)),
     (h ++ [Store.Arr2 (np_outer v v)]) ++ [Store.Arr2 (H_operator v)]).
Proof.
  intros Ht; unfold Store.H_operator, Store.bind, Store.outer, Store.bind.
  rewrite (sim_read_vec h t v Ht), (sim_read_vec h t v Ht).
  cbn [Store.alloc]; unfold Store.neg, Store.bind.
  rewrite (sim_read_mat (h ++ [Store.Arr2 (np_outer v v)]) (length h)
             (np_outer v v)) by apply nth_error_last.
  unfold Store.alloc; rewrite length_app; cbn [length].
  replace (length h + 1)%nat with (S (length h)) by lia.
  reflexivity.
Qed.

Lemma sim_overlap (h : Store.heap) (t st : Store.loc) (v s : vec) :
  Store.is_vec h t v -> Store.is_vec h st s ->
  Store.simulates Store.same_value (Store.overlap t st) (overlap v s) h.
Proof.
  intros Ht Hst; unfold Store.overlap, overlap.
  apply (sim_bind Store.is_mat Store.same_value _ (Ok (np_outer v v)) _
           (fun P => Ps <- np_dot_mv P s ;; e <- np_dot_vv (vconj s) Ps ;;
                     Ok (re e))).
  { apply sim_outer; exact Ht. }
  intros P P' h1 Hp1 HP.
  apply (sim_bind Store.is_vec Store.same_value _ (Ok (vconj s)) _
           (fun c => Ps <- np_dot_mv P' s ;; e <- np_dot_vv c Ps ;;
                     Ok (re e))).
  { apply sim_conjugate; apply (is_vec_preserved h h1); assumption. }
  intros c c' h2 Hp2 Hc.
  apply (sim_bind Store.is_vec Store.same_value _ (Ok c') _
           (fun ct => Ps <- np_dot_mv P' s ;; e <- np_dot_vv ct Ps ;;
                      Ok (re e))).
  { apply sim_transpose; exact Hc. }
  intros ct ct' h3 Hp3 Hct.
  eapply sim_bind.
  { apply sim_dot_mv.
    - apply (is_mat_preserved h2 h3); [ exact Hp3 | ].
      apply (is_mat_preserved h1 h2); assumption.
    - apply (is_vec_preserved h2 h3); [ exact Hp3 | ].
      apply (is_vec_preserved h1 h2); [ exact Hp2 | ].
      apply (is_vec_preserved h h1); assumption. }
  intros Ps Ps' h4 Hp4 HPs.
  eapply sim_bind.
  { apply sim_dot_vv; [ | exact HPs ].
    apply (is_vec_preserved h3 h4); assumption. }
  intros e e' h5 Hp5 <-.
  unfold Store.simulates; cbn [Store.ret]; split; [ apply preserved_refl | ].
  eexists; split; reflexivity.
Qed.

(** X20: on the store, [H_operator], [B_operator] and [overlap] change no
    object that exists when they are called: their argument arrays hold
    afterwards what they held before.  [H_operator] and [B_operator] return
    an array that did not exist before the call; each call returns or
    raises what the function on values does. *)
Theorem builders_leave_arguments_unchanged (h : Store.heap)
  (t st : Store.loc) (v s : vec) (n : Z) :
  Store.is_vec h t v -> Store.is_vec h st s ->
  (forall r h',
      Store.H_operator t h = (r, h') ->
      Store.preserved h h' /\ Store.is_vec h' t v
      /\ exists G, r = Ok G /\ nth_error h G = None
                   /\ Store.is_mat h' G (H_operator v))
  /\ (forall r h',
        Store.B_operator n h = (r, h') ->
        Store.preserved h h' /\ Store.is_vec h' t v
        /\ match r with
           | Ok B => exists M, B_operator n = Ok M /\ Store.is_mat h' B M
           | Raise e => B_operator n = Raise e
           end)
  /\ (forall r h',
        Store.overlap t st h = (r, h') ->
        Store.preserved h h'
        /\ Store.is_vec h' t v /\ Store.is_vec h' st s
        /\ r = overlap v s).
Proof.
  intros Ht Hst; split; [ | split ]; intros r h' E.
  - rewrite (store_H_operator_run h t v Ht) in E.
    injection E as <- <-.
    assert (Hp : Store.preserved h
                   ((h ++ [Store.Arr2 (np_outer v v)])
                    ++ [Store.Arr2 (H_operator v)])).
    { eapply preserved_trans; apply preserved_app. }
    split; [ exact Hp | ].
    split; [ apply Hp, Ht | ].
    exists (S (length h)); split; [ reflexivity | ].
    split; [ apply nth_error_None; lia | ].
    unfold Store.is_mat.
    replace (S (length h))
      with (length (h ++ [Store.Arr2 (np_outer v v)]))
      by (rewrite length_app; cbn [length]; lia).
    apply nth_error_last.
  - pose proof (sim_B_operator h n) as Hsim.
    unfold Store.simulates in Hsim; rewrite E in Hsim.
    destruct r as [B | e].
    + destruct Hsim as (Hp & M & EM & HM).
      split; [ exact Hp | split; [ apply Hp, Ht | ] ].
      exists M; split; assumption.
    + destruct Hsim as (Hp & EM).
      split; [ exact Hp | split; [ apply Hp, Ht | exact EM ] ].
  - pose proof (sim_overlap h t st v s Ht Hst) as Hsim.
    unfold Store.simulates in Hsim; rewrite E in Hsim.
    destruct r as [f | e].
    + destruct Hsim as (Hp & f' & Ef & <-).
      split; [ exact Hp | ].
      split; [ apply Hp, Ht | ].
      split; [ apply Hp, Hst | symmetry; exact Ef ].
    + destruct Hsim as (Hp & Ef).
      split; [ exact Hp | ].
      split; [ apply Hp, Ht | ].
      split; [ apply Hp, Hst | symmetry; exact Ef ].
Qed.

Lemma builders_leave_arguments_unchanged_witness :
  Store.preserved [Store.Arr1 [c1; c0]; Store.Arr1 [c0; c1]]
    (snd (Store.overlap 0%nat 1%nat
            [Store.Arr1 [c1; c0]; Store.Arr1 [c0; c1]]))
  /\ fst (Store.overlap 0%nat 1%nat
            [Store.Arr1 [c1; c0]; Store.Arr1 [c0; c1]])
     = overlap [c1; c0] [c0; c1].
Proof.
  destruct (builders_leave_arguments_unchanged
              [Store.Arr1 [c1; c0]; Store.Arr1 [c0; c1]]
              0%nat 1%nat [c1; c0] [c0; c1] 1 eq_refl eq_refl)
    as (_ & _ & Hov).
  destruct (Hov _ _ (surjective_pairing _)) as (Hp & _ & _ & Hr).
  split; [ exact Hp | exact Hr ].
Defined.

(** ** The two notebooks on kets *)

Lemma np_kron_uniform (c d : R) (k : nat) :
  np_kron (real_vec (repeat c k)) (real_vec [d; d])
  = real_vec (repeat (c * d) (2 * k)).
Proof.
  induction k as [ | k IH ].
  - reflexivity.
  - replace (2 * S k)%nat with (S (S (2 * k))) by lia.
    unfold np_kron, real_vec in *.
    cbn [repeat map flat_map app] in *; rewrite IH.
    f_equal; [ symmetry; apply RtoC_mul | ].
    f_equal; symmetry; apply RtoC_mul.
Qed.

Lemma plus_amplitudes_succ (n : Z) :
  (0 <= n)%Z ->
  plus_amplitudes (n + 1)
  = repeat (1 / sqrt (IZR (2 ^ n)) * (1 / sqrt 2)) (2 * Z.to_nat (2 ^ n)).
Proof.
  intros Hn; unfold plus_amplitudes.
  pose proof (pow2_pos n Hn) as Hpos.
  rewrite Z.pow_add_r, Z.pow_1_r by lia.
  replace (Z.to_nat (2 ^ n * 2)) with (2 * Z.to_nat (2 ^ n))%nat by lia.
  f_equal.
  rewrite mult_IZR, sqrt_mult by (try lra; apply IZR_le; lia).
  assert (H2 : sqrt 2 <> 0) by (apply Rgt_not_eq, sqrt_lt_R0; lra).
  assert (HN : sqrt (IZR (2 ^ n)) <> 0)
    by (apply Rgt_not_eq, sqrt_lt_R0, IZR_lt; exact Hpos).
  field; split; assumption.
Qed.

Lemma kets_initial_state (n : Z) :
  (1 <= n)%Z ->
  Qit.initial_state (L := kets) n = Ok (real_vec (plus_amplitudes n)).
Proof.
  intros Hn.
  replace n with (Z.of_nat (Z.to_nat (n - 1)) + 1)%Z by lia.
  generalize (Z.to_nat (n - 1)) as m; clear n Hn.
  induction m as [ | m IH ].
  - exact kets_initial_state_1.
  - replace (Z.of_nat (S m) + 1)%Z with ((Z.of_nat m + 1) + 1)%Z by lia.
    rewrite qit_initial_state_succ by lia.
    rewrite IH, kets_initial_state_1; cbn [bind].
    cbn [Qit.tensor kets].
    change (plus_amplitudes 1) with [1 / sqrt 2; 1 / sqrt 2].
    unfold plus_amplitudes at 1.
    rewrite np_kron_uniform, <- plus_amplitudes_succ by lia.
    reflexivity.
Qed.

Lemma kets_B_operator (n : Z) :
  (1 <= n)%Z ->
  Qit.B_operator (L := kets) n
  = Ok (H_operator (real_vec (plus_amplitudes n))).
Proof.
  intros Hn; unfold Qit.B_operator.
  rewrite kets_initial_state by exact Hn; cbn [bind].
  f_equal; apply (kets_C_operator (plus_amplitudes n) n).
Qed.

Lemma kets_qaoa_step (t : list R) (n : Z) (st : vec) (params : list R) :
  (1 <= n)%Z ->
  Qit.qaoa_step (L := kets) st (real_vec t) n params
  = qaoa_step st (H_operator (real_vec t)) n params.
Proof.
  intros Hn; unfold Qit.qaoa_step, qaoa_step.
  rewrite B_operator_ok by lia; cbn [bind].
  rewrite kets_C_operator.
  destruct (getitem params 0) as [a | e]; cbn [bind]; [ | reflexivity ].
  cbn [Qit.propagate kets]; unfold ket_propagate.
  destruct (la_expm (scal_mat (- cj * RtoC a)%cpx (H_operator (real_vec t))))
    as [U | e]; cbn [bind]; [ | reflexivity ].
  destruct (np_dot_mv U st) as [st' | e]; cbn [bind]; [ | reflexivity ].
  rewrite kets_B_operator by exact Hn; cbn [bind].
  reflexivity.
Qed.

Lemma kets_F_function (t : list R) (n p : Z) (params : list R) :
  (1 <= n)%Z ->
  Qit.F_function (L := kets) (real_vec t) n p params
  = cost_function (H_operator (real_vec t)) n p params.
Proof.
  intros Hn; unfold Qit.F_function, cost_function.
  rewrite kets_initial_state, plus_state_ok by lia; cbn [bind].
  rewrite (for_each_ext (range p) _
             (fun i ini_state =>
                a <- getitem params (2 * i) ;;
                b <- getitem params (2 * i + 1) ;;
                qaoa_step ini_state (H_operator (real_vec t)) n [a; b])).
  2:{ intros i st _.
      destruct (getitem params (2 * i)) as [a | e]; cbn [bind];
        [ | reflexivity ].
      destruct (getitem params (2 * i + 1)) as [b | e]; cbn [bind];
        [ | reflexivity ].
      apply kets_qaoa_step; exact Hn. }
  destruct (for_each (range p) _ (real_vec (plus_amplitudes n)))
    as [s | e]; cbn [bind]; [ | reflexivity ].
  rewrite kets_C_operator.
  cbn [Qit.ev kets]; unfold ket_ev.
  destruct (np_dot_mv (H_operator (real_vec t)) s) as [As | e];
    cbn [bind]; [ | reflexivity ].
  destruct (np_dot_vv (vconj s) As) as [e' | e]; reflexivity.
Qed.

(** X21: on kets (states as amplitude vectors, operators as matrices, the
    qit operations as documented) and for a real target of [2^n] entries,
    the qit notebook computes what the numpy/scipy notebook computes, for
    [n >= 1] qubits: [initial_state] is [plus_state], [F_function] is
    [cost_function] on the generator of the target, and the squared
    fidelity that [calc_n_p] records, of the target with a state of [2^n]
    entries, is [overlap]. *)
Theorem notebooks_agree_on_kets (t : list R) (n : Z) :
  (1 <= n)%Z -> length t = Z.to_nat (2 ^ n) ->
  Qit.initial_state (L := kets) n = plus_state n
  /\ (forall p params,
        Qit.F_function (L := kets) (real_vec t) n p params
        = cost_function (H_operator (real_vec t)) n p params)
  /\ (forall s, length s = length t ->
        exists f,
          @Qit.fidelity kets (real_vec t) s = Ok f
          /\ overlap (real_vec t) s = Ok (f ^ 2)).
Proof.
  intros Hn Ht; split; [ | split ].
  - rewrite kets_initial_state, plus_state_ok by lia; reflexivity.
  - intros p params; apply kets_F_function; exact Hn.
  - intros s Hl.
    destruct (kets_fidelity_squared t s Hl) as (f & Ef & Hf).
    exists f; split; [ exact Ef | ].
    rewrite overlap_real by exact Hl; rewrite Hf; reflexivity.
Qed.

Lemma notebooks_agree_on_kets_witness :
  Qit.initial_state (L := kets) 2 = plus_state 2
  /\ (forall p params,
        Qit.F_function (L := kets) (real_vec [0; 1; 0; 0]) 2 p params
        = cost_function (H_operator (real_vec [0; 1; 0; 0])) 2 p params)
  /\ (forall s, length s = length [0; 1; 0; 0] ->
        exists f,
          @Qit.fidelity kets (real_vec [0; 1; 0; 0]) s = Ok f
          /\ overlap (real_vec [0; 1; 0; 0]) s = Ok (f ^ 2)).
Proof.
  apply (notebooks_agree_on_kets [0; 1; 0; 0] 2); [ lia | reflexivity ].
Defined.

(** ** A layer is linear and keeps the norm of every state *)

Lemma axpy_scale (z k : complex) (u s : vec) :
  axpy (z * k)%cpx u (map (cmul z) s) = map (cmul z) (axpy k u s).
Proof.
  unfold axpy; revert u; induction s as [ | y s IH ]; intros u.
  - reflexivity.
  - destruct u as [ | w u ]; [ reflexivity | ].
    cbn [map combine fst snd]; rewrite IH; f_equal; ring.
Qed.

Lemma rotate_scale (r : list R) (x : R) (z : complex) (s : vec) :
  rotate r x (map (cmul z) s) = map (cmul z) (rotate r x s).
Proof.
  unfold rotate; rewrite dotsum_map_cmul, <- axpy_scale.
  f_equal; ring.
Qed.

Lemma dotsum_vadd (a s s2 : vec) :
  length s = length s2 ->
  dotsum a (vadd s s2) = (dotsum a s + dotsum a s2)%cpx.
Proof.
  unfold vadd; revert s s2; induction a as [ | x a IH ]; intros s s2 Hl.
  - change (dotsum [] ?b) with c0; ring.
  - destruct s as [ | y s ]; destruct s2 as [ | y2 s2 ]; try discriminate.
    + cbn [combine map]; change (dotsum (x :: a) []) with c0; ring.
    + injection Hl as Hl; cbn [combine map fst snd].
      rewrite !dotsum_cons, IH by exact Hl; ring.
Qed.

Lemma axpy_vadd (k k2 : complex) (u s s2 : vec) :
  length s = length u -> length s2 = length u ->
  axpy (k + k2)%cpx u (vadd s s2) = vadd (axpy k u s) (axpy k2 u s2).
Proof.
  unfold axpy, vadd; revert s s2; induction u as [ | w u IH ];
    intros s s2 Hl Hl2.
  - destruct s; [ | discriminate ]; reflexivity.
  - destruct s as [ | y s ]; destruct s2 as [ | y2 s2 ]; try discriminate.
    injection Hl as Hl; injection Hl2 as Hl2.
    cbn [combine map fst snd]; rewrite IH by assumption.
    f_equal; ring.
Qed.

Lemma rotate_vadd (r : list R) (x : R) (s s2 : vec) :
  length s = length r -> length s2 = length r ->
  rotate r x (vadd s s2) = vadd (rotate r x s) (rotate r x s2).
Proof.
  intros Hl Hl2; unfold rotate.
  rewrite dotsum_vadd by congruence.
  rewrite <- axpy_vadd by (rewrite length_real_vec; assumption).
  f_equal; ring.
Qed.

Lemma length_vadd (s s2 : vec) :
  length s = length s2 -> length (vadd s s2) = length s.
Proof.
  intros Hl; unfold vadd.
  rewrite length_map, length_combine, <- Hl; apply Nat.min_id.
Qed.

(** X22: for the generator of a real unit target, a layer is linear in the
    state and keeps the squared norm of every state, of unit norm or not:
    scaling the state by [z] scales what the layer returns by [z], and the
    layer of a sum of two states is the sum of their layers. *)
Theorem layer_is_linear_isometry (n : Z) (t : list R) (s s2 : vec)
  (a b : R) (z : complex) :
  (0 <= n)%Z -> length t = Z.to_nat (2 ^ n) -> norm (real_vec t) = 1 ->
  length s = Z.to_nat (2 ^ n) -> length s2 = Z.to_nat (2 ^ n) ->
  exists s' s2',
    qaoa_step s (H_operator (real_vec t)) n [a; b] = Ok s'
    /\ qaoa_step s2 (H_operator (real_vec t)) n [a; b] = Ok s2'
    /\ norm2 s' = norm2 s
    /\ qaoa_step (map (cmul z) s) (H_operator (real_vec t)) n [a; b]
       = Ok (map (cmul z) s')
    /\ qaoa_step (vadd s s2) (H_operator (real_vec t)) n [a; b]
       = Ok (vadd s' s2').
Proof.
  intros Hn Ht Hnorm Hs Hs2.
  assert (Hu : unit_real t) by (apply unit_real_of_norm; exact Hnorm).
  assert (Hst : length s = length t) by congruence.
  assert (Hst2 : length s2 = length t) by congruence.
  assert (Hlp : length (plus_amplitudes n) = length t)
    by (rewrite length_plus_amplitudes; congruence).
  exists (rotate (plus_amplitudes n) b (rotate t a s)),
    (rotate (plus_amplitudes n) b (rotate t a s2)).
  split; [ apply qaoa_step_rank1; assumption | ].
  split; [ apply qaoa_step_rank1; assumption | ].
  split; [ | split ].
  - rewrite !norm2_rotate; try assumption; try reflexivity.
    + apply unit_plus_amplitudes; exact Hn.
    + rewrite length_rotate by exact Hst.
      rewrite length_plus_amplitudes; exact Hs.
  - rewrite qaoa_step_rank1 by (try assumption; rewrite length_map; exact Hst).
    rewrite !rotate_scale; reflexivity.
  - rewrite qaoa_step_rank1
      by (try assumption; rewrite length_vadd; congruence).
    rewrite rotate_vadd by assumption.
    rewrite rotate_vadd
      by (rewrite length_rotate; congruence).
    reflexivity.
Qed.

Lemma layer_is_linear_isometry_witness :
  exists s' s2',
    qaoa_step [cj; c1] (H_operator (real_vec [1; 0])) 1 [1; 2] = Ok s'
    /\ qaoa_step [c1; c0] (H_operator (real_vec [1; 0])) 1 [1; 2] = Ok s2'
    /\ norm2 s' = norm2 [cj; c1]
    /\ qaoa_step (map (cmul cj) [cj; c1]) (H_operator (real_vec [1; 0])) 1
         [1; 2]
       = Ok (map (cmul cj) s')
    /\ qaoa_step (vadd [cj; c1] [c1; c0]) (H_operator (real_vec [1; 0])) 1
         [1; 2]
       = Ok (vadd s' s2').
Proof.
  apply (layer_is_linear_isometry 1 [1; 0] [cj; c1] [c1; c0] 1 2 cj);
    [ lia | reflexivity | exact norm_basis_2 | reflexivity | reflexivity ].
Defined.

(** ** No evaluation without its angles *)

Lemma getitem_ok_inv {A : Type} (l : list A) (i : nat) (x : A) :
  getitem l i = Ok x -> (i < length l)%nat.
Proof.
  unfold getitem; destruct (nth_error l i) eqn:E; [ | discriminate ].
  intros _; apply nth_error_Some; rewrite E; discriminate.
Qed.

Lemma layers_ok_need_angles {S : Type} (step : S -> list R -> result S)
  (params : list R) (P : nat) (s s' : S) :
  for_each (seq 0 P)
    (fun i st =>
       a <- getitem params (2 * i) ;;
       b <- getitem params (2 * i + 1) ;;
       step st [a; b]) s = Ok s' ->
  (2 * P <= length params)%nat.
Proof.
  destruct P as [ | m ]; [ intros _; cbn; lia | ].
  rewrite seq_S, for_each_app; cbn [Nat.add].
  destruct (for_each (seq 0 m) _ s) as [s1 | e]; cbn [bind];
    [ | discriminate ].
  cbn [for_each].
  destruct (getitem params (2 * m)) as [a | e]; cbn [bind];
    [ | discriminate ].
  destruct (getitem params (2 * m + 1)) as [b | e] eqn:Eb; cbn [bind];
    [ | discriminate ].
  intros _; apply getitem_ok_inv in Eb; lia.
Qed.

(** X23: neither evaluator returns without its angles: whatever the
    generator and the qubit count (and, for the qit notebook, whatever the
    library does), [cost_function] and [F_function] return only when the
    angle list has at least [2 p] entries. *)
Theorem evaluators_return_only_with_2p_angles (n p : Z) (params : list R) :
  (forall (H : mat) (r : R * vec),
      cost_function H n p params = Ok r ->
      (Z.to_nat (2 * p) <= length params)%nat)
  /\ (forall (L : Qit.Library) (target : Qit.state) (r : R * Qit.state),
        Qit.F_function target n p params = Ok r ->
        (Z.to_nat (2 * p) <= length params)%nat).
Proof.
  split.
  - intros H r; unfold cost_function.
    destruct (plus_state n) as [s0 | e]; cbn [bind]; [ | discriminate ].
    destruct (for_each (range p) _ s0) as [s | e] eqn:E; cbn [bind];
      [ | discriminate ].
    intros _.
    apply (layers_ok_need_angles (fun st ab => qaoa_step st H n ab)) in E.
    lia.
  - intros L target r; unfold Qit.F_function.
    destruct (Qit.initial_state n) as [s0 | e]; cbn [bind];
      [ | discriminate ].
    destruct (for_each (range p) _ s0) as [s | e] eqn:E; cbn [bind];
      [ | discriminate ].
    intros _.
    apply (layers_ok_need_angles
             (fun st ab => Qit.qaoa_step st target n ab)) in E.
    lia.
Qed.

(** ** What [calc_n_p] records on kets *)

Lemma kets_sweep_records (basinhopping :
     (list R -> result R) -> list R -> list (R * R) -> result (list R))
  (t : list R) (n : Z) :
  (1 <= n)%Z -> length t = Z.to_nat (2 ^ n) -> unit_real t ->
  forall (count first : nat) (w0 : list R) (recs : list (Z * R)),
    Qit.sweep_spec (L := kets) basinhopping (real_vec t) n first count w0
    = Ok recs ->
    Forall (fun r => 0 <= snd r <= 1) recs.
Proof.
  intros Hn Ht Hu count; induction count as [ | count IH ];
    intros first w0 recs.
  - intros [= <-]; constructor.
  - cbn [Qit.sweep_spec].
    destruct (Qit.get_params (L := kets) basinhopping (real_vec t) n
                (Z.of_nat first) w0)
      as [angles | e] eqn:Eg; cbn [bind]; [ | discriminate ].
    apply qit_get_params_length in Eg.
    rewrite kets_F_function by exact Hn.
    destruct (cost_function_rank1 t n (Z.of_nat first) angles)
      as (s & -> & Hs & Hn2); try assumption; [ lia | lia | ].
    cbn [bind snd].
    destruct (kets_fidelity_squared t s Hs) as (f & -> & Hf).
    cbn [bind].
    destruct (Qit.sweep_spec (L := kets) basinhopping (real_vec t) n
                (S first) count (angles ++ [0; 0]))
      as [rest | e] eqn:Er; cbn [bind];
      [ | discriminate ].
    intros [= <-]; constructor; [ | apply (IH _ _ _ Er) ].
    change (0 <= f ^ 2 <= 1); rewrite Hf.
    apply cabs2_inner_le; assumption.
Qed.

(** X24: on kets, for a real unit target on [n >= 1] qubits, every value
    that [calc_n_p] records lies in [[0, 1]], whatever the optimizer
    returned. *)
Theorem calc_n_p_records_probabilities
  (basinhopping :
     (list R -> result R) -> list R -> list (R * R) -> result (list R))
  (t : list R) (n P : Z) (fids : list R) (ps : list Z) :
  (1 <= n)%Z -> length t = Z.to_nat (2 ^ n) -> norm (real_vec t) = 1 ->
  Qit.calc_n_p (L := kets) basinhopping (real_vec t) n P = Ok (fids, ps) ->
  Forall (fun f => 0 <= f <= 1) fids.
Proof.
  intros Hn Ht Hnorm E.
  assert (Hu : unit_real t) by (apply unit_real_of_norm; exact Hnorm).
  rewrite calc_n_p_unfold in E.
  destruct (Qit.sweep_spec (L := kets) basinhopping (real_vec t) n 1
              (Z.to_nat P) [0.5 * PI; 0.5 * PI]) as [recs | e] eqn:Es;
    cbn [bind] in E; [ | discriminate ].
  injection E as <- _.
  apply Forall_map.
  apply (kets_sweep_records basinhopping t n Hn Ht Hu _ _ _ _ Es).
Qed.

Lemma calc_n_p_records_probabilities_witness :
  Forall (fun f => 0 <= f <= 1) [1; 1].
Proof.
  apply (calc_n_p_records_probabilities idle_optimizer [1; 0] 1 2
           [1; 1] [1; 2]%Z);
    [ lia | reflexivity | exact norm_basis_2 | exact idle_run ].
Defined.

(** * Complex targets *)

(** ** The exponential of a multiple of [a a^T] when [a^T a = 0]

    For [A = w * a a^T] with [a^T a = 0] the square of [A] is zero, so the
    exponential series stops after its second term: [expm(A) = I + A]. *)

Section Nilpotent.

Variable N : nat.
Variable a : nat -> complex.
Variable A : nat -> nat -> complex.
Variable w : complex.

Hypothesis a_out : forall i, (N <= i)%nat -> a i = c0.
Hypothesis a_null : csum N (fun m => (a m * a m)%cpx) = c0.
Hypothesis A_def : forall i l, A i l = (w * (a i * a l))%cpx.

Lemma mat_pow_null_1 (i l : nat) :
  mat_pow N A 1 i l = (w * (a i * a l))%cpx.
Proof.
  cbn [mat_pow]; rewrite csum_delta.
  destruct (Nat.ltb_spec i N) as [Hlt | Hge].
  - apply A_def.
  - rewrite (a_out i Hge); ring.
Qed.

Lemma mat_pow_null (k i l : nat) : mat_pow N A (S (S k)) i l = c0.
Proof.
  revert i l; induction k as [ | k IH ]; intros i l.
  - change (mat_pow N A 2 i l)
      with (csum N (fun m => (mat_pow N A 1 i m * A m l)%cpx)).
    rewrite (csum_ext _ _
               (fun m => ((w * w * (a i * a l)) * (a m * a m))%cpx)).
    + rewrite csum_mul_l, a_null; ring.
    + intros m _; rewrite mat_pow_null_1, A_def; ring.
  - change (mat_pow N A (S (S (S k))) i l)
      with (csum N (fun m => (mat_pow N A (S (S k)) i m * A m l)%cpx)).
    rewrite (csum_ext _ _ (fun _ => c0)); [ apply csum_zero | ].
    intros m _; rewrite IH; ring.
Qed.

Lemma exp_partial_null (n i l : nat) :
  exp_partial N A (S n) i l
  = ((if (i =? l)%nat then c1 else c0) + w * (a i * a l))%cpx.
Proof.
  induction n as [ | n IH ].
  - unfold exp_partial.
    cbn [csum]; rewrite mat_pow_null_1; cbn [mat_pow fact INR Nat.add Nat.mul].
    destruct (i =? l)%nat; apply complex_eq; simpl; field.
  - change (exp_partial N A (S (S n)) i l)
      with (exp_partial N A (S n) i l
            + cscale (/ INR (fact (S (S n)))) (mat_pow N A (S (S n)) i l))%cpx.
    rewrite IH, mat_pow_null.
    apply complex_eq; simpl; ring.
Qed.

Lemma exp_entry_null (i l : nat) :
  exp_entry N A i l
  = ((if (i =? l)%nat then c1 else c0) + w * (a i * a l))%cpx.
Proof.
  set (d := ((if (i =? l)%nat then c1 else c0) + w * (a i * a l))%cpx).
  unfold exp_entry; apply complex_eq; cbn [re im]; apply Rlim_eq.
  - intros eps Heps; exists 1%nat; intros n Hn.
    destruct n as [ | n ]; [ lia | ].
    rewrite exp_partial_null; fold d.
    unfold Rdist; rewrite Rminus_diag, Rabs_R0; exact Heps.
  - intros eps Heps; exists 1%nat; intros n Hn.
    destruct n as [ | n ]; [ lia | ].
    rewrite exp_partial_null; fold d.
    unfold Rdist; rewrite Rminus_diag, Rabs_R0; exact Heps.
Qed.

End Nilpotent.

(** [expm(-1j * x * H_operator(t)) = I + 1j * x * t t^T] for a vector [t]
    whose entries have squares that sum to zero. *)
Lemma la_expm_null (t : vec) (x : R) :
  csum (length t) (fun m => (nth m t c0 * nth m t c0)%cpx) = c0 ->
  la_expm (scal_mat (- cj * RtoC x)%cpx (H_operator t))
  = Ok (tabulate (length t)
          (fun i l => ((if (i =? l)%nat then c1 else c0)
                       + (cj * RtoC x) * (nth i t c0 * nth l t c0))%cpx)).
Proof.
  intros Hnull; unfold la_expm, H_operator.
  rewrite is_square_scal_neg_outer by reflexivity.
  rewrite length_scal_neg_outer.
  f_equal; unfold tabulate.
  apply map_ext; intros i; apply map_ext; intros l.
  apply (exp_entry_null (length t) (fun m => nth m t c0) _ (cj * RtoC x)%cpx).
  - intros m Hm; rewrite nth_overflow by exact Hm; reflexivity.
  - exact Hnull.
  - intros m k; rewrite entry_scal_neg_outer; ring.
Qed.

(** ** The target [(1j, 0)] *)

(** The evaluator on the generator of the complex unit vector [(1j, 0)],
    one qubit, one layer, both angles zero: the state stays the uniform
    superposition and the cost is [+1/2]. *)
Lemma complex_target_cost :
  cost_function (H_operator [cj; c0]) 1 1 [0; 0]
  = Ok (1 / 2, real_vec (plus_amplitudes 1)).
Proof.
  unfold cost_function.
  rewrite plus_state_ok by lia; cbn [bind].
  change (range 1) with [0%nat]; cbn [for_each Nat.mul Nat.add].
  cbn [getitem nth_error bind].
  rewrite qaoa_step_zero_angles
    by (reflexivity || lia || apply length_real_plus).
  cbn [bind].
  rewrite np_dot_mv_H by reflexivity; cbn [bind].
  rewrite np_dot_vv_conj_neg_scaled by reflexivity; cbn [bind].
  f_equal; f_equal.
  change (plus_amplitudes 1) with [1 / sqrt 2; 1 / sqrt 2].
  pose proof half_sqrt2_squared as Hq.
  set (q := 1 / sqrt 2) in *; clearbody q.
  unfold dotsum, lsum, vconj, real_vec; simpl.
  ring_simplify; lra.
Qed.

Lemma complex_target_overlap :
  overlap [cj; c0] (real_vec (plus_amplitudes 1)) = Ok (- (1 / 2)).
Proof.
  rewrite overlap_closed by reflexivity; f_equal.
  change (plus_amplitudes 1) with [1 / sqrt 2; 1 / sqrt 2].
  pose proof half_sqrt2_squared as Hq.
  set (q := 1 / sqrt 2) in *; clearbody q.
  unfold dotsum, lsum, vconj, real_vec; simpl.
  ring_simplify; lra.
Qed.

Lemma norm_imaginary_basis_2 : norm [cj; c0] = 1.
Proof. apply norm_one; unfold norm2, cabs2; simpl; ring. Qed.

(** C1, as stated, fails at the complex unit target [(1j, 0)]: with one
    qubit, one layer and both angles zero the evaluator returns the cost
    [+1/2], outside [[-1, 0]]. *)
Lemma complex_target_cost_counterexample :
  norm [cj; c0] = 1
  /\ length [cj; c0] = Z.to_nat (2 ^ 1)
  /\ cost_function (H_operator [cj; c0]) 1 1 [0; 0]
     = Ok (1 / 2, real_vec (plus_amplitudes 1))
  /\ ~ (-1 <= 1 / 2 <= 0).
Proof.
  split; [ exact norm_imaginary_basis_2 | ].
  split; [ reflexivity | ].
  split; [ exact complex_target_cost | lra ].
Qed.

(** C3, as stated, fails at the complex unit target [(1j, 0)]: for the
    final state of the evaluator at one qubit, one layer and both angles
    zero, [overlap] returns [-1/2], which is not in [[0, 1]] and is not the
    squared modulus [1/2] of the inner product of the two states. *)
Lemma complex_target_overlap_counterexample :
  norm [cj; c0] = 1
  /\ cost_function (H_operator [cj; c0]) 1 1 [0; 0]
     = Ok (1 / 2, real_vec (plus_amplitudes 1))
  /\ overlap [cj; c0] (real_vec (plus_amplitudes 1)) = Ok (- (1 / 2))
  /\ cabs2 (inner [cj; c0] (real_vec (plus_amplitudes 1))) = 1 / 2
  /\ ~ (0 <= - (1 / 2) <= 1).
Proof.
  split; [ exact norm_imaginary_basis_2 | ].
  split; [ exact complex_target_cost | ].
  split; [ exact complex_target_overlap | ].
  split; [ | lra ].
  change (plus_amplitudes 1) with [1 / sqrt 2; 1 / sqrt 2].
  pose proof half_sqrt2_squared as Hq.
  set (q := 1 / sqrt 2) in *; clearbody q.
  unfold cabs2, inner, dotsum, lsum, vconj, real_vec; simpl.
  ring_simplify; lra.
Qed.

(** ** The target [(1, 1j) / sqrt 2] *)

Lemma norm_null_target :
  norm [Cpx (1 / sqrt 2) 0; Cpx 0 (1 / sqrt 2)] = 1.
Proof.
  apply norm_one; unfold norm2, cabs2; simpl.
  pose proof half_sqrt2_squared as Hq; lra.
Qed.

(** One layer on the generator of [(1, 1j) / sqrt 2], from the state
    [(1, 0)] and at the angles [(1, 0)]. *)
Lemma null_target_layer :
  qaoa_step [c1; c0]
    (H_operator [Cpx (1 / sqrt 2) 0; Cpx 0 (1 / sqrt 2)]) 1 [1; 0]
  = Ok [Cpx 1 (1 / 2); Cpx (- (1 / 2)) 0].
Proof.
  rewrite qaoa_step_unfold by lia.
  pose proof half_sqrt2_squared as Hq.
  rewrite la_expm_null.
  2:{ cbn [length csum nth]; apply complex_eq; simpl; lra. }
  cbn [bind].
  assert (E : np_dot_mv
                (tabulate (length [Cpx (1 / sqrt 2) 0; Cpx 0 (1 / sqrt 2)])
                   (fun i l =>
                      ((if (i =? l)%nat then c1 else c0)
                       + cj * RtoC 1
                         * (nth i [Cpx (1 / sqrt 2) 0; Cpx 0 (1 / sqrt 2)] c0
                            * nth l [Cpx (1 / sqrt 2) 0; Cpx 0 (1 / sqrt 2)]
                                c0))%cpx))
                [c1; c0]
              = Ok [Cpx 1 (1 / 2); Cpx (- (1 / 2)) 0]).
  { unfold np_dot_mv, tabulate, dotsum, lsum.
    cbn [length seq map forallb Nat.eqb andb combine fold_right fst snd nth].
    set (q := 1 / sqrt 2) in *; clearbody q.
    repeat f_equal; apply complex_eq; simpl; lra. }
  rewrite E; cbn [bind].
  apply expm_dot_zero_angle; [ apply is_square_H_operator | ].
  rewrite length_B; reflexivity.
Qed.

(** C2, as stated, fails on the generator that the builder returns for the
    complex unit target [(1, 1j) / sqrt 2]: one layer at the angles
    [(1, 0)] takes the unit state [(1, 0)] to a state of squared norm
    [3/2]. *)
Lemma complex_target_norm_counterexample :
  norm [Cpx (1 / sqrt 2) 0; Cpx 0 (1 / sqrt 2)] = 1
  /\ norm [c1; c0] = 1
  /\ qaoa_step [c1; c0]
       (H_operator [Cpx (1 / sqrt 2) 0; Cpx 0 (1 / sqrt 2)]) 1 [1; 0]
     = Ok [Cpx 1 (1 / 2); Cpx (- (1 / 2)) 0]
  /\ norm2 [Cpx 1 (1 / 2); Cpx (- (1 / 2)) 0] = 3 / 2
  /\ ~ Rabs (norm [Cpx 1 (1 / 2); Cpx (- (1 / 2)) 0] - 1) <= 1e-9.
Proof.
  split; [ exact norm_null_target | ].
  split; [ exact norm_complex_basis_2 | ].
  split; [ exact null_target_layer | ].
  assert (Hn2 : norm2 [Cpx 1 (1 / 2); Cpx (- (1 / 2)) 0] = 3 / 2)
    by (unfold norm2, cabs2; simpl; lra).
  split; [ exact Hn2 | ].
  unfold norm; rewrite Hn2.
  assert (Hs : 6 / 5 < sqrt (3 / 2)).
  { rewrite <- (sqrt_square (6 / 5)) by lra.
    apply sqrt_lt_1_alt; lra. }
  intros Habs; rewrite Rabs_pos_eq in Habs; lra.
Qed.

(** ** C3 *)

(** The last line of [cost_function] against [overlap], for every target:
    the cost is minus the overlap. *)
Lemma cost_is_minus_overlap (t s : vec) :
  length s = length t ->
  exists f,
    overlap t s = Ok f
    /\ (Hs <- np_dot_mv (H_operator t) s ;;
        e <- np_dot_vv (vconj s) Hs ;;
        Ok (re e, s)) = Ok (- f, s).
Proof.
  intros Hl; eexists; split; [ apply overlap_closed; exact Hl | ].
  rewrite np_dot_mv_H by exact Hl; cbn [bind].
  rewrite np_dot_vv_conj_neg_scaled by exact Hl; cbn [bind].
  reflexivity.
Qed.

(** C3, amended.  For every [n >= 1], [p >= 1] and every angle vector of
    length [2p]: for every target [t] of length [2^n], complex ones
    included, the cost returned by [cost_function(H_operator(t), n, p,
    params)] is minus [overlap(t, final_state)] for the returned final
    state; and for a real unit-norm target that overlap is the squared
    modulus of the inner product of the two states and lies in [[0, 1]]. *)
Theorem cost_is_negated_fidelity (n p : Z) (params : list R) :
  (1 <= n)%Z -> (1 <= p)%Z -> length params = Z.to_nat (2 * p) ->
  (forall t : vec,
      length t = Z.to_nat (2 ^ n) ->
      exists c s f,
        cost_function (H_operator t) n p params = Ok (c, s)
        /\ overlap t s = Ok f
        /\ c = - f)
  /\ (forall t : list R,
        length t = Z.to_nat (2 ^ n) -> norm (real_vec t) = 1 ->
        exists c s f,
          cost_function (H_operator (real_vec t)) n p params = Ok (c, s)
          /\ overlap (real_vec t) s = Ok f
          /\ c = - f
          /\ f = cabs2 (inner (real_vec t) s)
          /\ 0 <= f <= 1).
Proof.
  intros Hn Hp Hparams; split.
  - intros t Ht; unfold cost_function.
    rewrite plus_state_ok by lia; cbn [bind].
    destruct (layers_total (H_operator t) n params ltac:(lia)
                (is_square_H_operator t)
                ltac:(rewrite length_H_operator; exact Ht)
                (Z.to_nat p) 0 (real_vec (plus_amplitudes n)))
      as (s & E & Hl); [ lia | apply length_real_plus | ].
    unfold range; rewrite E; cbn [bind].
    destruct (cost_is_minus_overlap t s ltac:(congruence)) as (f & Ef & Ec).
    exists (- f), s, f; rewrite Ec; repeat split; exact Ef.
  - intros t Ht Hunit.
    apply unit_real_of_norm in Hunit.
    destruct (cost_function_rank1 t n p params) as (s & E & Hl & Hs);
      try assumption; try lia.
    exists (- cabs2 (inner (real_vec t) s)), s,
      (cabs2 (inner (real_vec t) s)).
    split; [ exact E | ].
    split; [ apply overlap_real; exact Hl | ].
    split; [ reflexivity | ].
    split; [ reflexivity | ].
    apply cabs2_inner_le; assumption.
Qed.

Lemma cost_is_negated_fidelity_witness :
  (exists c s f,
      cost_function (H_operator [cj; c0]) 1 1 [0; 0] = Ok (c, s)
      /\ overlap [cj; c0] s = Ok f
      /\ c = - f)
  /\ (exists c s f,
        cost_function (H_operator (real_vec [1; 0])) 1 1 [0; 0] = Ok (c, s)
        /\ overlap (real_vec [1; 0]) s = Ok f
        /\ c = - f
        /\ f = cabs2 (inner (real_vec [1; 0]) s)
        /\ 0 <= f <= 1).
Proof.
  destruct (cost_is_negated_fidelity 1 1 [0; 0]) as [Hany Hreal];
    [ lia | lia | reflexivity | ].
  split.
  - apply (Hany [cj; c0]); reflexivity.
  - apply (Hreal [1; 0]); [ reflexivity | exact norm_basis_2 ].
Defined.

(** * The depth sweeps of the two notebooks *)

(** ** The start vectors of the numpy/scipy notebook *)

Lemma quarter_pi_nonzero : 0.25 * PI <> 0.
Proof. pose proof PI_RGT_0; lra. Qed.

(** C5, as stated, fails on the top-level loop of the numpy/scipy
    notebook: its [get_params] takes no start vector and hands the
    optimizer [pi/4] in every coordinate, at every depth.  The optimizer
    that returns the point it is started from shows what it is handed: at
    depth [2] that is not the result of depth [1] extended by two zero
    angles. *)
Lemma depth_loop_cold_start_counterexample :
  (forall basinhopping,
      get_params basinhopping (H_operator s_0101) 4 2
      = (x <- basinhopping
                (fun x =>
                   cs <- cost_function (H_operator s_0101) 4 2 x ;;
                   Ok (fst cs))
                [0.25 * PI; 0.25 * PI; 0.25 * PI; 0.25 * PI]
                (angle_bounds 2) ;;
         map_m (fun k => getitem x k) (range (2 * 2))))
  /\ get_params idle_optimizer (H_operator s_0101) 4 1
     = Ok [0.25 * PI; 0.25 * PI]
  /\ get_params idle_optimizer (H_operator s_0101) 4 2
     = Ok [0.25 * PI; 0.25 * PI; 0.25 * PI; 0.25 * PI]
  /\ [0.25 * PI; 0.25 * PI; 0.25 * PI; 0.25 * PI]
     <> [0.25 * PI; 0.25 * PI] ++ [0; 0]
  /\ ~ depth_loop_warm_started idle_optimizer.
Proof.
  assert (Hne : [0.25 * PI; 0.25 * PI; 0.25 * PI; 0.25 * PI]
                <> [0.25 * PI; 0.25 * PI] ++ [0; 0]).
  { cbn [app]; intros E; injection E as E _.
    exact (quarter_pi_nonzero E). }
  split; [ intros basinhopping; reflexivity | ].
  split; [ reflexivity | ].
  split; [ reflexivity | ].
  split; [ exact Hne | ].
  intros Hwarm.
  specialize (Hwarm 1%nat [0.25 * PI; 0.25 * PI] ltac:(lia) eq_refl).
  change (Ok [0.25 * PI; 0.25 * PI; 0.25 * PI; 0.25 * PI]
          = Ok ([0.25 * PI; 0.25 * PI] ++ [0; 0])) in Hwarm.
  apply Hne; congruence.
Qed.

(** ** Padding with two zero angles *)

Lemma cost_function_padded (H : mat) (n p : Z) (params : list R) :
  (0 <= n)%Z -> (0 <= p)%Z -> is_square H = true ->
  length H = Z.to_nat (2 ^ n) -> length params = Z.to_nat (2 * p) ->
  cost_function H n (p + 1) (params ++ [0; 0]) = cost_function H n p params.
Proof.
  intros Hn Hp Hsq HH Hlen.
  unfold cost_function.
  rewrite plus_state_ok by exact Hn; cbn [bind].
  unfold range.
  replace (Z.to_nat (p + 1)) with (Z.to_nat p + 1)%nat by lia.
  rewrite seq_app, for_each_app.
  rewrite (for_each_ext (seq 0 (Z.to_nat p)) _
             (fun i st =>
                a <- getitem params (2 * i) ;;
                b <- getitem params (2 * i + 1) ;;
                qaoa_step st H n [a; b])).
  2:{ intros i st Hi; apply in_seq in Hi.
      rewrite !getitem_app_l by lia; reflexivity. }
  destruct (layers_total H n params Hn Hsq HH (Z.to_nat p) 0
              (real_vec (plus_amplitudes n))) as (s & -> & Hl);
    [ lia | apply length_real_plus | ].
  cbn [bind seq for_each plus].
  unfold getitem at 1 2.
  rewrite !nth_error_app2 by lia.
  replace (2 * Z.to_nat p - length params)%nat with 0%nat by lia.
  replace (2 * Z.to_nat p + 1 - length params)%nat with 1%nat by lia.
  cbn [nth_error bind].
  rewrite qaoa_step_zero_angles by assumption.
  reflexivity.
Qed.

(** ** The amplitudes along the target and along the uniform state

    A layer acts on the plane of the target [t] and the uniform state [u];
    the state enters the cost through its component along [t] only. *)

Lemma layer_amplitudes (t u : list R) (a b c : R) (s : vec) :
  unit_real t -> unit_real u -> length u = length t ->
  length s = length t ->
  dotsum (real_vec t) (real_vec u) = RtoC c ->
  dotsum (real_vec t) (rotate u b (rotate t a s))
  = (cis a * dotsum (real_vec t) s
     + (cis b - c1)
       * (dotsum (real_vec u) s
          + (cis a - c1) * dotsum (real_vec t) s * RtoC c)
       * RtoC c)%cpx
  /\ dotsum (real_vec u) (rotate u b (rotate t a s))
     = (cis b * (dotsum (real_vec u) s
                 + (cis a - c1) * dotsum (real_vec t) s * RtoC c))%cpx.
Proof.
  intros Hut Huu Hlu Hls Hc.
  assert (L1 : length (rotate t a s) = length u)
    by (rewrite length_rotate; congruence).
  assert (D1 : dotsum (real_vec u) (rotate t a s)
               = (dotsum (real_vec u) s
                  + (cis a - c1) * dotsum (real_vec t) s * RtoC c)%cpx).
  { rewrite dotsum_rotate_other by exact Hls.
    rewrite (dotsum_comm (real_vec u) (real_vec t)), Hc; reflexivity. }
  split.
  - rewrite dotsum_rotate_other by exact L1.
    rewrite dotsum_rotate_same by assumption.
    rewrite D1, Hc; reflexivity.
  - rewrite dotsum_rotate_same by assumption.
    rewrite D1; reflexivity.
Qed.

Lemma length_layer (n : Z) (t : list R) (a b : R) (s : vec) :
  length t = Z.to_nat (2 ^ n) -> length s = length t ->
  length (rotate (plus_amplitudes n) b (rotate t a s)) = length t.
Proof.
  intros Ht Hs.
  assert (L1 : length (rotate t a s) = length t)
    by (rewrite length_rotate; assumption).
  rewrite length_rotate; [ exact L1 | ].
  rewrite length_plus_amplitudes; congruence.
Qed.

(** The evaluator at depths one and two, for the generator of a real unit
    target. *)
Lemma cost_function_depth_1 (n : Z) (t : list R) (a b : R) :
  (0 <= n)%Z -> unit_real t -> length t = Z.to_nat (2 ^ n) ->
  cost_function (H_operator (real_vec t)) n 1 [a; b]
  = let s := rotate (plus_amplitudes n) b
               (rotate t a (real_vec (plus_amplitudes n))) in
    Ok (- cabs2 (dotsum (real_vec t) s), s).
Proof.
  intros Hn Hu Ht; unfold cost_function.
  rewrite plus_state_ok by exact Hn; cbn [bind].
  change (range 1) with [0%nat]; cbn [for_each Nat.mul Nat.add].
  cbn [getitem nth_error bind].
  rewrite qaoa_step_rank1
    by (try assumption; rewrite length_real_plus; congruence).
  cbn [bind]; cbv zeta.
  apply cost_of_state, length_layer; [ exact Ht | ].
  rewrite length_real_plus; congruence.
Qed.

Lemma cost_function_depth_2 (n : Z) (t : list R) (a b c d : R) :
  (0 <= n)%Z -> unit_real t -> length t = Z.to_nat (2 ^ n) ->
  cost_function (H_operator (real_vec t)) n 2 [a; b; c; d]
  = let s1 := rotate (plus_amplitudes n) b
                (rotate t a (real_vec (plus_amplitudes n))) in
    let s := rotate (plus_amplitudes n) d (rotate t c s1) in
    Ok (- cabs2 (dotsum (real_vec t) s), s).
Proof.
  intros Hn Hu Ht; unfold cost_function.
  rewrite plus_state_ok by exact Hn; cbn [bind].
  change (range 2) with [0%nat; 1%nat]; cbn [for_each Nat.mul Nat.add].
  cbn [getitem nth_error bind].
  assert (L1 : length (rotate (plus_amplitudes n) b
                         (rotate t a (real_vec (plus_amplitudes n))))
               = length t).
  { apply length_layer; [ exact Ht | ].
    rewrite length_real_plus; congruence. }
  rewrite qaoa_step_rank1
    by (try assumption; rewrite length_real_plus; congruence).
  cbn [bind].
  rewrite qaoa_step_rank1 by assumption.
  cbn [bind]; cbv zeta.
  apply cost_of_state, length_layer; assumption.
Qed.

(** ** The target [|0101>] among sixteen states *)

Lemma sqrt_16 : sqrt (IZR (2 ^ 4)) = 4.
Proof.
  change (2 ^ 4)%Z with 16%Z.
  replace 16 with (4 * 4) by lra.
  apply sqrt_square; lra.
Qed.

Lemma cis_quarter_pi : cis (0.25 * PI) = Cpx (1 / sqrt 2) (1 / sqrt 2).
Proof.
  replace (0.25 * PI) with (PI / 4) by lra.
  unfold cis; rewrite cos_PI4, sin_PI4; reflexivity.
Qed.

Lemma inv_sqrt2_pos : 0 < 1 / sqrt 2.
Proof.
  apply Rdiv_lt_0_compat; [ lra | apply sqrt_lt_R0; lra ].
Qed.

Lemma amplitudes_16_start :
  dotsum (real_vec (basis_amplitudes 16 5)) (real_vec (plus_amplitudes 4))
  = RtoC (1 / 4)
  /\ dotsum (real_vec (plus_amplitudes 4)) (real_vec (plus_amplitudes 4))
     = RtoC 1.
Proof.
  split.
  - rewrite dotsum_real_plus by apply length_basis.
    rewrite rsum_basis by lia.
    rewrite sqrt_16; f_equal; lra.
  - rewrite dotsum_real_self.
    pose proof (unit_plus_amplitudes 4 ltac:(lia)) as Hu.
    unfold unit_real in Hu; rewrite Hu; reflexivity.
Qed.

(** One layer on [|0101>] from the uniform state; [x] and [y] are the
    components along the target and along the uniform state. *)
Lemma layer_16 (a b : R) (s : vec) (x y : complex) :
  length s = 16%nat ->
  dotsum (real_vec (basis_amplitudes 16 5)) s = x ->
  dotsum (real_vec (plus_amplitudes 4)) s = y ->
  length (rotate (plus_amplitudes 4) b (rotate (basis_amplitudes 16 5) a s))
  = 16%nat
  /\ dotsum (real_vec (basis_amplitudes 16 5))
       (rotate (plus_amplitudes 4) b (rotate (basis_amplitudes 16 5) a s))
     = (cis a * x
        + (cis b - c1) * (y + (cis a - c1) * x * RtoC (1 / 4))
          * RtoC (1 / 4))%cpx
  /\ dotsum (real_vec (plus_amplitudes 4))
       (rotate (plus_amplitudes 4) b (rotate (basis_amplitudes 16 5) a s))
     = (cis b * (y + (cis a - c1) * x * RtoC (1 / 4)))%cpx.
Proof.
  intros Hl <- <-.
  assert (Hlt : length (basis_amplitudes 16 5) = 16%nat)
    by apply length_basis.
  assert (Hlu : length (plus_amplitudes 4) = 16%nat)
    by apply length_plus_amplitudes.
  split.
  - rewrite (length_layer 4) by (assumption || congruence); exact Hlt.
  - apply layer_amplitudes.
    + apply unit_real_basis; lia.
    + apply unit_plus_amplitudes; lia.
    + congruence.
    + congruence.
    + apply amplitudes_16_start.
Qed.

Lemma overlap_16 (st : vec) :
  length st = 16%nat ->
  overlap s_0101 st
  = Ok (cabs2 (dotsum (real_vec (basis_amplitudes 16 5)) st)).
Proof.
  intros Hl; rewrite s_0101_real.
  rewrite overlap_real by (rewrite length_basis; exact Hl).
  unfold inner; rewrite vconj_real_vec; reflexivity.
Qed.

(** Depth one at the angles [(pi, pi)]: one Grover iteration. *)
Lemma depth_1_at_pi :
  exists st,
    cost_function (H_operator s_0101) 4 1 [PI; PI]
    = Ok (- (121 / 256), st)
    /\ overlap s_0101 st = Ok (121 / 256).
Proof.
  destruct amplitudes_16_start as [X0 Y0].
  destruct (layer_16 PI PI (real_vec (plus_amplitudes 4)) _ _
              (length_real_plus 4) X0 Y0) as (L1 & X1 & _).
  assert (V : cabs2 (dotsum (real_vec (basis_amplitudes 16 5))
                       (rotate (plus_amplitudes 4) PI
                          (rotate (basis_amplitudes 16 5) PI
                             (real_vec (plus_amplitudes 4)))))
              = 121 / 256).
  { rewrite X1, cis_PI; unfold cabs2; simpl; field. }
  eexists; split.
  - rewrite s_0101_real.
    rewrite cost_function_depth_1
      by (lia || apply length_basis || (apply unit_real_basis; lia)).
    cbv zeta; rewrite V; reflexivity.
  - rewrite overlap_16 by exact L1; rewrite V; reflexivity.
Qed.

(** One layer at the angles [(pi/4, pi/4)] from the uniform state: the
    components of the state along the target and along the uniform
    state. *)
Lemma first_layer_at_quarter_pi :
  length (rotate (plus_amplitudes 4) (0.25 * PI)
            (rotate (basis_amplitudes 16 5) (0.25 * PI)
               (real_vec (plus_amplitudes 4)))) = 16%nat
  /\ dotsum (real_vec (basis_amplitudes 16 5))
       (rotate (plus_amplitudes 4) (0.25 * PI)
          (rotate (basis_amplitudes 16 5) (0.25 * PI)
             (real_vec (plus_amplitudes 4))))
     = Cpx (- (15 / 64) + 15 / 32 * (1 / sqrt 2))
           (1 / 64 + 15 / 32 * (1 / sqrt 2))
  /\ dotsum (real_vec (plus_amplitudes 4))
       (rotate (plus_amplitudes 4) (0.25 * PI)
          (rotate (basis_amplitudes 16 5) (0.25 * PI)
             (real_vec (plus_amplitudes 4))))
     = Cpx (15 / 16 * (1 / sqrt 2)) (1 / 16 + 15 / 16 * (1 / sqrt 2)).
Proof.
  destruct amplitudes_16_start as [X0 Y0].
  destruct (layer_16 (0.25 * PI) (0.25 * PI) (real_vec (plus_amplitudes 4))
              _ _ (length_real_plus 4) X0 Y0) as (L1 & X1 & Y1).
  pose proof half_sqrt2_squared as Hr.
  rewrite cis_quarter_pi in X1, Y1.
  split; [ exact L1 | split ].
  - rewrite X1; set (r := 1 / sqrt 2) in *; clearbody r.
    apply complex_eq; simpl; nra.
  - rewrite Y1; set (r := 1 / sqrt 2) in *; clearbody r.
    apply complex_eq; simpl; nra.
Qed.

(** Depth one at the start vector [(pi/4, pi/4)]. *)
Lemma depth_1_at_quarter_pi :
  exists st,
    cost_function (H_operator s_0101) 4 1 [0.25 * PI; 0.25 * PI]
    = Ok (- (563 / 2048 - 105 / 512 * (1 / sqrt 2)), st).
Proof.
  destruct first_layer_at_quarter_pi as (L1 & X1 & _).
  eexists.
  rewrite s_0101_real.
  rewrite cost_function_depth_1
    by (lia || apply length_basis || (apply unit_real_basis; lia)).
  cbv zeta; rewrite X1.
  f_equal; f_equal; f_equal.
  pose proof half_sqrt2_squared as Hr.
  set (r := 1 / sqrt 2) in *; clearbody r.
  unfold cabs2; simpl; nra.
Qed.

(** Depth two at the start vector [(pi/4, pi/4, pi/4, pi/4)]. *)
Lemma depth_2_at_quarter_pi :
  exists st,
    cost_function (H_operator s_0101) 4 2
      [0.25 * PI; 0.25 * PI; 0.25 * PI; 0.25 * PI]
    = Ok (- (144289 / 262144 - 13695 / 32768 * (1 / sqrt 2)), st)
    /\ overlap s_0101 st
       = Ok (144289 / 262144 - 13695 / 32768 * (1 / sqrt 2)).
Proof.
  destruct first_layer_at_quarter_pi as (L1 & X1 & Y1).
  pose proof half_sqrt2_squared as Hr.
  destruct (layer_16 (0.25 * PI) (0.25 * PI) _ _ _ L1 X1 Y1)
    as (L2 & X2 & _).
  rewrite cis_quarter_pi in X2.
  assert (M : (Cpx (15 / 16 * (1 / sqrt 2)) (1 / 16 + 15 / 16 * (1 / sqrt 2))
               + (Cpx (1 / sqrt 2) (1 / sqrt 2) - c1)
                 * Cpx (- (15 / 64) + 15 / 32 * (1 / sqrt 2))
                       (1 / 64 + 15 / 32 * (1 / sqrt 2))
                 * RtoC (1 / 4))%cpx
              = Cpx (15 / 256 + 97 / 128 * (1 / sqrt 2))
                    (45 / 256 + 49 / 64 * (1 / sqrt 2))).
  { set (r := 1 / sqrt 2) in *; clearbody r.
    apply complex_eq; simpl; nra. }
  rewrite M in X2.
  assert (X2' : dotsum (real_vec (basis_amplitudes 16 5))
                  (rotate (plus_amplitudes 4) (0.25 * PI)
                     (rotate (basis_amplitudes 16 5) (0.25 * PI)
                        (rotate (plus_amplitudes 4) (0.25 * PI)
                           (rotate (basis_amplitudes 16 5) (0.25 * PI)
                              (real_vec (plus_amplitudes 4))))))
                = Cpx (- (1 / 64) - 15 / 32 * (1 / sqrt 2))
                      (315 / 512 - 45 / 128 * (1 / sqrt 2))).
  { rewrite X2; set (r := 1 / sqrt 2) in *; clearbody r.
    apply complex_eq; simpl; nra. }
  assert (V : cabs2 (Cpx (- (1 / 64) - 15 / 32 * (1 / sqrt 2))
                         (315 / 512 - 45 / 128 * (1 / sqrt 2)))
              = 144289 / 262144 - 13695 / 32768 * (1 / sqrt 2)).
  { set (r := 1 / sqrt 2) in *; clearbody r.
    unfold cabs2; simpl; nra. }
  eexists; split.
  - rewrite s_0101_real.
    rewrite cost_function_depth_2
      by (lia || apply length_basis || (apply unit_real_basis; lia)).
    cbv zeta; rewrite X2', V; reflexivity.
  - rewrite overlap_16 by exact L2; rewrite X2', V; reflexivity.
Qed.

(** The two recorded values compare as [0.2549 < 0.4727], and the start
    vector of depth one costs no less than the angles [(pi, pi)]. *)
Lemma values_16_compare :
  144289 / 262144 - 13695 / 32768 * (1 / sqrt 2) < 121 / 256
  /\ - (121 / 256) <= - (563 / 2048 - 105 / 512 * (1 / sqrt 2)).
Proof.
  pose proof half_sqrt2_squared as Hr.
  pose proof inv_sqrt2_pos as Hpos.
  set (r := 1 / sqrt 2) in *; clearbody r.
  split; nra.
Qed.

(** ** The cold-started loop can record a worse result *)

Lemma stuck_after_first_never_worse :
  never_worse_than_start stuck_after_first.
Proof.
  intros f x0 b x c0 E E0; unfold stuck_after_first in E.
  assert (Hstay : x = x0 -> exists c, f x = Ok c /\ c <= c0).
  { intros ->; exists c0; split; [ exact E0 | lra ]. }
  destruct (length x0 =? 2)%nat; [ | injection E as <-; auto ].
  destruct (f [PI; PI]) as [c | e] eqn:Epi;
    [ | injection E as <-; auto ].
  rewrite E0 in E.
  destruct (Rle_dec c c0) as [Hle | _]; injection E as <-; [ | auto ].
  exists c; split; [ exact Epi | exact Hle ].
Qed.

Lemma idle_optimizer_never_worse : never_worse_than_start idle_optimizer.
Proof.
  intros f x0 b x c0 [= <-] E0; exists c0; split; [ exact E0 | lra ].
Qed.

(** What the optimizer answers at the five depths of the loop. *)
Lemma stuck_after_first_depth_1 :
  get_params stuck_after_first (H_operator s_0101) 4 1 = Ok [PI; PI].
Proof.
  destruct depth_1_at_pi as (sG & EG & _).
  destruct depth_1_at_quarter_pi as (s1 & E1).
  unfold get_params, stuck_after_first.
  change (map (fun _ => 0.25 * PI) (range (2 * 1)))
    with [0.25 * PI; 0.25 * PI].
  cbn [length Nat.eqb]; rewrite EG, E1; cbn [bind fst].
  destruct (Rle_dec _ _) as [_ | Hn];
    [ reflexivity | exfalso; apply Hn, values_16_compare ].
Qed.

Lemma stuck_after_first_later (i : nat) :
  (2 <= i)%nat ->
  get_params stuck_after_first (H_operator s_0101) 4 (Z.of_nat i)
  = Ok (map (fun _ => 0.25 * PI) (range (2 * Z.of_nat i))).
Proof.
  intros Hi; unfold get_params, stuck_after_first.
  replace (length (map (fun _ => (0.25 * PI)%R) (range (2 * Z.of_nat i)))
           =? 2)%nat with false.
  2:{ symmetry; apply Nat.eqb_neq.
      unfold range; rewrite length_map, length_seq; lia. }
  cbn [bind]; unfold range at 2; rewrite map_m_getitem_seq.
  rewrite length_map; unfold range; rewrite length_seq, Nat.leb_refl.
  f_equal; apply firstn_all2; rewrite length_map, length_seq; lia.
Qed.

Lemma stuck_after_first_in_box (i : nat) :
  (1 <= i)%nat ->
  exists angles,
    get_params stuck_after_first (H_operator s_0101) 4 (Z.of_nat i)
    = Ok angles
    /\ in_box angles (angle_bounds (Z.of_nat i)).
Proof.
  intros Hi; destruct (Nat.eq_dec i 1) as [-> | Hne].
  - exists [PI; PI]; split; [ exact stuck_after_first_depth_1 | ].
    pose proof PI_RGT_0.
    change (angle_bounds (Z.of_nat 1)) with [(0, 2 * PI); (0, PI)].
    repeat (apply Forall2_cons; [ cbn [fst snd]; lra | ]).
    apply Forall2_nil.
  - eexists; split; [ apply stuck_after_first_later; lia | ].
    apply in_box_constant; pose proof PI_RGT_0; lra.
Qed.

(** A round of the loop at a depth where the optimizer stays at its
    start. *)
Lemma stuck_round (i : nat) :
  (2 <= i)%nat ->
  exists o,
    (let i := Z.of_nat i in
     params <- get_params stuck_after_first (H_operator s_0101) 4 i ;;
     cs <- cost_function (H_operator s_0101) 4 i params ;;
     o <- overlap s_0101 (snd cs) ;;
     Ok (o, i)) = Ok (o, Z.of_nat i).
Proof.
  intros Hi; cbv zeta.
  rewrite stuck_after_first_later by exact Hi; cbn [bind].
  destruct (depth_round_overlap (Z.of_nat i)
              (map (fun _ => 0.25 * PI) (range (2 * Z.of_nat i))))
    as (c & st & o & -> & Eo & _).
  { unfold range; rewrite length_map, length_seq; lia. }
  exists o; cbn [bind snd]; rewrite Eo; reflexivity.
Qed.

Lemma stuck_after_first_run :
  exists o3 o4 o5,
    depth_loop stuck_after_first
    = Ok ([121 / 256;
           144289 / 262144 - 13695 / 32768 * (1 / sqrt 2);
           o3; o4; o5],
          [1; 2; 3; 4; 5]%Z).
Proof.
  destruct depth_1_at_pi as (sG & EG & OG).
  destruct depth_2_at_quarter_pi as (s2 & E2 & O2).
  destruct (stuck_round 3 ltac:(lia)) as (o3 & R3).
  destruct (stuck_round 4 ltac:(lia)) as (o4 & R4).
  destruct (stuck_round 5 ltac:(lia)) as (o5 & R5).
  exists o3, o4, o5.
  rewrite depth_loop_cold_start.
  change (range_from 1 6) with [1; 2; 3; 4; 5]%nat.
  cbn [map_m].
  cbv zeta in R3, R4, R5 |- *.
  rewrite R3, R4, R5.
  change (Z.of_nat 1) with 1%Z; change (Z.of_nat 2) with 2%Z.
  rewrite stuck_after_first_depth_1; cbn [bind].
  rewrite EG; cbn [bind snd]; rewrite OG; cbn [bind].
  pose proof (stuck_after_first_later 2 ltac:(lia)) as G2.
  change (Z.of_nat 2) with 2%Z in G2.
  change (map (fun _ => 0.25 * PI) (range (2 * 2)))
    with [0.25 * PI; 0.25 * PI; 0.25 * PI; 0.25 * PI] in G2.
  rewrite G2; cbn [bind]; rewrite E2; cbn [bind snd]; rewrite O2; cbn [bind].
  reflexivity.
Qed.

(** C8, as stated, fails on the top-level loop of the numpy/scipy
    notebook, which starts every depth from [pi/4] in every coordinate.
    With an optimizer that never answers worse than its starting point and
    stays within the bounds, that finds the angles [(pi, pi)] at depth one
    and does not get away from its starting point afterwards, the loop
    records the overlap [121/256] at depth one and the smaller overlap
    [0.2549] at depth two, although the angles of depth one extended by
    two zeros still have the cost [-121/256] at depth two. *)
Lemma cold_start_records_worse_counterexample :
  never_worse_than_start stuck_after_first
  /\ (forall i, (1 <= i <= 5)%nat ->
        exists angles,
          get_params stuck_after_first (H_operator s_0101) 4 (Z.of_nat i)
          = Ok angles
          /\ in_box angles (angle_bounds (Z.of_nat i)))
  /\ (exists o3 o4 o5,
        depth_loop stuck_after_first
        = Ok ([121 / 256;
               144289 / 262144 - 13695 / 32768 * (1 / sqrt 2);
               o3; o4; o5],
              [1; 2; 3; 4; 5]%Z))
  /\ 144289 / 262144 - 13695 / 32768 * (1 / sqrt 2) < 121 / 256
  /\ (exists st,
        cost_function (H_operator s_0101) 4 2 ([PI; PI] ++ [0; 0])
        = Ok (- (121 / 256), st))
  /\ ~ depth_loop_falls_back stuck_after_first.
Proof.
  split; [ exact stuck_after_first_never_worse | ].
  split; [ intros i Hi; apply stuck_after_first_in_box; lia | ].
  split; [ exact stuck_after_first_run | ].
  split; [ apply values_16_compare | ].
  split.
  - destruct depth_1_at_pi as (sG & EG & _); exists sG.
    rewrite <- EG.
    apply (cost_function_padded (H_operator s_0101) 4 1 [PI; PI]);
      try lia; try reflexivity.
  - intros Hfall.
    destruct stuck_after_first_run as (o3 & o4 & o5 & Erun).
    specialize (Hfall _ _ Erun 0%nat ltac:(cbn; lia)).
    cbn [nth] in Hfall.
    pose proof (proj1 values_16_compare); lra.
Qed.

(** ** The warm-started sweep never records a worse result *)

(** What [F_function] returns on kets and what [calc_n_p] records of it. *)
Lemma kets_record (t : list R) (n p : Z) (angles : list R) :
  (1 <= n)%Z -> length t = Z.to_nat (2 ^ n) -> unit_real t ->
  (Z.to_nat (2 * p) <= length angles)%nat ->
  exists s f,
    Qit.F_function (L := kets) (real_vec t) n p angles
    = Ok (- f ^ 2, s)
    /\ @Qit.fidelity kets (real_vec t) s = Ok f.
Proof.
  intros Hn Ht Hu Hp.
  rewrite kets_F_function by exact Hn.
  destruct (cost_function_rank1 t n p angles) as (s & -> & Hs & _);
    try assumption; [ lia | ].
  destruct (kets_fidelity_squared t s Hs) as (f & Ef & Hf).
  exists s, f; rewrite Hf; split; [ reflexivity | exact Ef ].
Qed.

(** C8, amended.  Neither driver compares the costs of two depths, and
    neither falls back.  In [calc_n_p] of the qit notebook the optimizer of
    depth [p + 1] is started from the angles of depth [p] extended by two
    zero angles, which have at depth [p + 1] the cost that the angles of
    depth [p] have at depth [p]; so with an optimizer that never answers
    worse than its starting point, as [basinhopping] does, no depth records
    less than the depth before.  On kets, for a real unit target on
    [n >= 1] qubits. *)
Theorem warm_start_never_records_worse
  (basinhopping :
     (list R -> result R) -> list R -> list (R * R) -> result (list R))
  (t : list R) (n P : Z) (fids : list R) (ps : list Z) :
  (1 <= n)%Z -> length t = Z.to_nat (2 ^ n) -> norm (real_vec t) = 1 ->
  never_worse_than_start basinhopping ->
  Qit.calc_n_p (L := kets) basinhopping (real_vec t) n P = Ok (fids, ps) ->
  length fids = Z.to_nat P
  /\ records_no_worse fids
  /\ forall k, (S k < Z.to_nat P)%nat ->
       exists prev s,
         Qit.running_angles (L := kets) basinhopping (real_vec t) n (S k)
         = Ok (prev ++ [0; 0])
         /\ Qit.F_function (L := kets) (real_vec t) n (Z.of_nat (S k)) prev
            = Ok (- nth k fids 0, s)
         /\ Qit.F_function (L := kets) (real_vec t) n (Z.of_nat (S (S k)))
              (prev ++ [0; 0])
            = Ok (- nth k fids 0, s)
         /\ nth k fids 0 <= nth (S k) fids 0.
Proof.
  intros Hn Ht Hnorm Hbh E.
  assert (Hu : unit_real t) by (apply unit_real_of_norm; exact Hnorm).
  rewrite calc_n_p_unfold in E.
  destruct (Qit.sweep_spec (L := kets) basinhopping (real_vec t) n 1
              (Z.to_nat P) [0.5 * PI; 0.5 * PI]) as [recs | e] eqn:Es;
    cbn [bind] in E; [ | discriminate ].
  injection E as <- <-.
  assert (Hlen : length (map snd recs) = Z.to_nat P).
  { pose proof (sweep_spec_depths (L := kets) basinhopping (real_vec t) n
                  _ _ _ _ Es) as Hd.
    apply (f_equal (@length _)) in Hd.
    rewrite !length_map, length_seq in Hd.
    rewrite length_map; exact Hd. }
  assert (Hstep : forall k, (S k < Z.to_nat P)%nat ->
             exists prev s,
               Qit.running_angles (L := kets) basinhopping (real_vec t) n
                 (S k) = Ok (prev ++ [0; 0])
               /\ Qit.F_function (L := kets) (real_vec t) n
                    (Z.of_nat (S k)) prev
                  = Ok (- nth k (map snd recs) 0, s)
               /\ Qit.F_function (L := kets) (real_vec t) n
                    (Z.of_nat (S (S k))) (prev ++ [0; 0])
                  = Ok (- nth k (map snd recs) 0, s)
               /\ nth k (map snd recs) 0 <= nth (S k) (map snd recs) 0).
  { intros k Hk.
    destruct (sweep_spec_nth (L := kets) basinhopping (real_vec t) n
                _ _ _ _ Es k ltac:(lia))
      as (w & angles & fs & f & Hw & Hg & HF & Hf & Hnth & Hnext).
    destruct (sweep_spec_nth (L := kets) basinhopping (real_vec t) n
                _ _ _ _ Es (S k) ltac:(lia))
      as (w' & angles' & fs' & f' & Hw' & Hg' & HF' & Hf' & Hnth' & _).
    rewrite Hnext in Hw'; injection Hw' as <-.
    change (1 + k)%nat with (S k) in *.
    change (1 + S k)%nat with (S (S k)) in *.
    pose proof (qit_get_params_length (L := kets) basinhopping (real_vec t)
                  n _ _ _ Hg) as Hla.
    pose proof (qit_get_params_length (L := kets) basinhopping (real_vec t)
                  n _ _ _ Hg') as Hla'.
    (* the record of depth [k + 1] *)
    destruct (kets_record t n (Z.of_nat (S k)) angles Hn Ht Hu ltac:(lia))
      as (s & g & EF & Eg).
    rewrite EF in HF; injection HF as <-.
    cbn [snd] in Hf; rewrite Eg in Hf; injection Hf as <-.
    (* the start of depth [k + 2] costs the same *)
    assert (Epad : Qit.F_function (L := kets) (real_vec t) n
                     (Z.of_nat (S (S k))) (angles ++ [0; 0])
                   = Ok (- g ^ 2, s)).
    { rewrite <- EF, !kets_F_function by exact Hn.
      replace (Z.of_nat (S (S k))) with (Z.of_nat (S k) + 1)%Z by lia.
      apply cost_function_padded; try lia.
      - apply is_square_H_operator.
      - rewrite length_H_operator, length_real_vec; exact Ht. }
    (* the record of depth [k + 2] *)
    destruct (kets_record t n (Z.of_nat (S (S k))) angles' Hn Ht Hu
                ltac:(lia)) as (s' & g' & EF' & Eg').
    rewrite EF' in HF'; injection HF' as <-.
    cbn [snd] in Hf'; rewrite Eg' in Hf'; injection Hf' as <-.
    (* the optimizer's answer costs no more than its start *)
    rewrite qit_get_params_result in Hg'.
    destruct (basinhopping
                (fun x =>
                   fs <- Qit.F_function (L := kets) (real_vec t) n
                           (Z.of_nat (S (S k))) x ;;
                   Ok (fst fs))
                (angles ++ [0; 0]) (angle_bounds (Z.of_nat (S (S k)))))
      as [x | e] eqn:Ebh; cbn [bind] in Hg'; [ | discriminate ].
    destruct (Z.to_nat (2 * Z.of_nat (S (S k))) <=? length x)%nat;
      [ | discriminate ].
    assert (Hx : firstn (Z.to_nat (2 * Z.of_nat (S (S k)))) x = angles')
      by congruence.
    destruct (Hbh _ _ _ x (- g ^ 2) Ebh) as (c & Ec & Hc).
    { cbv beta; rewrite Epad; reflexivity. }
    cbv beta in Ec.
    rewrite F_function_firstn, Hx, EF' in Ec; cbn [bind fst] in Ec.
    injection Ec as <-.
    exists angles, s; rewrite Hnth, Hnth'.
    repeat split; [ exact Hnext | exact EF | exact Epad | lra ]. }
  split; [ exact Hlen | split; [ | exact Hstep ] ].
  intros j Hj; rewrite Hlen in Hj.
  destruct (Hstep j Hj) as (_ & _ & _ & _ & _ & Hle); exact Hle.
Qed.

Lemma warm_start_never_records_worse_witness :
  length [1; 1] = Z.to_nat 2
  /\ records_no_worse [1; 1]
  /\ forall k, (S k < Z.to_nat 2)%nat ->
       exists prev s,
         Qit.running_angles (L := kets) idle_optimizer (real_vec [1; 0]) 1
           (S k) = Ok (prev ++ [0; 0])
         /\ Qit.F_function (L := kets) (real_vec [1; 0]) 1 (Z.of_nat (S k))
              prev
            = Ok (- nth k [1; 1] 0, s)
         /\ Qit.F_function (L := kets) (real_vec [1; 0]) 1
              (Z.of_nat (S (S k))) (prev ++ [0; 0])
            = Ok (- nth k [1; 1] 0, s)
         /\ nth k [1; 1] 0 <= nth (S k) [1; 1] 0.
Proof.
  apply (warm_start_never_records_worse idle_optimizer [1; 0] 1 2
           [1; 1] [1; 2]%Z);
    [ lia | reflexivity | exact norm_basis_2
    | exact idle_optimizer_never_worse | exact idle_run ].
Defined.
